(** * 2048: the grid transition engine of [main.py]

    A shallow embedding of the tile entity, the move (slide and merge)
    algorithm, the spawn and game-over policy and one frame of the control
    loop, followed by the properties proved about them.

    Tile objects are mutable and shared between the [tiles] list and the
    local [grid] of [move]; the embedding keeps them in a heap (a list of
    tiles, a reference being a position in it) and lets the grid hold
    references, so that a write through the grid is seen through the list. *)

From Stdlib Require Import ZArith List String Bool Lia QArith Permutation Sorted.
From stdpp Require Import base list gmap.

Local Open Scope Z_scope.

(** ** Module constants *)

Definition FPS : Z := 60.
Definition WIDTH : Z := 800.
Definition HEIGHT : Z := 800.
Definition ROWS : Z := 4.
Definition COLS : Z := 4.
Definition RECT_WIDTH : Z := WIDTH / COLS.
Definition RECT_HEIGHT : Z := HEIGHT / ROWS.
Definition ANIMATION_SPEED : Z := 30.
Definition MERGE_ANIM_DURATION : Z := 8.

(** ** Outcomes of a call *)

Inductive exn : Type := IndexError | TypeError | ValueError | OverflowError.

(** A call returns, raises, or (only in the model) exhausts the fuel given
    to a [while True] loop. *)
Inductive outcome (A : Type) : Type :=
| Ret (a : A)
| Raise (e : exn)
| OutOfFuel.
Arguments Ret {A} a.
Arguments Raise {A} e.
Arguments OutOfFuel {A}.

(** ** Limits of the Python runtime *)

(** An [int] converts to a [float] only below [2 ** 1024 - 2 ** 970], the
    least integer that rounds to [2 ** 1024]: from there on [int + float]
    and [int / int] raise [OverflowError]. *)
Definition FLOAT_LIMIT : Z := 2 ^ 1024 - 2 ^ 970.

(** [str] of an [int] of more than 4300 digits raises [ValueError]
    (the default of [sys.get_int_max_str_digits()]). *)
Definition INT_MAX_STR_DIGITS : Z := 4300.

(** ** The tile entity *)

Module Tile.

Record t : Type := mk {
  value : Z;
  row : Z;
  col : Z;
  x : Z;
  y : Z;
  target_x : Z;
  target_y : Z;
  merged : bool;
  to_remove : bool;
  merge_anim_counter : Z
}.

(** [Tile.__init__] *)
Definition init (v r c : Z) : t :=
  {| value := v; row := r; col := c;
     x := c * RECT_WIDTH; y := r * RECT_HEIGHT;
     target_x := c * RECT_WIDTH; target_y := r * RECT_HEIGHT;
     merged := false; to_remove := false; merge_anim_counter := 0 |}.

Definition set_value (v : Z) (s : t) : t :=
  mk v (row s) (col s) (x s) (y s) (target_x s) (target_y s)
     (merged s) (to_remove s) (merge_anim_counter s).
Definition set_row (v : Z) (s : t) : t :=
  mk (value s) v (col s) (x s) (y s) (target_x s) (target_y s)
     (merged s) (to_remove s) (merge_anim_counter s).
Definition set_col (v : Z) (s : t) : t :=
  mk (value s) (row s) v (x s) (y s) (target_x s) (target_y s)
     (merged s) (to_remove s) (merge_anim_counter s).
Definition set_x (v : Z) (s : t) : t :=
  mk (value s) (row s) (col s) v (y s) (target_x s) (target_y s)
     (merged s) (to_remove s) (merge_anim_counter s).
Definition set_y (v : Z) (s : t) : t :=
  mk (value s) (row s) (col s) (x s) v (target_x s) (target_y s)
     (merged s) (to_remove s) (merge_anim_counter s).
Definition set_target_x (v : Z) (s : t) : t :=
  mk (value s) (row s) (col s) (x s) (y s) v (target_y s)
     (merged s) (to_remove s) (merge_anim_counter s).
Definition set_target_y (v : Z) (s : t) : t :=
  mk (value s) (row s) (col s) (x s) (y s) (target_x s) v
     (merged s) (to_remove s) (merge_anim_counter s).
Definition set_merged (v : bool) (s : t) : t :=
  mk (value s) (row s) (col s) (x s) (y s) (target_x s) (target_y s)
     v (to_remove s) (merge_anim_counter s).
Definition set_to_remove (v : bool) (s : t) : t :=
  mk (value s) (row s) (col s) (x s) (y s) (target_x s) (target_y s)
     (merged s) v (merge_anim_counter s).
Definition set_merge_anim_counter (v : Z) (s : t) : t :=
  mk (value s) (row s) (col s) (x s) (y s) (target_x s) (target_y s)
     (merged s) (to_remove s) v.

(** [Tile.update_position]: the tile after the call and the returned flag *)
Definition update_position (s : t) : t * bool :=
  let '(s1, mx) :=
    if Z.abs (x s - target_x s) >? ANIMATION_SPEED
    then (set_x (x s + (if target_x s >? x s then ANIMATION_SPEED
                        else - ANIMATION_SPEED)) s, true)
    else (set_x (target_x s) s, false) in
  let '(s2, my) :=
    if Z.abs (y s1 - target_y s1) >? ANIMATION_SPEED
    then (set_y (y s1 + (if target_y s1 >? y s1 then ANIMATION_SPEED
                         else - ANIMATION_SPEED)) s1, true)
    else (set_y (target_y s1) s1, mx) in
  if negb my && (merge_anim_counter s2 =? 0)
  then (set_col (target_x s2 / RECT_WIDTH)
                (set_row (target_y s2 / RECT_HEIGHT) s2), my)
  else (s2, my).

(** [Tile.start_merge_animation] *)
Definition start_merge_animation (s : t) : t :=
  set_merge_anim_counter MERGE_ANIM_DURATION s.

(** [Tile.get_color]: [math.log2] raises [ValueError] unless the value is
    positive.  The colour itself is not modelled: the index is clamped to
    the table from above and a negative one, for value 1, counts from its
    end, so that the subscript does not raise. *)
Definition get_color (s : t) : outcome unit :=
  if value s <=? 0 then Raise ValueError else Ret tt.

(** [Tile.draw].  The calls of pygame are outside the model and taken to
    return; what remains are the computations that raise before them and
    the write to the countdown at the end of the method:
    [self.merge_anim_counter / MERGE_ANIM_DURATION] when the countdown is
    positive, [self.x + ...] and [self.y + ...] with a float,
    [self.get_color()] and [str(self.value)]. *)
Definition draw (s : t) : outcome t :=
  if (merge_anim_counter s >? 0)
     && (MERGE_ANIM_DURATION * FLOAT_LIMIT <=? merge_anim_counter s)
  then Raise OverflowError
  else if FLOAT_LIMIT <=? Z.abs (x s) then Raise OverflowError
  else if FLOAT_LIMIT <=? Z.abs (y s) then Raise OverflowError
  else
    match get_color s with
    | Raise e => Raise e
    | OutOfFuel => OutOfFuel
    | Ret _ =>
        if 10 ^ INT_MAX_STR_DIGITS <=? value s then Raise ValueError
        else if merge_anim_counter s >? 0
        then Ret (set_merge_anim_counter (merge_anim_counter s - 1) s)
        else Ret s
    end.

End Tile.

#[global] Instance Tile_inhabited : Inhabited Tile.t :=
  populate (Tile.init 0 0 0).

(** ** The heap monad *)

(** The heap of tile objects; a reference is a position in it. *)
Abbreviation Heap := (list Tile.t).

Definition M (A : Type) : Type := Heap -> Heap * outcome A.

Definition ret {A} (a : A) : M A := fun h => (h, Ret a).
Definition bind {A B} (m : M A) (f : A -> M B) : M B :=
  fun h =>
    match m h with
    | (h', Ret a) => f a h'
    | (h', Raise e) => (h', Raise e)
    | (h', OutOfFuel) => (h', OutOfFuel)
    end.
Definition lift {A} (o : outcome A) : M A := fun h => (h, o).
Definition raise {A} (e : exn) : M A := lift (Raise e).
Definition read (i : nat) : M Tile.t := fun h => (h, Ret (h !!! i)).
Definition write (i : nat) (f : Tile.t -> Tile.t) : M unit :=
  fun h => (alter f i h, Ret tt).

Declare Scope heap_scope.
Delimit Scope heap_scope with heap.
Notation "'let*' x ':=' m 'in' k" := (bind m (fun x => k))
  (at level 10, x pattern, m at level 100, k at level 200) : heap_scope.
Notation "m ';;' k" := (bind m (fun _ => k))
  (at level 100, k at level 200, right associativity) : heap_scope.

(** ** Python subscripting of a list *)

(** The position denoted by subscript [i] in a list of length [len]:
    negative subscripts count from the end, anything else out of range has
    none (the access raises [IndexError]). *)
Definition py_index (len : nat) (i : Z) : option nat :=
  if (0 <=? i) && (i <? Z.of_nat len) then Some (Z.to_nat i)
  else if (- Z.of_nat len <=? i) && (i <? 0)
       then Some (Z.to_nat (Z.of_nat len + i))
       else None.

(** [l[i]] *)
Definition subscript {A} (l : list A) (i : Z) : outcome A :=
  match py_index (length l) i with
  | Some n => match l !! n with Some a => Ret a | None => Raise IndexError end
  | None => Raise IndexError
  end.

(** [l[i] = v] *)
Definition assign {A} (l : list A) (i : Z) (v : A) : outcome (list A) :=
  match py_index (length l) i with
  | Some n => Ret (<[n := v]> l)
  | None => Raise IndexError
  end.

(** ** The grid of [move]: ROWS lists of COLS optional tile references *)

Abbreviation Grid := (list (list (option nat))).

Definition empty_grid : Grid :=
  replicate (Z.to_nat ROWS) (replicate (Z.to_nat COLS) None).

(** [grid[r][c]] *)
Definition grid_get {A} (g : list (list A)) (r c : Z) : outcome A :=
  match subscript g r with
  | Ret line => subscript line c
  | Raise e => Raise e
  | OutOfFuel => OutOfFuel
  end.

(** [grid[r][c] = v]; the rows are distinct list objects. *)
Definition grid_set {A} (g : list (list A)) (r c : Z) (v : A)
  : outcome (list (list A)) :=
  match subscript g r with
  | Ret line =>
      match assign line c v with
      | Ret line' => assign g r line'
      | Raise e => Raise e
      | OutOfFuel => OutOfFuel
      end
  | Raise e => Raise e
  | OutOfFuel => OutOfFuel
  end.

(** ** [reset_merged_flags] *)

Definition reset_merged_flags (tiles : Heap) : Heap :=
  map (fun s => Tile.set_to_remove false (Tile.set_merged false s)) tiles.

(** ** [move] *)

(** [for t in tiles: grid[t.row][t.col] = t], the tile at position [i] of
    the list being reference [i]. *)
Fixpoint build_grid (tiles : list Tile.t) (i : nat) (g : Grid) : outcome Grid :=
  match tiles with
  | [] => Ret g
  | s :: rest =>
      match grid_set g (Tile.row s) (Tile.col s) (Some i) with
      | Ret g' => build_grid rest (S i) g'
      | Raise e => Raise e
      | OutOfFuel => OutOfFuel
      end
  end.

(** [range(n)] and [reversed(range(n))] *)
Definition range (n : Z) : list Z := map Z.of_nat (seq 0 (Z.to_nat n)).
Definition reversed {A} (l : list A) : list A := rev l.

(** The inner function [traverse]; [None] is Python's [None], returned when
    no branch of the [if] chain is taken. *)
Definition traverse (direction : string) : option (list (Z * Z)) :=
  if String.eqb direction "left" then
    Some (flat_map (fun r => map (fun c => (r, c)) (range COLS)) (range ROWS))
  else if String.eqb direction "right" then
    Some (flat_map (fun r => map (fun c => (r, c)) (reversed (range COLS)))
                   (range ROWS))
  else if String.eqb direction "up" then
    Some (flat_map (fun c => map (fun r => (r, c)) (range ROWS)) (range COLS))
  else if String.eqb direction "down" then
    Some (flat_map (fun c => map (fun r => (r, c)) (reversed (range ROWS)))
                   (range COLS))
  else None.

(** The inner function [next_pos] *)
Definition next_pos (direction : string) (r c : Z) : option (Z * Z) :=
  if String.eqb direction "left" then Some (r, c - 1)
  else if String.eqb direction "right" then Some (r, c + 1)
  else if String.eqb direction "up" then Some (r - 1, c)
  else if String.eqb direction "down" then Some (r + 1, c)
  else None.

(** The inner function [within] *)
Definition within (r c : Z) : bool :=
  (0 <=? r) && (r <? ROWS) && (0 <=? c) && (c <? COLS).

(** The local variables the loops of [move] update. *)
Record Locals : Type := mkLocals {
  grid : Grid;
  current : Z * Z;
  moved : bool
}.

Local Open Scope heap_scope.

(** The [while True] loop of [move] for the tile [tile]. *)
Fixpoint slide (fuel : nat) (direction : string) (tile : nat) (l : Locals)
  : M Locals :=
  match fuel with
  | O => lift OutOfFuel
  | S fuel' =>
      match next_pos direction (fst (current l)) (snd (current l)) with
      | None => raise TypeError
      | Some (nr, nc) =>
          if negb (within nr nc) then ret l
          else
            let* next_tile := lift (grid_get (grid l) nr nc) in
            match next_tile with
            | None =>
                let* g1 := lift (grid_set (grid l) nr nc (Some tile)) in
                let* g2 := lift (grid_set g1 (fst (current l))
                                          (snd (current l)) None) in
                slide fuel' direction tile (mkLocals g2 (nr, nc) true)
            | Some nt =>
                let* next_obj := read nt in
                let* tile_obj := read tile in
                if (Tile.value next_obj =? Tile.value tile_obj)
                   && negb (Tile.merged tile_obj)
                   && negb (Tile.merged next_obj)
                then
                  write nt (fun s => Tile.set_value (Tile.value s * 2) s);;
                  write nt (Tile.set_merged true);;
                  write nt Tile.start_merge_animation;;
                  write tile (Tile.set_to_remove true);;
                  let* g1 := lift (grid_set (grid l) (fst (current l))
                                            (snd (current l)) None) in
                  ret (mkLocals g1 (current l) true)
                else ret l
            end
      end
  end.

(** Fuel for [slide]: a tile takes fewer steps than the grid has lines. *)
Definition slide_fuel : nat := Z.to_nat (ROWS + COLS).

(** The body of [for r, c in traverse()]. *)
Definition visit (direction : string) (rc : Z * Z) (l : Locals) : M Locals :=
  let* tile := lift (grid_get (grid l) (fst rc) (snd rc)) in
  match tile with
  | None => ret l
  | Some i =>
      let* l' := slide slide_fuel direction i (mkLocals (grid l) rc (moved l)) in
      write i (Tile.set_target_x (snd (current l') * RECT_WIDTH));;
      write i (Tile.set_target_y (fst (current l') * RECT_HEIGHT));;
      ret l'
  end.

Fixpoint for_cells (direction : string) (cells : list (Z * Z)) (l : Locals)
  : M Locals :=
  match cells with
  | [] => ret l
  | rc :: rest =>
      let* l' := visit direction rc l in
      for_cells direction rest l'
  end.

(** [move] up to, and without, the final [tiles[:] = ...]: the heap it
    leaves holds every tile object of the call, removed ones included. *)
Definition move_loop (direction : string) : M bool :=
  fun tiles =>
    (let* _ := (fun h => (reset_merged_flags h, Ret tt)) in
     let* tiles0 := (fun h => (h, Ret h)) in
     let* g := lift (build_grid tiles0 0 empty_grid) in
     match traverse direction with
     | None => raise TypeError
     | Some cells =>
         let* l := for_cells direction cells (mkLocals g (0, 0) false) in
         ret (moved l)
     end) tiles.

(** [[t for t in tiles if not t.to_remove]] *)
Definition purge (tiles : list Tile.t) : list Tile.t :=
  filter (fun s => Tile.to_remove s = false) tiles.

(** [move(tiles, direction)]: the list [tiles] after the call and the
    outcome. *)
Definition move (tiles : list Tile.t) (direction : string)
  : list Tile.t * outcome bool :=
  match move_loop direction tiles with
  | (h, Ret m) => (purge h, Ret m)
  | (h, Raise e) => (h, Raise e)
  | (h, OutOfFuel) => (h, OutOfFuel)
  end.

Local Close Scope heap_scope.

(** ** [spawn_tile] *)

(** The cells of the board in the order of the comprehension
    [for r in range(ROWS) for c in range(COLS)]. *)
Definition all_cells : list (Z * Z) :=
  flat_map (fun r => map (fun c => (r, c)) (range COLS)) (range ROWS).

(** [{(t.row, t.col) for t in tiles}] *)
Definition occupied (tiles : list Tile.t) : gset (Z * Z) :=
  list_to_set (map (fun s => (Tile.row s, Tile.col s)) tiles).

Definition available (tiles : list Tile.t) : list (Z * Z) :=
  filter (fun rc => rc ∉ occupied tiles) all_cells.

(** The float the literal [0.1] denotes: [3602879701896397 / 2 ** 55]. *)
Definition FLOAT_0_1 : Q := 3602879701896397 # 36028797018963968.

(** The float [random.random()] returns when its 53 random bits are [k]:
    [k / 2 ** 53], for [0 <= k < 2 ** 53]. *)
Definition random_random (k : Z) : Q := k # 9007199254740992.

(** [4 if random.random() < 0.1 else 2], [rnd] being the sample drawn;
    floats compare as the rationals they denote. *)
Definition new_value (rnd : Q) : Z :=
  if Qle_bool FLOAT_0_1 rnd then 2 else 4.

(** [spawn_tile(tiles)].  The two draws from the random source are
    arguments: [choice] is the position [random.choice] draws in
    [available] (taken modulo its length, so that every draw denotes one),
    [rnd] the sample of [random.random()]. *)
Definition spawn_tile (choice : nat) (rnd : Q) (tiles : list Tile.t)
  : list Tile.t * bool :=
  match available tiles with
  | [] => (tiles, false)
  | (rc0 :: _) as av =>
      let rc := nth (choice mod length av)%nat av rc0 in
      (tiles ++ [Tile.init (new_value rnd) (fst rc) (snd rc)], true)
  end.

(** ** [can_move] *)

(** [for t in tiles: grid[t.row][t.col] = t.value] *)
Fixpoint fill_values (tiles : list Tile.t) (g : list (list Z))
  : outcome (list (list Z)) :=
  match tiles with
  | [] => Ret g
  | s :: rest =>
      match grid_set g (Tile.row s) (Tile.col s) (Tile.value s) with
      | Ret g' => fill_values rest g'
      | Raise e => Raise e
      | OutOfFuel => OutOfFuel
      end
  end.

(** [a + 1 < n and grid[r][c] == grid[r'][c']]; [and] evaluates its second
    operand only when the first holds. *)
Definition equal_neighbour (g : list (list Z)) (guard : bool)
    (r c r' c' : Z) : outcome bool :=
  if guard then
    match grid_get g r c with
    | Ret a =>
        match grid_get g r' c' with
        | Ret b => Ret (a =? b)
        | Raise e => Raise e
        | OutOfFuel => OutOfFuel
        end
    | Raise e => Raise e
    | OutOfFuel => OutOfFuel
    end
  else Ret false.

(** The two nested [for] loops of [can_move], with their early returns. *)
Fixpoint scan_pairs (g : list (list Z)) (cells : list (Z * Z)) : outcome bool :=
  match cells with
  | [] => Ret false
  | (r, c) :: rest =>
      match equal_neighbour g (c + 1 <? COLS) r c r (c + 1) with
      | Ret true => Ret true
      | Ret false =>
          match equal_neighbour g (r + 1 <? ROWS) r c (r + 1) c with
          | Ret true => Ret true
          | Ret false => scan_pairs g rest
          | Raise e => Raise e
          | OutOfFuel => OutOfFuel
          end
      | Raise e => Raise e
      | OutOfFuel => OutOfFuel
      end
  end.

Definition can_move (tiles : list Tile.t) : outcome bool :=
  if Z.of_nat (length tiles) <? ROWS * COLS then Ret true
  else
    match fill_values tiles
            (replicate (Z.to_nat ROWS) (replicate (Z.to_nat COLS) 0)) with
    | Ret g => scan_pairs g all_cells
    | Raise e => Raise e
    | OutOfFuel => OutOfFuel
    end.

(** ** One iteration of the control loop of [main] *)

Inductive key : Type := K_LEFT | K_RIGHT | K_UP | K_DOWN | K_OTHER (code : Z).

Inductive event : Type := QUIT | KEYDOWN (k : key) | OTHER_EVENT.

(** The [if]/[elif] chain on [event.key]; [None] is Python's [None]. *)
Definition key_direction (k : key) : option string :=
  match k with
  | K_LEFT => Some "left"%string
  | K_RIGHT => Some "right"%string
  | K_UP => Some "up"%string
  | K_DOWN => Some "down"%string
  | K_OTHER _ => None
  end.

Record Game : Type := mkGame {
  tiles : list Tile.t;
  running : bool;
  animating : bool;
  merge_animation_running : bool
}.

(** The event loop taken while no animation runs. *)
Fixpoint idle_events (evs : list event) (g : Game) : outcome Game :=
  match evs with
  | [] => Ret g
  | QUIT :: _ =>
      Ret (mkGame (tiles g) false (animating g) (merge_animation_running g))
  | KEYDOWN k :: rest =>
      match key_direction k with
      | None => idle_events rest g
      | Some direction =>
          match move (tiles g) direction with
          | (ts, Ret m) =>
              idle_events rest
                (mkGame ts (running g) (if m then true else animating g)
                        (merge_animation_running g))
          | (_, Raise e) => Raise e
          | (_, OutOfFuel) => OutOfFuel
          end
      end
  | OTHER_EVENT :: rest => idle_events rest g
  end.

(** The event loop taken while an animation runs: only [QUIT] counts. *)
Fixpoint quit_events (evs : list event) (g : Game) : Game :=
  match evs with
  | [] => g
  | QUIT :: _ =>
      mkGame (tiles g) false (animating g) (merge_animation_running g)
  | _ :: rest => quit_events rest g
  end.

(** [for tile in tiles: if tile.update_position(): any_moving = True] *)
Definition update_positions (ts : list Tile.t) : list Tile.t * bool :=
  (map (fun s => fst (Tile.update_position s)) ts,
   existsb (fun s => snd (Tile.update_position s)) ts).

(** [tile.row = int(tile.target_y // RECT_HEIGHT)] and the same for [col] *)
Definition resync (ts : list Tile.t) : list Tile.t :=
  map (fun s => Tile.set_col (Tile.target_x s / RECT_WIDTH)
                  (Tile.set_row (Tile.target_y s / RECT_HEIGHT) s)) ts.

(** The countdown loop of the merge phase in [main]. *)
Definition progress_merges (ts : list Tile.t) : list Tile.t :=
  map (fun s => if Tile.merge_anim_counter s >? 0
                then Tile.set_merge_anim_counter (Tile.merge_anim_counter s - 1) s
                else s) ts.

(** Resynchronise, spawn, and test for game over. *)
Definition settle (choice : nat) (rnd : Q) (ts : list Tile.t) (run : bool)
  : outcome (list Tile.t * bool) :=
  let ts' := fst (spawn_tile choice rnd (resync ts)) in
  match can_move ts' with
  | Ret cm => Ret (ts', if cm then run else false)
  | Raise e => Raise e
  | OutOfFuel => OutOfFuel
  end.

(** The [else] branch of the loop body, up to the event loop. *)
Definition animate (choice : nat) (rnd : Q) (g : Game) : outcome Game :=
  let '(ts, any_moving) := update_positions (tiles g) in
  if any_moving then
    Ret (mkGame ts (running g) (animating g) (merge_animation_running g))
  else
    let mar :=
      if merge_animation_running g then true
      else
        match filter (fun s => Tile.merge_anim_counter s > 0) ts with
        | [] => false
        | _ :: _ => true
        end in
    if mar then
      let ts1 := progress_merges ts in
      if forallb (fun s => Tile.merge_anim_counter s =? 0) ts1 then
        match settle choice rnd ts1 (running g) with
        | Ret (ts2, run) => Ret (mkGame ts2 run false false)
        | Raise e => Raise e
        | OutOfFuel => OutOfFuel
        end
      else Ret (mkGame ts1 (running g) (animating g) true)
    else
      match settle choice rnd ts (running g) with
      | Ret (ts2, run) => Ret (mkGame ts2 run false mar)
      | Raise e => Raise e
      | OutOfFuel => OutOfFuel
      end.

(** [draw(WINDOW, tiles)]: every tile is drawn once, in the order of the
    list, up to the first that raises. *)
Fixpoint draw (ts : list Tile.t) : outcome (list Tile.t) :=
  match ts with
  | [] => Ret []
  | s :: rest =>
      match Tile.draw s with
      | Ret s' =>
          match draw rest with
          | Ret rest' => Ret (s' :: rest')
          | Raise e => Raise e
          | OutOfFuel => OutOfFuel
          end
      | Raise e => Raise e
      | OutOfFuel => OutOfFuel
      end
  end.

(** The body of [while running]: [evs] is what [pygame.event.get()]
    returns in this frame, [choice] and [rnd] the draws of a spawn. *)
Definition frame (evs : list event) (choice : nat) (rnd : Q) (g : Game)
  : outcome Game :=
  let step :=
    if negb (animating g) && negb (merge_animation_running g)
    then idle_events evs g
    else
      match animate choice rnd g with
      | Ret g' => Ret (quit_events evs g')
      | Raise e => Raise e
      | OutOfFuel => OutOfFuel
      end in
  match step with
  | Ret g' =>
      match draw (tiles g') with
      | Ret ts =>
          Ret (mkGame ts (running g') (animating g')
                      (merge_animation_running g'))
      | Raise e => Raise e
      | OutOfFuel => OutOfFuel
      end
  | Raise e => Raise e
  | OutOfFuel => OutOfFuel
  end.

(** Grid rows as lists of values, for examples. *)
Definition mk_row (r : Z) (vals : list Z) : list Tile.t :=
  omap (fun cv => if snd cv =? 0 then None
                  else Some (Tile.init (snd cv) r (fst cv)))
       (zip (range COLS) vals).

(** ** Vocabulary of the properties *)

(** The four directions [move] knows. *)
Definition valid_direction (direction : string) : bool :=
  String.eqb direction "left" || String.eqb direction "right"
  || String.eqb direction "up" || String.eqb direction "down".

(** The logical cell of a tile, the pixel position of a cell, and the cell a
    tile's target denotes (as the control loop reads it back). *)
Definition cell (s : Tile.t) : Z * Z := (Tile.row s, Tile.col s).
Definition pixel (rc : Z * Z) : Z * Z := (snd rc * RECT_WIDTH, fst rc * RECT_HEIGHT).
Definition target (s : Tile.t) : Z * Z := (Tile.target_x s, Tile.target_y s).
Definition target_cell (s : Tile.t) : Z * Z :=
  (Tile.target_y s / RECT_HEIGHT, Tile.target_x s / RECT_WIDTH).

Definition inb (rc : Z * Z) : Prop := within (fst rc) (snd rc) = true.

(** Pairwise-distinct in-bounds cells. *)
Definition well_formed (tiles : list Tile.t) : Prop :=
  NoDup (map cell tiles) /\ Forall (fun s => inb (cell s)) tiles.

(** A 4x4 list of lists, its cell [rc] and the update of one cell. *)
Definition grid_shape {A} (g : list (list A)) : Prop :=
  length g = Z.to_nat ROWS
  /\ Forall (fun line => length line = Z.to_nat COLS) g.
Definition gat {A} `{Inhabited A} (g : list (list A)) (rc : Z * Z) : A :=
  (g !!! Z.to_nat (fst rc)) !!! Z.to_nat (snd rc).
Definition gupd {A} `{Inhabited A} (g : list (list A)) (rc : Z * Z) (v : A)
  : list (list A) :=
  <[Z.to_nat (fst rc) := <[Z.to_nat (snd rc) := v]> (g !!! Z.to_nat (fst rc))]> g.

(** ** What [move] leaves alone *)

(** The fields the contract of [move] does not list are unchanged. *)
Definition untouched_as_claimed (s s' : Tile.t) : Prop :=
  Tile.row s' = Tile.row s /\ Tile.col s' = Tile.col s
  /\ Tile.x s' = Tile.x s /\ Tile.y s' = Tile.y s
  /\ Tile.merge_anim_counter s' = Tile.merge_anim_counter s.

(** What the code guarantees: the countdown may also be restarted. *)
Definition untouched (s s' : Tile.t) : Prop :=
  Tile.row s' = Tile.row s /\ Tile.col s' = Tile.col s
  /\ Tile.x s' = Tile.x s /\ Tile.y s' = Tile.y s
  /\ (Tile.merge_anim_counter s' = Tile.merge_anim_counter s
      \/ Tile.merge_anim_counter s' = MERGE_ANIM_DURATION).

(** What the code guarantees, in full: the countdown of a tile is at
    [MERGE_ANIM_DURATION] when the call has merged a tile into it, which the
    flag [merged] records, and as it was otherwise. *)
Definition framed (s s' : Tile.t) : Prop :=
  Tile.row s' = Tile.row s /\ Tile.col s' = Tile.col s
  /\ Tile.x s' = Tile.x s /\ Tile.y s' = Tile.y s
  /\ Tile.merge_anim_counter s'
     = (if Tile.merged s' then MERGE_ANIM_DURATION
        else Tile.merge_anim_counter s).

(** A computation keeps the frame when, from any heap related to [h0], it
    leaves a heap related to [h0], whatever its outcome. *)
Definition keeps {A} (m : M A) : Prop :=
  forall h0 h, Forall2 framed h0 h -> Forall2 framed h0 (fst (m h)).


(** ** Geometry of a move *)

(** The line a cell is on (its row for a horizontal move, its column for a
    vertical one), how many cells separate it from the wall the move goes
    to, and its rank in the order of [traverse]. *)
Definition line (direction : string) (rc : Z * Z) : Z :=
  if String.eqb direction "left" || String.eqb direction "right"
  then fst rc else snd rc.
Definition dist (direction : string) (rc : Z * Z) : Z :=
  if String.eqb direction "left" then snd rc
  else if String.eqb direction "right" then COLS - 1 - snd rc
  else if String.eqb direction "up" then fst rc
  else ROWS - 1 - fst rc.
Definition rank (direction : string) (rc : Z * Z) : Z :=
  4 * line direction rc + dist direction rc.

(** The cell a pair of Python subscripts denotes in a 4x4 grid. *)
Definition norm_cell (rc : Z * Z) : option (Z * Z) :=
  match py_index (Z.to_nat ROWS) (fst rc), py_index (Z.to_nat COLS) (snd rc) with
  | Some a, Some b => Some (Z.of_nat a, Z.of_nat b)
  | _, _ => None
  end.

(** Both grid-filling loops, with the payload written as a parameter. *)
Fixpoint fill_with {A} (f : nat -> Tile.t -> A) (tiles : list Tile.t) (i : nat)
    (g : list (list A)) : outcome (list (list A)) :=
  match tiles with
  | [] => Ret g
  | s :: rest =>
      match grid_set g (Tile.row s) (Tile.col s) (f i s) with
      | Ret g' => fill_with f rest (S i) g'
      | Raise e => Raise e
      | OutOfFuel => OutOfFuel
      end
  end.

(** ** Conservation of values *)

(** [merged_from l l']: the multiset [l'] comes from [l] by replacing, any
    number of times, two equal values [v] by one value [2 * v]. *)
Inductive merged_from : list Z -> list Z -> Prop :=
| merged_from_same l l' : l ≡ₚ l' -> merged_from l l'
| merged_from_pair l v rest l' :
    l ≡ₚ v :: v :: rest -> merged_from (v * 2 :: rest) l' -> merged_from l l'.

Definition sum_values (l : list Z) : Z := fold_right Z.add 0 l.

(** The four writes of a merge, on the heap. *)
Definition merge_writes (tile nt : nat) (h : Heap) : Heap :=
  alter (Tile.set_to_remove true) tile
    (alter Tile.start_merge_animation nt
       (alter (Tile.set_merged true) nt
          (alter (fun s => Tile.set_value (Tile.value s * 2) s) nt h))).

(** ** What one run of the [while] loop does *)

Inductive slide_post (d : string) (i : nat) (h : Heap) (l : Locals)
    (h' : Heap) (l' : Locals) : Prop :=
| slide_rest :
    h' = h ->
    inb (current l') ->
    line d (current l') = line d (current l) ->
    dist d (current l') <= dist d (current l) ->
    (current l' <> current l -> gat (grid l) (current l') = None) ->
    grid_shape (grid l') ->
    (forall c, inb c ->
       gat (grid l') c =
         if decide (c = current l') then Some i
         else if decide (c = current l) then None else gat (grid l) c) ->
    moved l' = (if decide (current l' = current l) then moved l else true) ->
    slide_post d i h l h' l'
| slide_merge (j : nat) (q' : Z * Z) :
    h' = merge_writes i j h ->
    inb (current l') ->
    line d (current l') = line d (current l) ->
    dist d (current l') <= dist d (current l) ->
    (current l' <> current l -> gat (grid l) (current l') = None) ->
    next_pos d (fst (current l')) (snd (current l')) = Some q' ->
    inb q' ->
    gat (grid l) q' = Some j ->
    Tile.value (h !!! j) = Tile.value (h !!! i) ->
    Tile.merged (h !!! i) = false ->
    Tile.merged (h !!! j) = false ->
    grid_shape (grid l') ->
    (forall c, inb c ->
       gat (grid l') c =
         if decide (c = current l' \/ c = current l) then None
         else gat (grid l) c) ->
    moved l' = true ->
    slide_post d i h l h' l'.

(** The values of the tiles that stay in the list, and the numbers of tiles
    flagged for removal and flagged as merged. *)
Definition live_values (h : Heap) : list Z := map Tile.value (purge h).
Definition count_removed (h : Heap) : nat :=
  length (filter (fun s => Tile.to_remove s = true) h).
Definition count_merged (h : Heap) : nat :=
  length (filter (fun s => Tile.merged s = true) h).

(** The composite of the three writes to the tile merged into. *)
Definition absorb (s : Tile.t) : Tile.t :=
  Tile.start_merge_animation
    (Tile.set_merged true (Tile.set_value (Tile.value s * 2) s)).

(** ** The invariant of the traversal loop of [move]

    [h0] and [g0] are the heap and the grid when the loop starts, [rest] the
    cells still to be visited, [h] and [l] the heap and the locals now. *)
Record Inv (d : string) (h0 : Heap) (g0 : Grid) (rest : list (Z * Z))
    (h : Heap) (l : Locals) : Prop := mkInv {
  inv_shape : grid_shape (grid l);
  inv_len : length h = length h0;
  (* the grid refers to tiles of the heap that are not flagged for removal *)
  inv_ref : forall p i, inb p -> gat (grid l) p = Some i ->
      (i < length h)%nat /\ Tile.to_remove (h !!! i) = false;
  (* no tile is in two cells *)
  inv_inj : forall p q i, inb p -> inb q ->
      gat (grid l) p = Some i -> gat (grid l) q = Some i -> p = q;
  (* a tile has its value of the start, or is flagged merged and has twice that *)
  inv_value : forall i, (i < length h)%nat ->
      (Tile.merged (h !!! i) = false
       /\ Tile.value (h !!! i) = Tile.value (h0 !!! i))
      \/ (Tile.merged (h !!! i) = true
          /\ Tile.value (h !!! i) = Tile.value (h0 !!! i) * 2
          /\ Tile.to_remove (h !!! i) = false
          /\ Tile.merge_anim_counter (h !!! i) = MERGE_ANIM_DURATION);
  inv_mass : merged_from (map Tile.value h0) (live_values h);
  inv_count : count_removed h = count_merged h;
  (* a tile in a visited cell has that cell as its target *)
  inv_target : forall p i, inb p -> gat (grid l) p = Some i -> p ∉ rest ->
      target (h !!! i) = pixel p;
  (* a removed tile stopped one step short of the tile it merged into *)
  inv_removed : forall i, (i < length h)%nat ->
      Tile.to_remove (h !!! i) = true ->
      exists q q' j,
        inb q /\ next_pos d (fst q) (snd q) = Some q' /\ inb q'
        /\ target (h !!! i) = pixel q
        /\ gat (grid l) q' = Some j /\ Tile.merged (h !!! j) = true
        /\ (q' ∉ rest)
        /\ Tile.value (h0 !!! i) = Tile.value (h0 !!! j);
  (* a tile that was in the grid and is not removed is still in it *)
  inv_alive : forall i, (i < length h)%nat ->
      Tile.to_remove (h !!! i) = false ->
      (exists p0, inb p0 /\ gat g0 p0 = Some i) ->
      exists p, inb p /\ gat (grid l) p = Some i;
  (* as long as [moved] is false nothing but targets has changed *)
  inv_still : moved l = false ->
      (forall p, inb p -> gat (grid l) p = gat g0 p)
      /\ (forall i, (i < length h)%nat ->
            Tile.value (h !!! i) = Tile.value (h0 !!! i)
            /\ Tile.to_remove (h !!! i) = false);
  (* once [moved] is true a tile is removed or a free cell got occupied *)
  inv_moved : moved l = true ->
      (exists i, (i < length h)%nat /\ Tile.to_remove (h !!! i) = true)
      \/ (exists p, inb p /\ gat g0 p = None
                    /\ is_Some (gat (grid l) p) /\ p ∉ rest)
}.

(** The two writes to the target of a tile, in one. *)
Definition aim (q : Z * Z) (s : Tile.t) : Tile.t :=
  Tile.set_target_y (fst q * RECT_HEIGHT)
    (Tile.set_target_x (snd q * RECT_WIDTH) s).

(** ** Boards *)

(** The value shown in cell [p] when every tile of [ts] sits in the cell
    [key] gives it: [cell] reads the logical position, [target_cell] the
    position the targets denote. *)
Fixpoint value_at (key : Tile.t -> Z * Z) (ts : list Tile.t) (p : Z * Z)
  : option Z :=
  match ts with
  | [] => None
  | s :: rest =>
      if decide (key s = p) then Some (Tile.value s) else value_at key rest p
  end.

(** A game with one tile of value 4 at rest in its cell, animating, its
    merge countdown at [c]. With [c = 7] and the merge phase not yet entered
    it is the game after the left arrow was pressed on the row [2 2 _ _] and
    the frame was drawn. *)
Definition merging_game (c : Z) (merge_phase : bool) : Game :=
  mkGame [Tile.mk 4 0 0 0 0 0 0 true false c] true true merge_phase.

(** ** Vocabulary of the spawn and game-over policy *)

(** Two cells next to each other in a row or in a column. *)
Definition adjacent (p q : Z * Z) : Prop :=
  Z.abs (fst p - fst q) + Z.abs (snd p - snd q) = 1.

(** A cell of the board no tile is in. *)
Definition free_cell (ts : list Tile.t) (p : Z * Z) : Prop :=
  inb p /\ p ∉ map cell ts.

(** Every cell of the board holds a tile. *)
Definition board_full (ts : list Tile.t) : Prop :=
  forall p, inb p -> p ∈ map cell ts.

(** Two adjacent cells show the same value. *)
Definition equal_neighbours (ts : list Tile.t) : Prop :=
  exists p q v, inb p /\ inb q /\ adjacent p q
                /\ value_at cell ts p = Some v /\ value_at cell ts q = Some v.

(** What two decrements guarded by [> 0] make of a countdown. *)
Definition twice_down (c : Z) : Z :=
  if c >? 0 then (if c - 1 >? 0 then c - 2 else c - 1) else c.

(** ** The start of [main] and its loop *)

(** [tiles = []; spawn_tile(tiles); spawn_tile(tiles)] and the three flags,
    the draws of the two spawns being arguments. *)
Definition initial_game (choice1 : nat) (rnd1 : Q) (choice2 : nat) (rnd2 : Q)
  : Game :=
  mkGame (fst (spawn_tile choice2 rnd2 (fst (spawn_tile choice1 rnd1 []))))
         true false false.

(** [while running: ...], for as many iterations as inputs are given: an
    input is the events of the frame and the draws of its spawn. *)
Fixpoint main_loop (inputs : list (list event * nat * Q)) (g : Game)
  : outcome Game :=
  match inputs with
  | [] => Ret g
  | (evs, choice, rnd) :: rest =>
      if running g then
        match frame evs choice rnd g with
        | Ret g' => main_loop rest g'
        | Raise e => Raise e
        | OutOfFuel => OutOfFuel
        end
      else Ret g
  end.

(** ** Vocabulary of the further properties *)

(** A value of the game: a power of two, 2 at least. *)
Definition value_ok (v : Z) : Prop := exists k : nat, v = 2 ^ Z.of_nat (S k).

(** [row] and [col] are subscripts Python accepts for a list of 4. *)
Definition subscriptable (s : Tile.t) : Prop :=
  - ROWS <= Tile.row s < ROWS /\ - COLS <= Tile.col s < COLS.

(** The targets of the tiles denote pairwise-distinct cells of the board. *)
Definition targets_ok (ts : list Tile.t) : Prop :=
  NoDup (map target_cell ts) /\ Forall (fun s => inb (target_cell s)) ts.

(** No animation is on: the loop accepts input. *)
Definition idle (g : Game) : bool :=
  negb (animating g) && negb (merge_animation_running g).

(** A tile [Tile.draw] draws without raising: countdown and pixel position
    convert to floats, the value has a logarithm and at most
    [INT_MAX_STR_DIGITS] digits. *)
Definition drawable (s : Tile.t) : Prop :=
  Tile.merge_anim_counter s < MERGE_ANIM_DURATION * FLOAT_LIMIT
  /\ Z.abs (Tile.x s) < FLOAT_LIMIT /\ Z.abs (Tile.y s) < FLOAT_LIMIT
  /\ 0 < Tile.value s < 10 ^ INT_MAX_STR_DIGITS.

(** The tile a call of [Tile.draw] that returns leaves. *)
Definition drawn (s : Tile.t) : Tile.t :=
  if Tile.merge_anim_counter s >? 0
  then Tile.set_merge_anim_counter (Tile.merge_anim_counter s - 1) s
  else s.

(** A tile on the window, on its way to a target on the window, with a
    countdown between 0 and [MERGE_ANIM_DURATION]. *)
Definition on_screen (s : Tile.t) : Prop :=
  0 <= Tile.x s < WIDTH /\ 0 <= Tile.y s < HEIGHT
  /\ 0 <= Tile.target_x s < WIDTH /\ 0 <= Tile.target_y s < HEIGHT
  /\ 0 <= Tile.merge_anim_counter s <= MERGE_ANIM_DURATION.

(** Values a board of 16 cells fed with 2s and 4s can hold: there are at
    most 16 of them and, for [k] from 3 to 18, at most [18 - k] of them
    reach [2 ^ k]; so none reaches [2 ^ 18]. *)
Definition fits_board (vs : list Z) : Prop :=
  (length vs <= 16)%nat
  /\ forall k : nat, (3 <= k <= 18)%nat ->
       (length (filter (fun v => (2 ^ Z.of_nat k <= v)%Z) vs) + k <= 18)%nat.

(** The tiles of a sound game: their values are powers of two that fit the
    board, and they are on the window. *)
Definition sound (ts : list Tile.t) : Prop :=
  Forall (fun s => value_ok (Tile.value s)) ts
  /\ Forall on_screen ts
  /\ fits_board (map Tile.value ts).

(** What the control loop keeps: values are powers of two that fit the
    board, tiles are on the window; while the game is idle the logical
    cells are pairwise distinct and on the board, while an animation is on
    the target cells are. *)
Definition game_ok (g : Game) : Prop :=
  sound (tiles g)
  /\ if idle g then well_formed (tiles g) else targets_ok (tiles g).

(** [n] calls of [update_position], and of [draw], on one tile. *)
Definition update_position_n (n : nat) (s : Tile.t) : Tile.t :=
  Nat.iter n (fun s => fst (Tile.update_position s)) s.
Fixpoint draw_n (n : nat) (s : Tile.t) : outcome Tile.t :=
  match n with
  | O => Ret s
  | S n' =>
      match Tile.draw s with
      | Ret s' => draw_n n' s'
      | Raise e => Raise e
      | OutOfFuel => OutOfFuel
      end
  end.

(** Two tiles that differ in their flags [merged] and [to_remove] at most. *)
Definition same_but_flags (s s' : Tile.t) : Prop :=
  Tile.set_to_remove false (Tile.set_merged false s)
  = Tile.set_to_remove false (Tile.set_merged false s').

(** Every occupied cell outside [rest] has its next cell, when that is on
    the board, occupied too; and the cells outside [rest] come before those
    of [rest] in the traversal. *)
Definition packed (d : string) (rest : list (Z * Z))
    (g : list (list (option nat))) : Prop :=
  (forall c c', inb c -> c ∉ rest -> is_Some (gat g c) ->
     next_pos d (fst c) (snd c) = Some c' -> inb c' -> is_Some (gat g c'))
  /\ (forall c x, inb c -> c ∉ rest -> x ∈ rest -> rank d c < rank d x).

#[global] Instance key_eq_dec : EqDecision key.
Proof. solve_decision. Defined.
#[global] Instance event_eq_dec : EqDecision event.
Proof. solve_decision. Defined.

(** The test of [move] for a merge of tile [i] into tile [j]. *)
Definition mergeable (h : list Tile.t) (i j : nat) : bool :=
  (Tile.value (h !!! j) =? Tile.value (h !!! i))
  && negb (Tile.merged (h !!! i)) && negb (Tile.merged (h !!! j)).
(** * Properties *)

(** ** Subscripts and grids *)

Lemma py_index_nonneg (len : nat) (i : Z) :
  0 <= i < Z.of_nat len -> py_index len i = Some (Z.to_nat i).
Proof.
  intros Hi. unfold py_index.
  destruct (Z.leb_spec 0 i); [|lia].
  destruct (Z.ltb_spec i (Z.of_nat len)); [reflexivity|lia].
Qed.

Lemma py_index_lt (len : nat) (i : Z) (n : nat) :
  py_index len i = Some n -> (n < len)%nat.
Proof.
  unfold py_index.
  destruct (Z.leb_spec 0 i), (Z.ltb_spec i (Z.of_nat len)),
    (Z.leb_spec (- Z.of_nat len) i), (Z.ltb_spec i 0); simpl;
    try discriminate; intros [= <-]; lia.
Qed.

Lemma inb_bounds (rc : Z * Z) :
  inb rc <-> (0 <= fst rc < ROWS /\ 0 <= snd rc < COLS).
Proof.
  unfold inb, within. rewrite !andb_true_iff, !Z.leb_le, !Z.ltb_lt. lia.
Qed.

Section GridLemmas.
Context {A : Type} `{Inhabited A}.
Implicit Types (g : list (list A)) (rc : Z * Z).

Lemma grid_shape_line g (n : nat) :
  grid_shape g -> (n < Z.to_nat ROWS)%nat ->
  g !! n = Some (g !!! n) /\ length (g !!! n) = Z.to_nat COLS.
Proof.
  intros [Hlen Hall] Hn.
  assert (Hl : g !! n = Some (g !!! n))
    by (apply list_lookup_lookup_total_lt; lia).
  split; [exact Hl|].
  rewrite Forall_forall in Hall. apply Hall.
  eapply list_elem_of_lookup_2; exact Hl.
Qed.

Lemma grid_get_inb g rc :
  grid_shape g -> inb rc -> grid_get g (fst rc) (snd rc) = Ret (gat g rc).
Proof.
  intros Hs Hin. apply inb_bounds in Hin as [Hr Hc].
  destruct (grid_shape_line g (Z.to_nat (fst rc)) Hs) as [Hl Hlen];
    [unfold ROWS in *; lia|].
  unfold grid_get, subscript.
  rewrite py_index_nonneg by (destruct Hs as [-> _]; unfold ROWS in *; lia).
  rewrite Hl, py_index_nonneg by (rewrite Hlen; unfold COLS in *; lia).
  unfold gat.
  rewrite (list_lookup_lookup_total_lt (g !!! Z.to_nat (fst rc)))
    by (rewrite Hlen; unfold COLS in *; lia).
  reflexivity.
Qed.

Lemma grid_set_inb g rc (v : A) :
  grid_shape g -> inb rc ->
  grid_set g (fst rc) (snd rc) v = Ret (gupd g rc v).
Proof.
  intros Hs Hin. apply inb_bounds in Hin as [Hr Hc].
  destruct (grid_shape_line g (Z.to_nat (fst rc)) Hs) as [Hl Hlen];
    [unfold ROWS in *; lia|].
  unfold grid_set, subscript, assign.
  rewrite py_index_nonneg by (destruct Hs as [-> _]; unfold ROWS in *; lia).
  rewrite Hl, py_index_nonneg by (rewrite Hlen; unfold COLS in *; lia).
  reflexivity.
Qed.

Lemma gupd_shape g rc (v : A) :
  grid_shape g -> inb rc -> grid_shape (gupd g rc v).
Proof.
  intros Hs Hin. pose proof Hs as [Hlen Hall].
  apply inb_bounds in Hin as [Hr Hc].
  destruct (grid_shape_line g (Z.to_nat (fst rc)) Hs) as [Hl Hll];
    [unfold ROWS in *; lia|].
  split; unfold gupd.
  - rewrite length_insert. exact Hlen.
  - apply Forall_insert; [exact Hall|]. rewrite length_insert. exact Hll.
Qed.

Lemma gat_gupd g rc rc' (v : A) :
  grid_shape g -> inb rc -> inb rc' ->
  gat (gupd g rc v) rc' = if decide (rc = rc') then v else gat g rc'.
Proof.
  intros Hs Hin Hin'. pose proof Hs as [Hlen Hall].
  apply inb_bounds in Hin as [Hr Hc]. apply inb_bounds in Hin' as [Hr' Hc'].
  destruct (grid_shape_line g (Z.to_nat (fst rc)) Hs) as [Hl Hll];
    [unfold ROWS in *; lia|].
  unfold gat, gupd. destruct rc as [r c], rc' as [r' c']; simpl in *.
  destruct (decide (Z.to_nat r = Z.to_nat r')) as [Er|Er].
  - rewrite <- Er. rewrite list_lookup_total_insert_eq by (unfold ROWS in *; lia).
    destruct (decide (Z.to_nat c = Z.to_nat c')) as [Ec|Ec].
    + rewrite <- Ec, list_lookup_total_insert_eq by (unfold COLS in *; lia).
      rewrite decide_True; [reflexivity|]. f_equal; lia.
    + rewrite list_lookup_total_insert_ne by exact Ec.
      rewrite decide_False; [reflexivity|]. intros [= -> ->]. lia.
  - rewrite list_lookup_total_insert_ne by exact Er.
    rewrite decide_False; [reflexivity|]. intros [= -> ->]. lia.
Qed.

End GridLemmas.

Lemma keeps_ret {A} (a : A) : keeps (ret a).
Proof. intros h0 h Hh. exact Hh. Qed.

Lemma keeps_lift {A} (o : outcome A) : keeps (lift o).
Proof. intros h0 h Hh. exact Hh. Qed.

Lemma keeps_read (i : nat) : keeps (read i).
Proof. intros h0 h Hh. exact Hh. Qed.

Lemma keeps_write (i : nat) (f : Tile.t -> Tile.t) :
  (forall s s', framed s s' -> framed s (f s')) -> keeps (write i f).
Proof.
  intros Hf h0 h Hh. simpl. apply Forall2_alter_r; [exact Hh|].
  intros x y _ _ Hxy. apply Hf, Hxy.
Qed.

Lemma keeps_bind {A B} (m : M A) (f : A -> M B) :
  keeps m -> (forall a, keeps (f a)) -> keeps (bind m f).
Proof.
  intros Hm Hf h0 h Hh. unfold bind.
  specialize (Hm h0 h Hh). destruct (m h) as [h1 [a|e|]]; simpl in *.
  - apply Hf, Hm.
  - exact Hm.
  - exact Hm.
Qed.

Ltac keeps_write_tac :=
  apply keeps_write; intros s s' (? & ? & ? & ? & ?);
  unfold framed; repeat split; simpl; auto.

(** The three writes to the tile merged into, taken together: the flag is
    set and the countdown restarted. *)
Lemma keeps_absorb {A} (nt : nat) (k : M A) :
  keeps k ->
  keeps (bind (write nt (fun s => Tile.set_value (Tile.value s * 2) s))
           (fun _ => bind (write nt (Tile.set_merged true))
              (fun _ => bind (write nt Tile.start_merge_animation)
                 (fun _ => k)))).
Proof.
  intros Hk h0 h Hh. unfold bind, write. cbv beta iota. apply Hk.
  rewrite !list_alter_alter_eq. apply Forall2_alter_r; [exact Hh|].
  intros s s' _ _ (? & ? & ? & ? & ?). unfold framed. repeat split; auto.
Qed.

Lemma keeps_slide (fuel : nat) (direction : string) (tile : nat) (l : Locals) :
  keeps (slide fuel direction tile l).
Proof.
  revert l. induction fuel as [|fuel IH]; intros l; simpl.
  - apply keeps_lift.
  - destruct (next_pos direction _ _) as [[nr nc]|]; [|apply keeps_lift].
    destruct (negb (within nr nc)); [apply keeps_ret|].
    apply keeps_bind; [apply keeps_lift|]. intros [nt|].
    + apply keeps_bind; [apply keeps_read|]. intros next_obj.
      apply keeps_bind; [apply keeps_read|]. intros tile_obj.
      destruct (_ && _); [|apply keeps_ret].
      apply keeps_absorb.
      apply keeps_bind; [keeps_write_tac|]. intros _.
      apply keeps_bind; [apply keeps_lift|]. intros g1. apply keeps_ret.
    + apply keeps_bind; [apply keeps_lift|]. intros g1.
      apply keeps_bind; [apply keeps_lift|]. intros g2. apply IH.
Qed.

Lemma keeps_visit (direction : string) (rc : Z * Z) (l : Locals) :
  keeps (visit direction rc l).
Proof.
  unfold visit. apply keeps_bind; [apply keeps_lift|].
  intros [i|]; [|apply keeps_ret].
  apply keeps_bind; [apply keeps_slide|]. intros l'.
  repeat (apply keeps_bind; [keeps_write_tac|]; intros _).
  apply keeps_ret.
Qed.

Lemma keeps_for_cells (direction : string) (cells : list (Z * Z)) (l : Locals) :
  keeps (for_cells direction cells l).
Proof.
  revert l. induction cells as [|rc rest IH]; intros l; simpl.
  - apply keeps_ret.
  - apply keeps_bind; [apply keeps_visit|]. exact IH.
Qed.

Lemma framed_reset (tiles : list Tile.t) :
  Forall2 framed tiles (reset_merged_flags tiles).
Proof.
  unfold reset_merged_flags. apply Forall2_fmap_r, Forall_Forall2_diag.
  apply Forall_forall. intros s _. unfold framed. repeat split; simpl; auto.
Qed.

Lemma move_loop_framed (direction : string) (tiles : list Tile.t) :
  Forall2 framed tiles (fst (move_loop direction tiles)).
Proof.
  pose proof (framed_reset tiles) as Hr.
  unfold move_loop, bind, lift, raise. simpl.
  destruct (build_grid _ _ _) as [g|e|]; simpl; try exact Hr.
  destruct (traverse direction) as [cells|]; simpl; try exact Hr.
  pose proof (keeps_for_cells direction cells (mkLocals g (0, 0) false)
                _ _ Hr) as Hk.
  destruct (for_cells _ _ _ _) as [h' [l'|e|]]; simpl in *; exact Hk.
Qed.

Lemma framed_untouched (s s' : Tile.t) : framed s s' -> untouched s s'.
Proof.
  intros (? & ? & ? & ? & Hc). unfold untouched. repeat split; auto.
  destruct (Tile.merged s'); auto.
Qed.

Lemma move_loop_untouched (direction : string) (tiles : list Tile.t) :
  Forall2 untouched tiles (fst (move_loop direction tiles)).
Proof.
  eapply Forall2_impl; [apply move_loop_framed|]. apply framed_untouched.
Qed.

(** ** Directions and traversal order *)

Lemma valid_direction_cases (d : string) :
  valid_direction d = true ->
  d = "left"%string \/ d = "right"%string \/ d = "up"%string \/ d = "down"%string.
Proof.
  unfold valid_direction. rewrite !orb_true_iff, !String.eqb_eq. tauto.
Qed.

Lemma invalid_direction_traverse (d : string) :
  valid_direction d = false -> traverse d = None.
Proof.
  unfold valid_direction, traverse. rewrite !orb_false_iff.
  intros [[[-> ->] ->] ->]. reflexivity.
Qed.

Ltac four_directions Hd :=
  apply valid_direction_cases in Hd;
  destruct Hd as [-> | [-> | [-> | ->]]].

Lemma inb_all_cells (p : Z * Z) : inb p <-> p ∈ all_cells.
Proof.
  split.
  - intros Hp. apply inb_bounds in Hp. destruct p as [r c]. simpl in Hp.
    unfold ROWS, COLS in Hp.
    assert (Hr : r = 0 \/ r = 1 \/ r = 2 \/ r = 3) by lia.
    assert (Hc : c = 0 \/ c = 1 \/ c = 2 \/ c = 3) by lia.
    destruct Hr as [-> | [-> | [-> | ->]]], Hc as [-> | [-> | [-> | ->]]];
      (let l := eval vm_compute in all_cells in change all_cells with l);
      repeat constructor.
  - intros Hp.
    let l := eval vm_compute in all_cells in change all_cells with l in Hp.
    repeat match goal with
           | H : _ ∈ _ :: _ |- _ => apply elem_of_cons in H as [-> | H]
           | H : _ ∈ [] |- _ => apply elem_of_nil in H; contradiction
           end; reflexivity.
Qed.

Lemma traverse_valid (d : string) :
  valid_direction d = true ->
  exists cells,
    traverse d = Some cells
    /\ (forall p, p ∈ cells <-> inb p)
    /\ StronglySorted (fun a b => rank d a < rank d b) cells.
Proof.
  intros Hd.
  four_directions Hd;
    (eexists; split; [vm_compute; reflexivity|]; split;
     [ intros p; rewrite inb_all_cells;
       (let l := eval vm_compute in all_cells in change all_cells with l);
       split; intros Hp;
       repeat match goal with
              | H : _ ∈ _ :: _ |- _ => apply elem_of_cons in H as [-> | H]
              | H : _ ∈ [] |- _ => apply elem_of_nil in H; contradiction
              end; repeat constructor
     | repeat (apply SSorted_cons; [|repeat constructor]); apply SSorted_nil ]).
Qed.

Lemma next_pos_geom (d : string) (rc : Z * Z) :
  valid_direction d = true ->
  exists q, next_pos d (fst rc) (snd rc) = Some q
            /\ line d q = line d rc /\ dist d q = dist d rc - 1.
Proof.
  intros Hd. destruct rc as [r c].
  four_directions Hd; eexists; (split; [reflexivity|]);
    unfold line, dist, ROWS, COLS; simpl; lia.
Qed.

Lemma dist_bounds (d : string) (rc : Z * Z) :
  valid_direction d = true -> inb rc -> 0 <= dist d rc <= 3.
Proof.
  intros Hd Hin. apply inb_bounds in Hin. destruct rc as [r c].
  unfold ROWS, COLS in Hin. simpl in Hin.
  four_directions Hd; unfold dist, ROWS, COLS; simpl; lia.
Qed.


(** ** The [while] loop terminates and does one of two things *)

Lemma slide_post_stay (d : string) (i : nat) (h : Heap) (l : Locals) :
  grid_shape (grid l) -> inb (current l) ->
  gat (grid l) (current l) = Some i ->
  slide_post d i h l h l.
Proof.
  intros Hs Hin Hi. apply slide_rest; try reflexivity; try assumption.
  - congruence.
  - intros c Hc. repeat case_decide; subst; congruence.
  - rewrite decide_True; reflexivity.
Qed.

Lemma slide_spec (fuel : nat) (d : string) (i : nat) (l : Locals) (h : Heap) :
  valid_direction d = true ->
  grid_shape (grid l) -> inb (current l) ->
  gat (grid l) (current l) = Some i ->
  (Z.to_nat (dist d (current l)) < fuel)%nat ->
  exists h' l', slide fuel d i l h = (h', Ret l') /\ slide_post d i h l h' l'.
Proof.
  intros Hd. revert l. induction fuel as [|fuel IH]; intros l Hs Hin Hi Hfuel;
    [lia|].
  simpl.
  destruct (next_pos_geom d (current l) Hd) as ([nr nc] & Hn & Hline & Hdist).
  rewrite Hn.
  destruct (within nr nc) eqn:Hw; simpl;
    [|exists h, l; split; [reflexivity|]; apply slide_post_stay; assumption].
  assert (Hq : inb (nr, nc)) by exact Hw.
  pose proof (dist_bounds d _ Hd Hq) as Hdq.
  pose proof (dist_bounds d _ Hd Hin) as Hdc.
  assert (Hne : (nr, nc) <> current l) by (intros E; rewrite E in Hdist; lia).
  pose proof (grid_get_inb (grid l) (nr, nc) Hs Hq) as Hg. simpl in Hg.
  unfold bind at 1. unfold lift at 1. rewrite Hg.
  destruct (gat (grid l) (nr, nc)) as [nt|] eqn:Hnt.
  - (* an occupied cell ahead *)
    unfold bind, read, write, lift, ret. simpl.
    destruct (_ && _) eqn:Hcond; simpl.
    + pose proof (grid_set_inb (grid l) (current l) None Hs Hin) as Hset.
      rewrite Hset. eexists _, _. split; [reflexivity|].
      apply andb_true_iff in Hcond as [Hcond Hm2].
      apply andb_true_iff in Hcond as [Hv Hm1].
      apply Z.eqb_eq in Hv. apply negb_true_iff in Hm1, Hm2.
      eapply (slide_merge d i h l _ _ nt (nr, nc)); simpl;
        try assumption; try reflexivity; try congruence.
      * apply gupd_shape; assumption.
      * intros c Hc. rewrite gat_gupd by assumption.
        repeat case_decide; try reflexivity; intuition congruence.
    + exists h, l. split; [reflexivity|]. apply slide_post_stay; assumption.
  - (* an empty cell ahead: step into it *)
    pose proof (grid_set_inb (grid l) (nr, nc) (Some i) Hs Hq) as Hset1.
    simpl in Hset1. unfold bind at 1. unfold lift at 1. rewrite Hset1.
    assert (Hs1 : grid_shape (gupd (grid l) (nr, nc) (Some i)))
      by (apply gupd_shape; assumption).
    pose proof (grid_set_inb _ (current l) None Hs1 Hin) as Hset2.
    unfold bind at 1. unfold lift at 1. rewrite Hset2.
    set (g2 := gupd (gupd (grid l) (nr, nc) (Some i)) (current l) None).
    assert (Hs2 : grid_shape g2) by (apply gupd_shape; assumption).
    assert (Hg2 : forall c, inb c ->
              gat g2 c = if decide (current l = c) then None
                         else if decide ((nr, nc) = c) then Some i
                              else gat (grid l) c).
    { intros c Hc. unfold g2. rewrite !gat_gupd by assumption. reflexivity. }
    destruct (IH (mkLocals g2 (nr, nc) true)) as (h' & l' & Hrun & Hpost);
      simpl; try assumption.
    { rewrite Hg2 by assumption. rewrite decide_False by congruence.
      rewrite decide_True; reflexivity. }
    { lia. }
    exists h', l'. split; [exact Hrun|].
    destruct Hpost as [Hh Hin' Hl' Hd' Hemp Hs' Hgat Hmv
                      |j q' Hh Hin' Hl' Hd' Hemp Hnx Hinq' Hj Hv Hm1 Hm2 Hs' Hgat Hmv];
      simpl in *.
    + assert (Hne' : current l' <> current l)
        by (intros E; rewrite E in Hd'; lia).
      apply slide_rest; try assumption.
      * congruence.
      * lia.
      * intros _. destruct (decide (current l' = (nr, nc))) as [->|Hne2];
          [exact Hnt|].
        specialize (Hemp Hne2). rewrite Hg2 in Hemp by assumption.
        repeat case_decide; subst; congruence.
      * intros c Hc. rewrite Hgat, Hg2 by assumption.
        repeat case_decide; subst; congruence.
      * rewrite decide_False by assumption.
        rewrite Hmv. case_decide; reflexivity.
    + assert (Hne' : current l' <> current l)
        by (intros E; rewrite E in Hd'; lia).
      destruct (next_pos_geom d (current l') Hd) as (q2 & Hn2 & Hline2 & Hdist2).
      rewrite Hn2 in Hnx. injection Hnx as ->.
      assert (Hq1 : q' <> (nr, nc)) by (intros E; rewrite E in Hdist2; lia).
      assert (Hq2 : q' <> current l).
      { intros E; rewrite E in Hdist2; lia. }
      eapply (slide_merge d i h l h' l' j q'); try assumption.
      * congruence.
      * lia.
      * intros _. destruct (decide (current l' = (nr, nc))) as [->|Hne2];
          [exact Hnt|].
        specialize (Hemp Hne2). rewrite Hg2 in Hemp by assumption.
        repeat case_decide; subst; congruence.
      * rewrite Hg2 in Hj by assumption.
        repeat case_decide; subst; congruence.
      * intros c Hc. rewrite Hgat, Hg2 by assumption.
        repeat case_decide; subst; try congruence; intuition congruence.
Qed.

(** ** Heaps up to permutation *)

Lemma one_alter_perm {A} (h : list A) (i : nat) (a : A) :
  h !! i = Some a ->
  exists D, h ≡ₚ a :: D /\ forall f, alter f i h ≡ₚ f a :: D.
Proof.
  revert i. induction h as [|b h IH]; intros [|i] Hi; simpl in Hi;
    try discriminate.
  - injection Hi as ->. exists h. split; [reflexivity|]. intros f. reflexivity.
  - destruct (IH i Hi) as (D & HD & Halt). exists (b :: D). split.
    + rewrite HD. apply perm_swap.
    + intros f. change (alter f (S i) (b :: h)) with (b :: alter f i h).
      rewrite Halt. apply perm_swap.
Qed.

Lemma two_alter_perm {A} (h : list A) (i j : nat) (a b : A) :
  i <> j -> h !! i = Some a -> h !! j = Some b ->
  exists D, h ≡ₚ a :: b :: D
            /\ forall f g, alter f i (alter g j h) ≡ₚ f a :: g b :: D.
Proof.
  revert i j. induction h as [|c h IH]; intros [|i] [|j] Hne Hi Hj;
    simpl in Hi, Hj; try discriminate; try congruence.
  - injection Hi as ->. destruct (one_alter_perm h j b Hj) as (D & HD & Halt).
    exists D. split; [rewrite HD; reflexivity|]. intros f g.
    change (alter f 0%nat (alter g (S j) (a :: h))) with (f a :: alter g j h).
    rewrite Halt. reflexivity.
  - injection Hj as ->. destruct (one_alter_perm h i a Hi) as (D & HD & Halt).
    exists D. split; [rewrite HD; apply perm_swap|]. intros f g.
    change (alter f (S i) (alter g 0%nat (b :: h))) with (g b :: alter f i h).
    rewrite Halt. apply perm_swap.
  - destruct (IH i j) as (D & HD & Halt); [congruence|assumption|assumption|].
    exists (c :: D). split.
    + rewrite HD. etransitivity; [apply perm_swap|].
      apply perm_skip, perm_swap.
    + intros f g.
      change (alter f (S i) (alter g (S j) (c :: h)))
        with (c :: alter f i (alter g j h)).
      rewrite Halt. etransitivity; [apply perm_swap|].
      apply perm_skip, perm_swap.
Qed.

Lemma merge_writes_alter (i j : nat) (h : Heap) :
  merge_writes i j h = alter (Tile.set_to_remove true) i (alter absorb j h).
Proof.
  unfold merge_writes. rewrite !list_alter_alter_eq. reflexivity.
Qed.

Lemma live_values_perm (h h' : Heap) :
  h ≡ₚ h' -> live_values h ≡ₚ live_values h'.
Proof. intros E. unfold live_values, purge. rewrite E. reflexivity. Qed.

Lemma count_removed_perm (h h' : Heap) :
  h ≡ₚ h' -> count_removed h = count_removed h'.
Proof. intros E. unfold count_removed. rewrite E. reflexivity. Qed.

Lemma count_merged_perm (h h' : Heap) :
  h ≡ₚ h' -> count_merged h = count_merged h'.
Proof. intros E. unfold count_merged. rewrite E. reflexivity. Qed.

Lemma live_values_cons (s : Tile.t) (h : Heap) :
  live_values (s :: h)
  = if Tile.to_remove s then live_values h else Tile.value s :: live_values h.
Proof.
  unfold live_values, purge. rewrite filter_cons.
  destruct (Tile.to_remove s); case_decide; try congruence; reflexivity.
Qed.

Lemma count_removed_cons (s : Tile.t) (h : Heap) :
  count_removed (s :: h)
  = if Tile.to_remove s then S (count_removed h) else count_removed h.
Proof.
  unfold count_removed. rewrite filter_cons.
  destruct (Tile.to_remove s); case_decide; try congruence; reflexivity.
Qed.

Lemma count_merged_cons (s : Tile.t) (h : Heap) :
  count_merged (s :: h)
  = if Tile.merged s then S (count_merged h) else count_merged h.
Proof.
  unfold count_merged. rewrite filter_cons.
  destruct (Tile.merged s); case_decide; try congruence; reflexivity.
Qed.

(** A write that leaves value and flags alone changes none of the three. *)
Lemma quiet_write (f : Tile.t -> Tile.t) (i : nat) (h : Heap) :
  (forall s, Tile.value (f s) = Tile.value s
             /\ Tile.to_remove (f s) = Tile.to_remove s
             /\ Tile.merged (f s) = Tile.merged s) ->
  live_values (alter f i h) ≡ₚ live_values h
  /\ count_removed (alter f i h) = count_removed h
  /\ count_merged (alter f i h) = count_merged h.
Proof.
  intros Hf. destruct (h !! i) as [s|] eqn:Hi.
  - destruct (one_alter_perm h i s Hi) as (D & HD & Halt).
    specialize (Halt f). destruct (Hf s) as (Hv & Hr & Hm).
    rewrite (live_values_perm _ _ Halt), (live_values_perm _ _ HD).
    rewrite (count_removed_perm _ _ Halt), (count_removed_perm _ _ HD).
    rewrite (count_merged_perm _ _ Halt), (count_merged_perm _ _ HD).
    rewrite !live_values_cons, !count_removed_cons, !count_merged_cons.
    rewrite Hv, Hr, Hm. auto.
  - assert (E : alter f i h = h).
    { apply list_eq. intros k. rewrite list_lookup_alter.
      case_decide; subst; [rewrite Hi|]; reflexivity. }
    rewrite E. auto.
Qed.

(** The writes of a merge replace two live equal values by their double and
    flag one more tile as removed and one more as merged. *)
Lemma merge_write (i j : nat) (h : Heap) (a b : Tile.t) :
  i <> j -> h !! i = Some a -> h !! j = Some b ->
  Tile.to_remove a = false -> Tile.to_remove b = false ->
  Tile.merged a = false -> Tile.merged b = false ->
  Tile.value b = Tile.value a ->
  (exists rest,
     live_values h ≡ₚ Tile.value a :: Tile.value a :: rest
     /\ live_values (merge_writes i j h) ≡ₚ Tile.value a * 2 :: rest)
  /\ count_removed (merge_writes i j h) = S (count_removed h)
  /\ count_merged (merge_writes i j h) = S (count_merged h).
Proof.
  intros Hne Hi Hj Hra Hrb Hma Hmb Hv.
  destruct (two_alter_perm h i j a b Hne Hi Hj) as (D & HD & Halt).
  specialize (Halt (Tile.set_to_remove true) absorb).
  rewrite merge_writes_alter.
  rewrite (count_removed_perm _ _ Halt), (count_removed_perm _ _ HD).
  rewrite (count_merged_perm _ _ Halt), (count_merged_perm _ _ HD).
  rewrite !count_removed_cons, !count_merged_cons. simpl.
  rewrite Hra, Hrb, Hma, Hmb. repeat split; try reflexivity.
  exists (live_values D). split.
  - rewrite (live_values_perm _ _ HD), !live_values_cons, Hra, Hrb, Hv.
    reflexivity.
  - rewrite (live_values_perm _ _ Halt), !live_values_cons. simpl.
    rewrite Hrb, Hv. reflexivity.
Qed.

(** ** Conservation *)

Lemma merged_from_perm_r (l l1 l2 : list Z) :
  merged_from l l1 -> l1 ≡ₚ l2 -> merged_from l l2.
Proof.
  intros Hm. revert l2. induction Hm as [l l' E|l v rest l' E Hm IH]; intros l2 E2.
  - apply merged_from_same. rewrite E. exact E2.
  - eapply merged_from_pair; [exact E|]. apply IH, E2.
Qed.

Lemma merged_from_more (l l1 l2 : list Z) (v : Z) (rest : list Z) :
  merged_from l l1 -> l1 ≡ₚ v :: v :: rest -> l2 ≡ₚ v * 2 :: rest ->
  merged_from l l2.
Proof.
  intros Hm. revert l2 v rest.
  induction Hm as [l l' E|l w rest' l' E Hm IH]; intros l2 v rest E1 E2.
  - eapply merged_from_pair; [rewrite E; exact E1|].
    apply merged_from_same. symmetry. exact E2.
  - eapply merged_from_pair; [exact E|]. eapply IH; eassumption.
Qed.

Lemma sum_values_perm (l l' : list Z) :
  l ≡ₚ l' -> sum_values l = sum_values l'.
Proof.
  induction 1; simpl; unfold sum_values in *; simpl; lia.
Qed.

Lemma merged_from_sum (l l' : list Z) :
  merged_from l l' -> sum_values l = sum_values l'.
Proof.
  induction 1 as [l l' E|l v rest l' E Hm IH].
  - apply sum_values_perm, E.
  - rewrite (sum_values_perm _ _ E), <- IH. unfold sum_values. simpl. lia.
Qed.

(** ** One visit keeps the invariant *)

Lemma total_alter (f : Tile.t -> Tile.t) (h : list Tile.t) (i k : nat) :
  (i < length h)%nat ->
  alter f i h !!! k = if decide (k = i) then f (h !!! k) else h !!! k.
Proof.
  intros Hi. rewrite list_lookup_total_alter.
  repeat case_decide; subst; try reflexivity; intuition congruence.
Qed.

Lemma merge_writes_total (i j : nat) (h : list Tile.t) (k : nat) :
  i <> j -> (i < length h)%nat -> (j < length h)%nat ->
  merge_writes i j h !!! k =
    if decide (k = i) then Tile.set_to_remove true (h !!! k)
    else if decide (k = j) then absorb (h !!! k) else h !!! k.
Proof.
  intros Hne Hi Hj. rewrite merge_writes_alter.
  rewrite total_alter by (rewrite length_alter; exact Hi).
  rewrite total_alter by exact Hj.
  repeat case_decide; subst; try reflexivity; congruence.
Qed.

Lemma merge_writes_length (i j : nat) (h : list Tile.t) :
  length (merge_writes i j h) = length h.
Proof. unfold merge_writes. rewrite !length_alter. reflexivity. Qed.

Lemma aim_writes (q : Z * Z) (i : nat) (h : list Tile.t) :
  alter (Tile.set_target_y (fst q * RECT_HEIGHT)) i
    (alter (Tile.set_target_x (snd q * RECT_WIDTH)) i h)
  = alter (aim q) i h.
Proof. rewrite list_alter_alter_eq. reflexivity. Qed.

Lemma rank_ahead (d : string) (p q : Z * Z) (rest : list (Z * Z)) :
  (forall c, c ∈ rest -> rank d p < rank d c) ->
  line d q = line d p -> dist d q <= dist d p -> q ∉ rest.
Proof.
  intros Hs Hl Hd Hin. specialize (Hs q Hin). unfold rank in Hs. lia.
Qed.

Section Step.
Variables (d : string) (h0 : list Tile.t) (g0 : list (list (option nat))).
Variables (p : Z * Z) (rest : list (Z * Z)) (h : list Tile.t) (l : Locals).
Variable (i : nat).
Hypothesis Hd : valid_direction d = true.
Hypothesis Hp : inb p.
Hypothesis Hsorted : forall c, c ∈ rest -> rank d p < rank d c.
Hypothesis HI : Inv d h0 g0 (p :: rest) h l.
Hypothesis Hi : gat (grid l) p = Some i.

Lemma step_tile : (i < length h)%nat /\ Tile.to_remove (h !!! i) = false.
Proof. exact (inv_ref _ _ _ _ _ _ HI p i Hp Hi). Qed.

Lemma step_other (c : Z * Z) (k : nat) :
  inb c -> gat (grid l) c = Some k -> c <> p -> k <> i.
Proof.
  intros Hc Hk Hne ->. apply Hne. exact (inv_inj _ _ _ _ _ _ HI c p i Hc Hp Hk Hi).
Qed.

(** The tile comes to rest in [current l']. *)
Lemma step_rest (l' : Locals) :
  (current l' <> p -> gat (grid l) (current l') = None) ->
  inb (current l') -> line d (current l') = line d p ->
  dist d (current l') <= dist d p ->
  grid_shape (grid l') ->
  (forall c, inb c ->
     gat (grid l') c =
       if decide (c = current l') then Some i
       else if decide (c = p) then None else gat (grid l) c) ->
  moved l' = (if decide (current l' = p) then moved l else true) ->
  Inv d h0 g0 rest (alter (aim (current l')) i h) l'.
Proof.
  intros Hemp Hq Hline Hdist Hs' Hgat Hmv.
  destruct step_tile as [Hil Hir].
  set (q := current l') in *.
  assert (Hqrest : q ∉ rest) by (eapply rank_ahead; eassumption).
  assert (Hfld : forall k,
            Tile.value (alter (aim q) i h !!! k) = Tile.value (h !!! k)
            /\ Tile.to_remove (alter (aim q) i h !!! k) = Tile.to_remove (h !!! k)
            /\ Tile.merged (alter (aim q) i h !!! k) = Tile.merged (h !!! k)
            /\ Tile.merge_anim_counter (alter (aim q) i h !!! k)
               = Tile.merge_anim_counter (h !!! k)
            /\ target (alter (aim q) i h !!! k)
               = if decide (k = i) then pixel q else target (h !!! k)).
  { intros k. rewrite total_alter by exact Hil.
    destruct (decide (k = i)) as [->|Hki]; repeat split; reflexivity. }
  assert (Hold : forall c k, inb c -> gat (grid l') c = Some k -> c <> q ->
                             c <> p /\ gat (grid l) c = Some k /\ k <> i).
  { intros c k Hc Hk Hne. rewrite Hgat in Hk by exact Hc.
    rewrite decide_False in Hk by exact Hne.
    destruct (decide (c = p)) as [|Hcp]; [discriminate|].
    repeat split; try assumption.
    eapply step_other; eassumption. }
  assert (Hkeep : forall c, inb c -> is_Some (gat (grid l) c) -> c <> p ->
                            gat (grid l') c = gat (grid l) c).
  { intros c Hc Hsome Hne. rewrite Hgat by exact Hc.
    rewrite (decide_False (P := c = p)) by exact Hne.
    destruct (decide (c = q)) as [E|E]; [|reflexivity]. subst c.
    rewrite Hemp in Hsome by exact Hne. destruct Hsome; discriminate. }
  destruct (quiet_write (aim q) i h) as (Hlv & Hcr & Hcm);
    [intros s; repeat split; reflexivity|].
  constructor.
  - exact Hs'.
  - rewrite length_alter. exact (inv_len _ _ _ _ _ _ HI).
  - intros c k Hc Hk. rewrite length_alter.
    destruct (Hfld k) as (_ & -> & _).
    destruct (decide (c = q)) as [->|Hne].
    + rewrite Hgat, decide_True in Hk by (assumption || reflexivity).
      injection Hk as <-. split; assumption.
    + destruct (Hold c k Hc Hk Hne) as (Hcp & Hk' & _).
      exact (inv_ref _ _ _ _ _ _ HI c k Hc Hk').
  - intros c1 c2 k Hc1 Hc2 Hk1 Hk2.
    destruct (decide (c1 = q)) as [->|Hne1], (decide (c2 = q)) as [->|Hne2];
      try reflexivity.
    + rewrite Hgat, decide_True in Hk1 by (assumption || reflexivity).
      injection Hk1 as <-. destruct (Hold c2 i Hc2 Hk2 Hne2) as (_ & _ & []).
      reflexivity.
    + rewrite Hgat, decide_True in Hk2 by (assumption || reflexivity).
      injection Hk2 as <-. destruct (Hold c1 i Hc1 Hk1 Hne1) as (_ & _ & []).
      reflexivity.
    + destruct (Hold c1 k Hc1 Hk1 Hne1) as (_ & Hk1' & _).
      destruct (Hold c2 k Hc2 Hk2 Hne2) as (_ & Hk2' & _).
      exact (inv_inj _ _ _ _ _ _ HI c1 c2 k Hc1 Hc2 Hk1' Hk2').
  - intros k Hk. rewrite length_alter in Hk.
    destruct (Hfld k) as (-> & -> & -> & -> & _).
    exact (inv_value _ _ _ _ _ _ HI k Hk).
  - eapply merged_from_perm_r; [exact (inv_mass _ _ _ _ _ _ HI)|].
    symmetry. exact Hlv.
  - rewrite Hcr, Hcm. exact (inv_count _ _ _ _ _ _ HI).
  - intros c k Hc Hk Hnr. destruct (Hfld k) as (_ & _ & _ & _ & ->).
    destruct (decide (c = q)) as [->|Hne].
    + rewrite Hgat, decide_True in Hk by (assumption || reflexivity).
      injection Hk as <-. rewrite decide_True; reflexivity.
    + destruct (Hold c k Hc Hk Hne) as (Hcp & Hk' & Hki).
      rewrite decide_False by exact Hki.
      apply (inv_target _ _ _ _ _ _ HI c k Hc Hk').
      rewrite not_elem_of_cons. split; assumption.
  - intros k Hk Hrm. rewrite length_alter in Hk.
    destruct (Hfld k) as (_ & Hr & _ & _ & Ht). rewrite Hr in Hrm.
    assert (Hki : k <> i) by congruence.
    destruct (inv_removed _ _ _ _ _ _ HI k Hk Hrm)
      as (q0 & q0' & j0 & Hq0 & Hn0 & Hq0' & Ht0 & Hj0 & Hm0 & Hr0 & Hv0).
    apply not_elem_of_cons in Hr0 as [Hq0p Hr0].
    exists q0, q0', j0. repeat split; try assumption.
    + rewrite Ht, decide_False by exact Hki. exact Ht0.
    + rewrite Hkeep; [exact Hj0|exact Hq0'|rewrite Hj0; eauto|exact Hq0p].
    + destruct (Hfld j0) as (_ & _ & -> & _). exact Hm0.
  - intros k Hk Hal Hg0. rewrite length_alter in Hk.
    destruct (Hfld k) as (_ & Hr & _). rewrite Hr in Hal.
    destruct (decide (k = i)) as [->|Hki].
    + exists q. split; [exact Hq|]. rewrite Hgat, decide_True; auto.
    + destruct (inv_alive _ _ _ _ _ _ HI k Hk Hal Hg0) as (c & Hc & Hck).
      exists c. split; [exact Hc|].
      rewrite Hkeep; [exact Hck|exact Hc|rewrite Hck; eauto|].
      intros ->. congruence.
  - intros Hmf. rewrite Hmv in Hmf.
    destruct (decide (q = p)) as [E|E]; [|discriminate].
    destruct (inv_still _ _ _ _ _ _ HI Hmf) as [Hg Hv]. split.
    + intros c Hc. rewrite Hgat by exact Hc. rewrite E.
      destruct (decide (c = p)) as [Ec|Ec];
        [subst c; rewrite <- Hg by exact Hp; congruence|].
      apply Hg, Hc.
    + intros k Hk. rewrite length_alter in Hk.
      destruct (Hfld k) as (-> & -> & _). apply Hv, Hk.
  - intros Hmt. destruct (moved l) eqn:Hml.
    + destruct (inv_moved _ _ _ _ _ _ HI Hml) as [(k & Hk & Hrm)|(c & Hc & Hc0 & Hsome & Hcr')].
      * left. exists k. rewrite length_alter. split; [exact Hk|].
        destruct (Hfld k) as (_ & -> & _). exact Hrm.
      * right. apply not_elem_of_cons in Hcr' as [Hcp Hcr'].
        exists c. repeat split; try assumption.
        rewrite Hkeep; assumption.
    + right. rewrite Hmv in Hmt.
      destruct (decide (q = p)) as [E|E]; [discriminate|].
      destruct (inv_still _ _ _ _ _ _ HI Hml) as [Hg _].
      exists q. repeat split; try assumption.
      * rewrite <- Hg by exact Hq. apply Hemp, E.
      * rewrite Hgat, decide_True by (assumption || reflexivity). eauto.
Qed.

(** The tile merges into the tile [j] of the next cell [q']. *)
Lemma step_merge (l' : Locals) (j : nat) (q' : Z * Z) :
  (current l' <> p -> gat (grid l) (current l') = None) ->
  inb (current l') -> line d (current l') = line d p ->
  dist d (current l') <= dist d p ->
  next_pos d (fst (current l')) (snd (current l')) = Some q' ->
  inb q' ->
  gat (grid l) q' = Some j ->
  Tile.value (h !!! j) = Tile.value (h !!! i) ->
  Tile.merged (h !!! i) = false ->
  Tile.merged (h !!! j) = false ->
  grid_shape (grid l') ->
  (forall c, inb c ->
     gat (grid l') c =
       if decide (c = current l' \/ c = p) then None else gat (grid l) c) ->
  moved l' = true ->
  Inv d h0 g0 rest (alter (aim (current l')) i (merge_writes i j h)) l'.
Proof.
  intros Hemp Hq Hline Hdist Hnext Hq' Hj Hval Hmi Hmj Hs' Hgat Hmv.
  destruct step_tile as [Hil Hir].
  set (q := current l') in *.
  destruct (next_pos_geom d q Hd) as (q2 & Hn2 & Hline2 & Hdist2).
  rewrite Hn2 in Hnext. injection Hnext as ->.
  assert (Hq'p : q' <> p) by (intros E; rewrite E in Hdist2; lia).
  assert (Hq'q : q' <> q) by (intros E; rewrite E in Hdist2; lia).
  assert (Hq'rest : q' ∉ rest) by (eapply rank_ahead; [eassumption| |]; lia).
  destruct (inv_ref _ _ _ _ _ _ HI q' j Hq' Hj) as [Hjl Hjr].
  assert (Hji : j <> i) by (eapply step_other; eassumption).
  set (hB := alter (aim q) i (merge_writes i j h)).
  assert (HhB : forall k, hB !!! k =
            if decide (k = i) then aim q (Tile.set_to_remove true (h !!! k))
            else if decide (k = j) then absorb (h !!! k) else h !!! k).
  { intros k. unfold hB.
    rewrite total_alter by (rewrite merge_writes_length; exact Hil).
    rewrite merge_writes_total by (assumption || congruence).
    destruct (decide (k = i)); reflexivity. }
  assert (HlB : length hB = length h).
  { unfold hB. rewrite length_alter. apply merge_writes_length. }
  assert (Hfld : forall k, k <> i ->
            Tile.to_remove (hB !!! k) = Tile.to_remove (h !!! k)
            /\ target (hB !!! k) = target (h !!! k)
            /\ (Tile.merged (h !!! k) = true -> Tile.merged (hB !!! k) = true)).
  { intros k Hki. rewrite HhB, decide_False by exact Hki.
    destruct (decide (k = j)); repeat split; auto. }
  assert (Hold : forall c k, inb c -> gat (grid l') c = Some k ->
                             c <> p /\ gat (grid l) c = Some k /\ k <> i).
  { intros c k Hc Hk. rewrite Hgat in Hk by exact Hc.
    destruct (decide (c = q \/ c = p)) as [|Hn]; [discriminate|].
    assert (c <> p) by tauto. repeat split; try assumption.
    eapply step_other; eassumption. }
  assert (Hkeep : forall c, inb c -> is_Some (gat (grid l) c) -> c <> p ->
                            gat (grid l') c = gat (grid l) c).
  { intros c Hc Hsome Hne. rewrite Hgat by exact Hc.
    destruct (decide (c = q \/ c = p)) as [[E|E]|E]; try reflexivity;
      [|contradiction].
    subst c. destruct (decide (q = p)) as [|Hqp]; [contradiction|].
    rewrite Hemp in Hsome by exact Hqp. destruct Hsome; discriminate. }
  assert (Hvi : Tile.value (h !!! i) = Tile.value (h0 !!! i)).
  { destruct (inv_value _ _ _ _ _ _ HI i Hil) as [[_ E]|[E _]];
      [exact E|congruence]. }
  assert (Hvj : Tile.value (h !!! j) = Tile.value (h0 !!! j)).
  { destruct (inv_value _ _ _ _ _ _ HI j Hjl) as [[_ E]|[E _]];
      [exact E|congruence]. }
  destruct (merge_write i j h (h !!! i) (h !!! j)) as ((vs & Hlv1 & Hlv2) & Hcr & Hcm);
    try assumption; try congruence;
    try (apply list_lookup_lookup_total_lt; assumption).
  destruct (quiet_write (aim q) i (merge_writes i j h)) as (Hlv & Hcr' & Hcm');
    [intros s; repeat split; reflexivity|].
  fold hB in Hlv, Hcr', Hcm'.
  constructor.
  - exact Hs'.
  - rewrite HlB. exact (inv_len _ _ _ _ _ _ HI).
  - intros c k Hc Hk. rewrite HlB.
    destruct (Hold c k Hc Hk) as (Hcp & Hk' & Hki).
    destruct (Hfld k Hki) as (-> & _).
    exact (inv_ref _ _ _ _ _ _ HI c k Hc Hk').
  - intros c1 c2 k Hc1 Hc2 Hk1 Hk2.
    destruct (Hold c1 k Hc1 Hk1) as (_ & Hk1' & _).
    destruct (Hold c2 k Hc2 Hk2) as (_ & Hk2' & _).
    exact (inv_inj _ _ _ _ _ _ HI c1 c2 k Hc1 Hc2 Hk1' Hk2').
  - intros k Hk. rewrite HlB in Hk. rewrite HhB.
    destruct (decide (k = i)) as [->|Hki]; [|destruct (decide (k = j)) as [->|Hkj]].
    + left. simpl. split; assumption.
    + right. simpl. rewrite Hvj. repeat split; try reflexivity. exact Hjr.
    + exact (inv_value _ _ _ _ _ _ HI k Hk).
  - eapply merged_from_more; [exact (inv_mass _ _ _ _ _ _ HI)|exact Hlv1|].
    rewrite Hlv. exact Hlv2.
  - rewrite Hcr', Hcm', Hcr, Hcm. f_equal. exact (inv_count _ _ _ _ _ _ HI).
  - intros c k Hc Hk Hnr.
    destruct (Hold c k Hc Hk) as (Hcp & Hk' & Hki).
    destruct (Hfld k Hki) as (_ & -> & _).
    apply (inv_target _ _ _ _ _ _ HI c k Hc Hk').
    rewrite not_elem_of_cons. split; assumption.
  - intros k Hk Hrm. rewrite HlB in Hk.
    destruct (decide (k = i)) as [->|Hki].
    + exists q, q', j. repeat split; try assumption.
      * rewrite HhB, decide_True by reflexivity. reflexivity.
      * rewrite Hkeep; [exact Hj|exact Hq'|rewrite Hj; eauto|exact Hq'p].
      * rewrite HhB, decide_False, decide_True by (congruence || reflexivity).
        reflexivity.
      * congruence.
    + destruct (Hfld k Hki) as (Hr & Ht & _). rewrite Hr in Hrm.
      destruct (inv_removed _ _ _ _ _ _ HI k Hk Hrm)
        as (q0 & q0' & j0 & Hq0 & Hn0 & Hq0' & Ht0 & Hj0 & Hm0 & Hr0 & Hv0).
      apply not_elem_of_cons in Hr0 as [Hq0p Hr0].
      exists q0, q0', j0. repeat split; try assumption.
      * rewrite Ht. exact Ht0.
      * rewrite Hkeep; [exact Hj0|exact Hq0'|rewrite Hj0; eauto|exact Hq0p].
      * assert (Hj0i : j0 <> i) by (eapply step_other; eassumption).
        destruct (Hfld j0 Hj0i) as (_ & _ & Hm). apply Hm, Hm0.
  - intros k Hk Hal Hg0. rewrite HlB in Hk.
    destruct (decide (k = i)) as [->|Hki].
    + rewrite HhB, decide_True in Hal by reflexivity. discriminate.
    + destruct (Hfld k Hki) as (Hr & _). rewrite Hr in Hal.
      destruct (inv_alive _ _ _ _ _ _ HI k Hk Hal Hg0) as (c & Hc & Hck).
      exists c. split; [exact Hc|].
      rewrite Hkeep; [exact Hck|exact Hc|rewrite Hck; eauto|].
      intros ->. congruence.
  - intros Hmf. congruence.
  - intros _. left. exists i. rewrite HlB. split; [exact Hil|].
    rewrite HhB, decide_True by reflexivity. reflexivity.
Qed.

End Step.

(** ** The traversal loop *)

Lemma inv_skip (d : string) (h0 : list Tile.t) (g0 : list (list (option nat)))
    (p : Z * Z) (rest : list (Z * Z)) (h : list Tile.t) (l : Locals) :
  inb p -> gat (grid l) p = None ->
  Inv d h0 g0 (p :: rest) h l -> Inv d h0 g0 rest h l.
Proof.
  intros Hp Hnone HI. destruct HI. constructor; try assumption.
  - intros c k Hc Hk Hnr. apply (inv_target0 c k Hc Hk).
    rewrite not_elem_of_cons. split; [congruence|exact Hnr].
  - intros k Hk Hrm.
    destruct (inv_removed0 k Hk Hrm)
      as (q0 & q0' & j0 & Hq0 & Hn0 & Hq0' & Ht0 & Hj0 & Hm0 & Hr0 & Hv0).
    apply not_elem_of_cons in Hr0 as [_ Hr0].
    exists q0, q0', j0. repeat split; assumption.
  - intros Hm. destruct (inv_moved0 Hm) as [Hrm|(c & Hc & Hc0 & Hsome & Hcr)];
      [left; exact Hrm|right].
    apply not_elem_of_cons in Hcr as [_ Hcr].
    exists c. repeat split; assumption.
Qed.

Lemma visit_inv (d : string) (h0 : list Tile.t) (g0 : list (list (option nat)))
    (p : Z * Z) (rest : list (Z * Z)) (h : list Tile.t) (l : Locals) :
  valid_direction d = true -> inb p ->
  (forall c, c ∈ rest -> rank d p < rank d c) ->
  Inv d h0 g0 (p :: rest) h l ->
  exists h' l', visit d p l h = (h', Ret l') /\ Inv d h0 g0 rest h' l'.
Proof.
  intros Hd Hp Hsorted HI.
  pose proof (inv_shape _ _ _ _ _ _ HI) as Hs.
  unfold visit. unfold bind at 1. unfold lift at 1.
  rewrite (grid_get_inb (grid l) p Hs Hp).
  destruct (gat (grid l) p) as [i|] eqn:Hi.
  - destruct (slide_spec slide_fuel d i (mkLocals (grid l) p (moved l)) h Hd)
      as (h1 & l1 & Hrun & Hpost); [exact Hs|exact Hp|exact Hi| |].
    { pose proof (dist_bounds d p Hd Hp). simpl.
      unfold slide_fuel, ROWS, COLS. lia. }
    unfold bind at 1. rewrite Hrun. unfold bind, write, ret. simpl.
    rewrite aim_writes. eexists _, _. split; [reflexivity|]. clear Hrun.
    destruct Hpost as [-> Hin' Hl' Hd' Hemp Hs' Hgat Hmv
                      |j q' -> Hin' Hl' Hd' Hemp Hnx Hinq' Hj Hv Hm1 Hm2 Hs' Hgat Hmv];
      simpl in *.
    + apply (step_rest d h0 g0 p rest h l i Hd Hp Hsorted HI Hi l1);
        assumption.
    + apply (step_merge d h0 g0 p rest h l i Hd Hp Hsorted HI Hi l1 j q');
        assumption.
  - exists h, l. split; [reflexivity|]. eapply inv_skip; eassumption.
Qed.

Lemma for_cells_inv (d : string) (h0 : list Tile.t)
    (g0 : list (list (option nat))) (cells : list (Z * Z)) :
  valid_direction d = true ->
  Forall inb cells ->
  StronglySorted (fun a b => rank d a < rank d b) cells ->
  forall h l, Inv d h0 g0 cells h l ->
  exists h' l', for_cells d cells l h = (h', Ret l') /\ Inv d h0 g0 [] h' l'.
Proof.
  intros Hd Hin Hsorted.
  induction cells as [|p rest IH]; intros h l HI; simpl.
  - exists h, l. split; [reflexivity|exact HI].
  - apply Forall_cons in Hin as [Hp Hin].
    apply StronglySorted_inv in Hsorted as [Hsorted Hlt].
    rewrite Forall_forall in Hlt.
    destruct (visit_inv d h0 g0 p rest h l Hd Hp Hlt HI) as (h1 & l1 & Hv & HI1).
    destruct (IH Hin Hsorted h1 l1 HI1) as (h' & l' & Hrun & HI').
    exists h', l'. split; [|exact HI'].
    unfold bind. rewrite Hv. exact Hrun.
Qed.

(** ** Filling the grid *)

Lemma norm_cell_inb (rc p : Z * Z) : norm_cell rc = Some p -> inb p.
Proof.
  unfold norm_cell.
  destruct (py_index _ (fst rc)) as [a|] eqn:Ea; [|discriminate].
  destruct (py_index _ (snd rc)) as [b|] eqn:Eb; [|discriminate].
  intros [= <-]. apply py_index_lt in Ea, Eb.
  apply inb_bounds. simpl. unfold ROWS, COLS in *. lia.
Qed.

Lemma grid_set_norm {A} `{Inhabited A} (g : list (list A)) (r c : Z) (v : A) :
  grid_shape g ->
  grid_set g r c v =
    match norm_cell (r, c) with
    | Some p => Ret (gupd g p v)
    | None => Raise IndexError
    end.
Proof.
  intros Hs. pose proof Hs as [Hlen Hall].
  unfold grid_set, subscript, assign, norm_cell. simpl. rewrite Hlen.
  destruct (py_index (Z.to_nat ROWS) r) as [a|] eqn:Ea; [|reflexivity].
  pose proof (py_index_lt _ _ _ Ea) as Ha.
  destruct (grid_shape_line g a Hs Ha) as [Hl Hll]. rewrite Hl, Hll.
  destruct (py_index (Z.to_nat COLS) c) as [b|] eqn:Eb; [|reflexivity].
  unfold gupd. simpl. rewrite !Nat2Z.id. reflexivity.
Qed.

Lemma build_grid_fill (ts : list Tile.t) (k : nat) (g : list (list (option nat))) :
  build_grid ts k g = fill_with (fun i _ => Some i) ts k g.
Proof.
  revert k g. induction ts as [|s ts IH]; intros k g; simpl; [reflexivity|].
  destruct (grid_set _ _ _ _); [apply IH|reflexivity|reflexivity].
Qed.

Lemma fill_values_fill (ts : list Tile.t) (k : nat) (g : list (list Z)) :
  fill_values ts g = fill_with (fun _ s => Tile.value s) ts k g.
Proof.
  revert k g. induction ts as [|s ts IH]; intros k g; simpl; [reflexivity|].
  destruct (grid_set _ _ _ _); [apply IH|reflexivity|reflexivity].
Qed.

Lemma fill_with_spec {A} `{Inhabited A} (f : nat -> Tile.t -> A)
    (ts : list Tile.t) (k : nat) (g : list (list A)) :
  grid_shape g ->
  match fill_with f ts k g with
  | Ret g' =>
      grid_shape g'
      /\ forall p, inb p ->
           gat g' p = gat g p
           \/ exists n s, ts !! n = Some s /\ norm_cell (cell s) = Some p
                          /\ gat g' p = f (k + n)%nat s
  | Raise e => e = IndexError
  | OutOfFuel => False
  end.
Proof.
  revert k g. induction ts as [|s ts IH]; intros k g Hs; simpl.
  - split; [exact Hs|]. intros p _. left. reflexivity.
  - rewrite grid_set_norm by exact Hs. fold (cell s).
    destruct (norm_cell (cell s)) as [q|] eqn:Eq; [|reflexivity].
    pose proof (norm_cell_inb _ _ Eq) as Hq.
    specialize (IH (S k) (gupd g q (f k s)) (gupd_shape _ _ _ Hs Hq)).
    destruct (fill_with f ts (S k) _) as [g'|e|]; try exact IH.
    destruct IH as [Hs' Hg']. split; [exact Hs'|].
    intros p Hp. destruct (Hg' p Hp) as [E|(n & s' & Hn & Hnorm & E)].
    + rewrite gat_gupd in E by assumption.
      destruct (decide (q = p)) as [->|Hne]; [|left; exact E].
      right. exists 0%nat, s. rewrite Nat.add_0_r. auto.
    + right. exists (S n), s'. rewrite Nat.add_succ_r. auto.
Qed.

Lemma fill_with_wf {A} `{Inhabited A} (f : nat -> Tile.t -> A)
    (ts : list Tile.t) :
  NoDup (map cell ts) -> Forall (fun s => inb (cell s)) ts ->
  forall k g, grid_shape g ->
  exists g', fill_with f ts k g = Ret g' /\ grid_shape g'
    /\ (forall n s, ts !! n = Some s -> gat g' (cell s) = f (k + n)%nat s)
    /\ (forall p, inb p -> p ∉ map cell ts -> gat g' p = gat g p).
Proof.
  induction ts as [|s ts IH]; intros Hnd Hin k g Hs; simpl.
  - exists g. split; [reflexivity|]. split; [exact Hs|].
    split; [intros n s; discriminate|reflexivity].
  - apply NoDup_cons in Hnd as [Hfresh Hnd].
    apply Forall_cons in Hin as [Hsin Hin].
    pose proof (grid_set_inb g (cell s) (f k s) Hs Hsin) as Hset.
    simpl in Hset. rewrite Hset.
    destruct (IH Hnd Hin (S k) (gupd g (cell s) (f k s)))
      as (g' & Hrun & Hs' & Hat & Hout); [apply gupd_shape; assumption|].
    exists g'. split; [exact Hrun|]. split; [exact Hs'|]. split.
    + intros [|n] s' Hn; simpl in Hn.
      * injection Hn as <-. rewrite Hout by assumption.
        rewrite gat_gupd, decide_True by (assumption || reflexivity).
        rewrite Nat.add_0_r. reflexivity.
      * rewrite Nat.add_succ_r. apply (Hat n s' Hn).
    + intros p Hp Hnp. apply not_elem_of_cons in Hnp as [Hne Hnp].
      rewrite Hout by assumption.
      rewrite gat_gupd, decide_False by (assumption || congruence).
      reflexivity.
Qed.

Lemma gat_empty_grid (p : Z * Z) : inb p -> gat empty_grid p = None.
Proof.
  intros Hp. apply inb_all_cells in Hp.
  revert Hp. let l := eval vm_compute in all_cells in change all_cells with l.
  intros Hp.
  repeat match goal with
         | H : _ ∈ _ :: _ |- _ => apply elem_of_cons in H as [-> | H]
         | H : _ ∈ [] |- _ => apply elem_of_nil in H; contradiction
         end; reflexivity.
Qed.

Lemma empty_grid_shape : grid_shape empty_grid.
Proof. split; [reflexivity|]. repeat constructor. Qed.

(** ** Flags after [reset_merged_flags] *)

Lemma reset_lookup (ts : list Tile.t) (i : nat) :
  (i < length ts)%nat ->
  reset_merged_flags ts !!! i
  = Tile.set_to_remove false (Tile.set_merged false (ts !!! i)).
Proof.
  intros Hi. unfold reset_merged_flags.
  apply list_lookup_total_correct.
  rewrite list_lookup_fmap, (list_lookup_lookup_total_lt ts i Hi). reflexivity.
Qed.

Lemma reset_length (ts : list Tile.t) :
  length (reset_merged_flags ts) = length ts.
Proof. unfold reset_merged_flags. apply length_map. Qed.

Lemma reset_summary (ts : list Tile.t) :
  live_values (reset_merged_flags ts) = map Tile.value ts
  /\ map Tile.value (reset_merged_flags ts) = map Tile.value ts
  /\ count_removed (reset_merged_flags ts) = 0%nat
  /\ count_merged (reset_merged_flags ts) = 0%nat.
Proof.
  induction ts as [|s ts (IH1 & IH2 & IH3 & IH4)]; [repeat split|].
  change (reset_merged_flags (s :: ts))
    with (Tile.set_to_remove false (Tile.set_merged false s)
          :: reset_merged_flags ts).
  rewrite live_values_cons, count_removed_cons, count_merged_cons. simpl.
  rewrite IH1, IH2, IH3, IH4. repeat split.
Qed.

(** ** The invariant holds when the loop starts *)

Lemma build_grid_char (ts : list Tile.t) (g0 : list (list (option nat))) :
  build_grid ts 0 empty_grid = Ret g0 ->
  grid_shape g0
  /\ forall p i, inb p -> gat g0 p = Some i ->
       exists s, ts !! i = Some s /\ norm_cell (cell s) = Some p.
Proof.
  intros Hb. rewrite build_grid_fill in Hb.
  pose proof (fill_with_spec (fun i _ => Some i) ts 0 empty_grid
                empty_grid_shape) as Hspec.
  rewrite Hb in Hspec. destruct Hspec as [Hs Hg]. split; [exact Hs|].
  intros p i Hp Hi. destruct (Hg p Hp) as [E|(n & s & Hn & Hnorm & E)].
  - rewrite gat_empty_grid in E by exact Hp. congruence.
  - rewrite Hi in E. injection E as ->. exists s. auto.
Qed.

Lemma inv_init (d : string) (ts : list Tile.t)
    (g0 : list (list (option nat))) (cells : list (Z * Z)) :
  build_grid (reset_merged_flags ts) 0 empty_grid = Ret g0 ->
  (forall p, inb p -> p ∈ cells) ->
  Inv d (reset_merged_flags ts) g0 cells (reset_merged_flags ts)
      (mkLocals g0 (0, 0) false).
Proof.
  intros Hb Hall. destruct (build_grid_char _ _ Hb) as [Hs Hchar].
  destruct (reset_summary ts) as (Hlv & Hmv & Hcr & Hcm).
  assert (Hflags : forall i, (i < length (reset_merged_flags ts))%nat ->
            Tile.merged (reset_merged_flags ts !!! i) = false
            /\ Tile.to_remove (reset_merged_flags ts !!! i) = false).
  { intros i Hi. rewrite reset_length in Hi. rewrite reset_lookup by exact Hi.
    split; reflexivity. }
  constructor; simpl.
  - exact Hs.
  - reflexivity.
  - intros p i Hp Hi. destruct (Hchar p i Hp Hi) as (s & Hsi & _).
    apply lookup_lt_Some in Hsi. split; [exact Hsi|]. apply Hflags, Hsi.
  - intros p q i Hp Hq Hi1 Hi2.
    destruct (Hchar p i Hp Hi1) as (s & Hsi & Hn1).
    destruct (Hchar q i Hq Hi2) as (s' & Hsi' & Hn2). congruence.
  - intros i Hi. left. split; [apply Hflags, Hi|reflexivity].
  - apply merged_from_same. rewrite Hlv, Hmv. reflexivity.
  - rewrite Hcr, Hcm. reflexivity.
  - intros p i Hp _ Hnot. destruct Hnot. apply Hall, Hp.
  - intros i Hi Hrm. destruct (Hflags i Hi) as [_ E]. congruence.
  - intros i _ _ Hex. exact Hex.
  - intros _. split; [reflexivity|].
    intros i Hi. split; [reflexivity|apply Hflags, Hi].
  - discriminate.
Qed.

(** ** [move] as a whole *)

Lemma move_loop_unfold (d : string) (tiles : list Tile.t) :
  move_loop d tiles =
    match build_grid (reset_merged_flags tiles) 0 empty_grid with
    | Ret g =>
        match traverse d with
        | None => (reset_merged_flags tiles, Raise TypeError)
        | Some cells =>
            match for_cells d cells (mkLocals g (0, 0) false)
                    (reset_merged_flags tiles) with
            | (h, Ret l) => (h, Ret (moved l))
            | (h, Raise e) => (h, Raise e)
            | (h, OutOfFuel) => (h, OutOfFuel)
            end
        end
    | Raise e => (reset_merged_flags tiles, Raise e)
    | OutOfFuel => (reset_merged_flags tiles, OutOfFuel)
    end.
Proof.
  unfold move_loop, bind, lift, raise, ret. simpl.
  destruct (build_grid _ _ _) as [g|e|]; try reflexivity.
  destruct (traverse d) as [cells|]; reflexivity.
Qed.

Lemma build_grid_cases (ts : list Tile.t) :
  (exists g0, build_grid ts 0 empty_grid = Ret g0)
  \/ build_grid ts 0 empty_grid = Raise IndexError.
Proof.
  pose proof (fill_with_spec (fun i _ => Some i) ts 0 empty_grid
                empty_grid_shape) as Hspec.
  rewrite <- build_grid_fill in Hspec.
  destruct (build_grid ts 0 empty_grid) as [g0|e|].
  - left. eauto.
  - right. congruence.
  - contradiction.
Qed.

(** For a valid direction [move] raises [IndexError] while filling the grid,
    having only reset the flags, or returns, and then the invariant holds
    with no cell left to visit. *)
Lemma move_loop_spec (d : string) (tiles : list Tile.t) :
  valid_direction d = true ->
  move_loop d tiles = (reset_merged_flags tiles, Raise IndexError)
  \/ exists g0 h' l',
       build_grid (reset_merged_flags tiles) 0 empty_grid = Ret g0
       /\ move_loop d tiles = (h', Ret (moved l'))
       /\ Inv d (reset_merged_flags tiles) g0 [] h' l'.
Proof.
  intros Hd. rewrite move_loop_unfold.
  destruct (build_grid_cases (reset_merged_flags tiles)) as [[g0 Hb]|Hb];
    rewrite Hb; [right|left; reflexivity].
  destruct (traverse_valid d Hd) as (cells & Ht & Hcells & Hsorted).
  rewrite Ht.
  destruct (for_cells_inv d (reset_merged_flags tiles) g0 cells Hd)
    with (h := reset_merged_flags tiles) (l := mkLocals g0 (0, 0) false)
    as (h' & l' & Hrun & HI); try assumption.
  - apply Forall_forall. intros p Hp. apply Hcells, Hp.
  - apply inv_init; [exact Hb|]. intros p Hp. apply Hcells, Hp.
  - exists g0, h', l'. rewrite Hrun. auto.
Qed.

Lemma reset_cells (ts : list Tile.t) :
  map cell (reset_merged_flags ts) = map cell ts.
Proof.
  unfold reset_merged_flags. rewrite map_map. apply map_ext. reflexivity.
Qed.

(** On a well-formed board the grid is filled without an error and holds
    every tile in its own cell. *)
Lemma build_grid_wf (tiles : list Tile.t) :
  well_formed tiles ->
  exists g0,
    build_grid (reset_merged_flags tiles) 0 empty_grid = Ret g0
    /\ (forall i s, tiles !! i = Some s -> gat g0 (cell s) = Some i)
    /\ (forall p, inb p -> p ∉ map cell tiles -> gat g0 p = None).
Proof.
  intros [Hnd Hin].
  destruct (fill_with_wf (fun i _ => Some i) (reset_merged_flags tiles))
    with (k := 0%nat) (g := empty_grid) as (g0 & Hrun & Hs & Hat & Hout).
  - rewrite reset_cells. exact Hnd.
  - unfold reset_merged_flags. apply Forall_fmap.
    eapply Forall_impl; [exact Hin|]. intros s Hs. exact Hs.
  - exact empty_grid_shape.
  - exists g0. rewrite build_grid_fill. split; [exact Hrun|]. split.
    + intros i s Hi.
      specialize (Hat i (Tile.set_to_remove false (Tile.set_merged false s))).
      simpl in Hat. apply Hat. unfold reset_merged_flags.
      rewrite list_lookup_fmap, Hi. reflexivity.
    + intros p Hp Hnp. rewrite Hout; [apply gat_empty_grid, Hp|exact Hp|].
      rewrite reset_cells. exact Hnp.
Qed.

Lemma move_loop_wf (d : string) (tiles : list Tile.t) :
  well_formed tiles -> valid_direction d = true ->
  exists g0 h' l',
    (forall i s, tiles !! i = Some s -> gat g0 (cell s) = Some i)
    /\ (forall p, inb p -> p ∉ map cell tiles -> gat g0 p = None)
    /\ move_loop d tiles = (h', Ret (moved l'))
    /\ Inv d (reset_merged_flags tiles) g0 [] h' l'.
Proof.
  intros Hwf Hd. destruct (build_grid_wf tiles Hwf) as (g0 & Hb & Hat & Hout).
  destruct (traverse_valid d Hd) as (cells & Ht & Hcells & Hsorted).
  destruct (for_cells_inv d (reset_merged_flags tiles) g0 cells Hd)
    with (h := reset_merged_flags tiles) (l := mkLocals g0 (0, 0) false)
    as (h' & l' & Hrun & HI); try assumption.
  - apply Forall_forall. intros p Hp. apply Hcells, Hp.
  - apply inv_init; [exact Hb|]. intros p Hp. apply Hcells, Hp.
  - exists g0, h', l'. rewrite move_loop_unfold, Hb, Ht, Hrun. auto.
Qed.

Lemma move_of_loop (d : string) (tiles h' : list Tile.t) (m : bool) :
  move_loop d tiles = (h', Ret m) -> move tiles d = (purge h', Ret m).
Proof. intros H. unfold move. rewrite H. reflexivity. Qed.

(** ** When [Tile.draw] returns *)

Lemma draw_drawable (s : Tile.t) : drawable s -> Tile.draw s = Ret (drawn s).
Proof.
  unfold drawable, Tile.draw, Tile.get_color, drawn.
  set (L := 10 ^ INT_MAX_STR_DIGITS). set (F := MERGE_ANIM_DURATION * FLOAT_LIMIT).
  intros (Hc & Hx & Hy & Hv).
  destruct (Z.leb_spec F (Tile.merge_anim_counter s)); [lia|].
  rewrite andb_false_r.
  destruct (Z.leb_spec FLOAT_LIMIT (Z.abs (Tile.x s))); [lia|].
  destruct (Z.leb_spec FLOAT_LIMIT (Z.abs (Tile.y s))); [lia|].
  destruct (Z.leb_spec (Tile.value s) 0); [lia|].
  destruct (Z.leb_spec L (Tile.value s)); [lia|].
  destruct (Tile.merge_anim_counter s >? 0); reflexivity.
Qed.

Lemma draw_not_drawable (s : Tile.t) :
  ~ drawable s ->
  Tile.draw s = Raise OverflowError \/ Tile.draw s = Raise ValueError.
Proof.
  unfold drawable, Tile.draw, Tile.get_color.
  set (L := 10 ^ INT_MAX_STR_DIGITS). set (F := MERGE_ANIM_DURATION * FLOAT_LIMIT).
  assert (HF : 0 < F) by (vm_compute; reflexivity).
  intros Hn.
  destruct (Z.gtb_spec (Tile.merge_anim_counter s) 0);
    destruct (Z.leb_spec F (Tile.merge_anim_counter s)); simpl; auto;
    (destruct (Z.leb_spec FLOAT_LIMIT (Z.abs (Tile.x s))); auto;
     destruct (Z.leb_spec FLOAT_LIMIT (Z.abs (Tile.y s))); auto;
     destruct (Z.leb_spec (Tile.value s) 0); auto;
     destruct (Z.leb_spec L (Tile.value s)); auto;
     exfalso; apply Hn; lia).
Qed.

Lemma drawn_fields (s : Tile.t) :
  target (drawn s) = target s /\ cell (drawn s) = cell s
  /\ Tile.value (drawn s) = Tile.value s
  /\ Tile.x (drawn s) = Tile.x s /\ Tile.y (drawn s) = Tile.y s.
Proof. unfold drawn. destruct (_ >? 0); repeat split. Qed.

Lemma drawn_counter (s : Tile.t) :
  Tile.merge_anim_counter (drawn s)
  = if Tile.merge_anim_counter s >? 0 then Tile.merge_anim_counter s - 1
    else Tile.merge_anim_counter s.
Proof. unfold drawn. destruct (_ >? 0); reflexivity. Qed.

Lemma drawn_drawable (s : Tile.t) : drawable s -> drawable (drawn s).
Proof.
  unfold drawable. destruct (drawn_fields s) as (_ & _ & -> & -> & ->).
  rewrite drawn_counter.
  set (F := MERGE_ANIM_DURATION * FLOAT_LIMIT).
  destruct (Z.gtb_spec (Tile.merge_anim_counter s) 0); intros (? & ? & ? & ?);
    repeat split; auto; lia.
Qed.

Lemma draw_all (ts : list Tile.t) :
  Forall drawable ts -> draw ts = Ret (map drawn ts).
Proof.
  induction 1 as [|s ts Hs _ IH]; [reflexivity|].
  cbn [draw map]. rewrite (draw_drawable s Hs), IH. reflexivity.
Qed.

(** ** Where the surviving tiles end up *)

Lemma target_cell_pixel (s : Tile.t) (p : Z * Z) :
  target s = pixel p -> target_cell s = p.
Proof.
  unfold target, pixel, target_cell. intros [= -> ->].
  change RECT_WIDTH with 200. change RECT_HEIGHT with 200.
  rewrite !Z.div_mul by lia. destruct p; reflexivity.
Qed.

Lemma pixel_inj (p q : Z * Z) : pixel p = pixel q -> p = q.
Proof.
  unfold pixel. change RECT_WIDTH with 200. change RECT_HEIGHT with 200.
  destruct p, q; simpl. intros [= H1 H2]. f_equal; lia.
Qed.

Lemma NoDup_map_filter_lookup {A B} (f : A -> B) (P : A -> Prop)
    `{forall a, Decision (P a)} (l : list A) :
  (forall i j a b, i <> j -> l !! i = Some a -> l !! j = Some b ->
                   P a -> P b -> f a <> f b) ->
  NoDup (map f (filter P l)).
Proof.
  induction l as [|a l IH]; intros Hdist; [constructor|].
  assert (Htail : NoDup (map f (filter P l))).
  { apply IH. intros i j x y Hne Hi Hj. apply (Hdist (S i) (S j)); auto. }
  rewrite filter_cons. destruct (decide (P a)) as [Ha|Ha]; [|exact Htail].
  simpl. apply NoDup_cons. split; [|exact Htail].
  intros Hin. apply list_elem_of_fmap in Hin as (b & Hfb & Hb).
  apply list_elem_of_filter in Hb as [HPb Hb].
  apply list_elem_of_lookup in Hb as [j Hj].
  apply (Hdist 0%nat (S j) a b); auto.
Qed.

Section AfterMove.
Variables (d : string) (tiles : list Tile.t).
Variables (g0 : list (list (option nat))) (h' : list Tile.t) (l' : Locals).
Hypothesis Hwf : well_formed tiles.
Hypothesis Hat : forall i s, tiles !! i = Some s -> gat g0 (cell s) = Some i.
Hypothesis HI : Inv d (reset_merged_flags tiles) g0 [] h' l'.

Lemma after_length : length h' = length tiles.
Proof. rewrite (inv_len _ _ _ _ _ _ HI). apply reset_length. Qed.

Lemma after_origin (i : nat) (s : Tile.t) :
  tiles !! i = Some s -> inb (cell s) /\ gat g0 (cell s) = Some i.
Proof.
  intros Hi. split; [|apply Hat, Hi].
  destruct Hwf as [_ Hin]. rewrite Forall_forall in Hin.
  apply Hin. eapply list_elem_of_lookup_2, Hi.
Qed.

(** A surviving tile sits in one cell of the final grid, and its target is
    that cell. *)
Lemma after_placed (i : nat) (s' : Tile.t) :
  h' !! i = Some s' -> Tile.to_remove s' = false ->
  exists p, inb p /\ gat (grid l') p = Some i /\ target s' = pixel p.
Proof.
  intros Hi Hal. apply list_lookup_alt in Hi as [Hlt <-].
  assert (Hlt' : (i < length tiles)%nat) by (rewrite <- after_length; exact Hlt).
  destruct (lookup_lt_is_Some_2 tiles i Hlt') as [s Hs].
  destruct (after_origin i s Hs) as [Hin Hg0].
  destruct (inv_alive _ _ _ _ _ _ HI i Hlt Hal) as (p & Hp & Hgp).
  { exists (cell s). split; assumption. }
  exists p. repeat split; try assumption.
  apply (inv_target _ _ _ _ _ _ HI p i Hp Hgp). apply not_elem_of_nil.
Qed.

Lemma after_distinct (i j : nat) (a b : Tile.t) :
  i <> j -> h' !! i = Some a -> h' !! j = Some b ->
  Tile.to_remove a = false -> Tile.to_remove b = false ->
  target_cell a <> target_cell b.
Proof.
  intros Hne Hi Hj Ha Hb E.
  destruct (after_placed i a Hi Ha) as (p & Hp & Hgp & Htp).
  destruct (after_placed j b Hj Hb) as (q & Hq & Hgq & Htq).
  rewrite (target_cell_pixel _ _ Htp), (target_cell_pixel _ _ Htq) in E.
  subst q. congruence.
Qed.

Lemma after_well_placed :
  NoDup (map target_cell (purge h'))
  /\ Forall (fun s => inb (target_cell s)) (purge h').
Proof.
  split.
  - apply NoDup_map_filter_lookup. intros i j a b. apply after_distinct.
  - apply Forall_forall. intros s Hs.
    apply list_elem_of_filter in Hs as [Hal Hs].
    apply list_elem_of_lookup in Hs as [i Hi].
    destruct (after_placed i s Hi Hal) as (p & Hp & _ & Htp).
    rewrite (target_cell_pixel _ _ Htp). exact Hp.
Qed.

End AfterMove.

Lemma resync_cells (ts : list Tile.t) :
  map cell (resync ts) = map target_cell ts.
Proof. unfold resync. rewrite map_map. apply map_ext. reflexivity. Qed.

(** C4: on a board with pairwise-distinct in-bounds cells, after [move] no
    two tiles left in the list have the same target cell, and every target
    cell is on the board; so the list is again such a board once the control
    loop has copied the target cells into [row] and [col]. *)
Theorem move_no_two_tiles_share_a_cell (tiles : list Tile.t) (d : string) :
  well_formed tiles -> valid_direction d = true ->
  exists m ts',
    move tiles d = (ts', Ret m)
    /\ NoDup (map target_cell ts')
    /\ Forall (fun s => inb (target_cell s)) ts'
    /\ well_formed (resync ts').
Proof.
  intros Hwf Hd.
  destruct (move_loop_wf d tiles Hwf Hd) as (g0 & h' & l' & Hat & Hout & Hrun & HI).
  destruct (after_well_placed d tiles g0 h' l' Hwf Hat HI) as [Hnd Hin].
  exists (moved l'), (purge h'). split; [apply move_of_loop, Hrun|].
  split; [exact Hnd|]. split; [exact Hin|]. split.
  - rewrite resync_cells. exact Hnd.
  - unfold resync. apply Forall_fmap. exact Hin.
Qed.

(** Well-formedness of a concrete board, by evaluation. *)
Ltac concrete_board :=
  split;
  [ match goal with
    | |- ?P => apply (@bool_decide_unpack P _); vm_compute; exact I
    end
  | repeat constructor ].

Lemma mk_row_0_well_formed : well_formed (mk_row 0 [2; 2; 4; 0]).
Proof. concrete_board. Qed.

Lemma move_no_two_tiles_share_a_cell_witness :
  exists m ts',
    move (mk_row 0 [2; 2; 4; 0]) "left" = (ts', Ret m)
    /\ NoDup (map target_cell ts')
    /\ Forall (fun s => inb (target_cell s)) ts'
    /\ well_formed (resync ts').
Proof.
  apply (move_no_two_tiles_share_a_cell (mk_row 0 [2; 2; 4; 0]) "left").
  - exact mk_row_0_well_formed.
  - reflexivity.
Defined.

(** C3: no tile merges twice within one [move].  [h'] holds the tile objects
    after the loop, position by position the objects of [tiles]; the list
    after the call is [purge h'].  Every tile either is not flagged merged
    and has its value of before the call, or is flagged merged, has exactly
    twice that value and stays in the list; and as many tiles were absorbed
    (flagged for removal) as tiles are flagged merged, so none absorbed two. *)
Theorem move_merges_at_most_once (tiles : list Tile.t) (d : string) :
  well_formed tiles -> valid_direction d = true ->
  exists m h',
    move_loop d tiles = (h', Ret m)
    /\ move tiles d = (purge h', Ret m)
    /\ length h' = length tiles
    /\ (forall i s s', tiles !! i = Some s -> h' !! i = Some s' ->
          (Tile.merged s' = false /\ Tile.value s' = Tile.value s)
          \/ (Tile.merged s' = true /\ Tile.value s' = Tile.value s * 2
              /\ Tile.to_remove s' = false))
    /\ count_removed h' = count_merged h'.
Proof.
  intros Hwf Hd.
  destruct (move_loop_wf d tiles Hwf Hd) as (g0 & h' & l' & Hat & Hout & Hrun & HI).
  exists (moved l'), h'. split; [exact Hrun|].
  split; [apply move_of_loop, Hrun|].
  split; [eapply after_length; eassumption|].
  split; [|exact (inv_count _ _ _ _ _ _ HI)].
  intros i s s' Hs Hs'. apply list_lookup_alt in Hs' as [Hlt <-].
  pose proof (lookup_lt_Some _ _ _ Hs) as Hlt0.
  assert (Hv0 : Tile.value (reset_merged_flags tiles !!! i) = Tile.value s).
  { rewrite reset_lookup by exact Hlt0.
    rewrite (list_lookup_total_correct _ _ _ Hs). reflexivity. }
  destruct (inv_value _ _ _ _ _ _ HI i Hlt) as [[Hm Hv]|(Hm & Hv & Hr & _)];
    rewrite Hv0 in Hv; [left|right]; auto.
Qed.

Lemma move_merges_at_most_once_witness :
  exists m h',
    move_loop "left" (mk_row 0 [2; 2; 4; 0]) = (h', Ret m)
    /\ move (mk_row 0 [2; 2; 4; 0]) "left" = (purge h', Ret m)
    /\ length h' = length (mk_row 0 [2; 2; 4; 0])
    /\ (forall i s s', mk_row 0 [2; 2; 4; 0] !! i = Some s -> h' !! i = Some s' ->
          (Tile.merged s' = false /\ Tile.value s' = Tile.value s)
          \/ (Tile.merged s' = true /\ Tile.value s' = Tile.value s * 2
              /\ Tile.to_remove s' = false))
    /\ count_removed h' = count_merged h'.
Proof.
  apply (move_merges_at_most_once (mk_row 0 [2; 2; 4; 0]) "left").
  - concrete_board.
  - reflexivity.
Defined.

(** C5: [move] conserves the total value.  The values of the tiles left in
    the list come from the values before the call by replacing, some number
    of times, two equal values [v] by one value [2 * v]; hence the sums are
    equal. *)
Theorem move_conserves_value (tiles : list Tile.t) (d : string) :
  well_formed tiles -> valid_direction d = true ->
  exists m ts',
    move tiles d = (ts', Ret m)
    /\ merged_from (map Tile.value tiles) (map Tile.value ts')
    /\ sum_values (map Tile.value ts') = sum_values (map Tile.value tiles).
Proof.
  intros Hwf Hd.
  destruct (move_loop_wf d tiles Hwf Hd) as (g0 & h' & l' & Hat & Hout & Hrun & HI).
  exists (moved l'), (purge h'). split; [apply move_of_loop, Hrun|].
  pose proof (inv_mass _ _ _ _ _ _ HI) as Hm.
  destruct (reset_summary tiles) as (_ & E & _). rewrite E in Hm.
  split; [exact Hm|]. symmetry. apply merged_from_sum, Hm.
Qed.

Lemma move_conserves_value_witness :
  exists m ts',
    move (mk_row 0 [2; 2; 4; 0]) "left" = (ts', Ret m)
    /\ merged_from (map Tile.value (mk_row 0 [2; 2; 4; 0])) (map Tile.value ts')
    /\ sum_values (map Tile.value ts')
       = sum_values (map Tile.value (mk_row 0 [2; 2; 4; 0])).
Proof.
  apply (move_conserves_value (mk_row 0 [2; 2; 4; 0]) "left").
  - concrete_board.
  - reflexivity.
Defined.

(** C10: for a valid direction, [move] either raises [IndexError] while it
    fills the grid (no merge was performed: the heap is the input with its
    flags reset), or returns; then every tile flagged [to_remove] is absent
    from the list after the call, and its target is the pixel position of a
    cell [q] one step short of the cell [q'] that is the target of a tile
    that stays in the list and is flagged merged; the two targets differ. *)
Theorem merged_from_tile_stops_one_short (tiles : list Tile.t) (d : string) :
  valid_direction d = true ->
  move_loop d tiles = (reset_merged_flags tiles, Raise IndexError)
  \/ exists m h',
       move_loop d tiles = (h', Ret m)
       /\ move tiles d = (purge h', Ret m)
       /\ forall i s, h' !! i = Some s -> Tile.to_remove s = true ->
            (s ∉ purge h')
            /\ exists q q' j sj,
                 inb q /\ next_pos d (fst q) (snd q) = Some q' /\ inb q'
                 /\ target s = pixel q
                 /\ h' !! j = Some sj /\ (sj ∈ purge h')
                 /\ Tile.merged sj = true
                 /\ target sj = pixel q'
                 /\ target s <> target sj.
Proof.
  intros Hd.
  destruct (move_loop_spec d tiles Hd) as [Hraise|(g0 & h' & l' & Hb & Hrun & HI)];
    [left; exact Hraise|right].
  exists (moved l'), h'. split; [exact Hrun|].
  split; [apply move_of_loop, Hrun|].
  intros i s Hs Hrm. split.
  { intros Hin. apply list_elem_of_filter in Hin as [Hal _]. congruence. }
  apply list_lookup_alt in Hs as [Hlt <-].
  destruct (inv_removed _ _ _ _ _ _ HI i Hlt Hrm)
    as (q & q' & j & Hq & Hn & Hq' & Ht & Hj & Hm & _ & _).
  destruct (inv_ref _ _ _ _ _ _ HI q' j Hq' Hj) as [Hjl Hjr].
  pose proof (inv_target _ _ _ _ _ _ HI q' j Hq' Hj (not_elem_of_nil _)) as Htj.
  pose proof (list_lookup_lookup_total_lt h' j Hjl) as Hjs.
  exists q, q', j, (h' !!! j). repeat split; try assumption.
  - apply list_elem_of_filter. split; [exact Hjr|].
    eapply list_elem_of_lookup_2, Hjs.
  - rewrite Ht, Htj. intros E. apply pixel_inj in E. subst q'.
    destruct (next_pos_geom d q Hd) as (q2 & Hn2 & _ & Hdist).
    rewrite Hn2 in Hn. injection Hn as ->. lia.
Qed.

Lemma merged_from_tile_stops_one_short_witness :
  move_loop "left" (mk_row 0 [2; 2; 4; 0])
  = (reset_merged_flags (mk_row 0 [2; 2; 4; 0]), Raise IndexError)
  \/ exists m h',
       move_loop "left" (mk_row 0 [2; 2; 4; 0]) = (h', Ret m)
       /\ move (mk_row 0 [2; 2; 4; 0]) "left" = (purge h', Ret m)
       /\ forall i s, h' !! i = Some s -> Tile.to_remove s = true ->
            (s ∉ purge h')
            /\ exists q q' j sj,
                 inb q /\ next_pos "left" (fst q) (snd q) = Some q' /\ inb q'
                 /\ target s = pixel q
                 /\ h' !! j = Some sj /\ (sj ∈ purge h')
                 /\ Tile.merged sj = true
                 /\ target sj = pixel q'
                 /\ target s <> target sj.
Proof.
  apply (merged_from_tile_stops_one_short (mk_row 0 [2; 2; 4; 0]) "left").
  reflexivity.
Defined.

(** ** Boards before and after *)

Lemma purge_all (h : list Tile.t) :
  Forall (fun s => Tile.to_remove s = false) h -> purge h = h.
Proof.
  induction 1 as [|s h Hs _ IH]; [reflexivity|].
  unfold purge in *. rewrite filter_cons_True by exact Hs. rewrite IH.
  reflexivity.
Qed.

Lemma value_at_is_Some (key : Tile.t -> Z * Z) (ts : list Tile.t) (p : Z * Z) :
  is_Some (value_at key ts p) <-> p ∈ map key ts.
Proof.
  induction ts as [|s ts IH]; simpl.
  - split; [intros [v Hv]; discriminate|intros H; inversion H].
  - rewrite elem_of_cons. destruct (decide (key s = p)) as [E|E].
    + split; [auto|eauto].
    + rewrite IH. split; [auto|intros [E'|H]; [congruence|exact H]].
Qed.

Lemma value_at_Forall2 (key1 key2 : Tile.t -> Z * Z)
    (ts ts' : list Tile.t) (p : Z * Z) :
  Forall2 (fun s s' => key2 s' = key1 s /\ Tile.value s' = Tile.value s) ts ts' ->
  value_at key2 ts' p = value_at key1 ts p.
Proof.
  induction 1 as [|s s' ts ts' [Hk Hv] _ IH]; simpl; [reflexivity|].
  rewrite Hk, Hv, IH. reflexivity.
Qed.

Lemma all_cells_NoDup : NoDup all_cells.
Proof.
  match goal with
  | |- ?P => apply (@bool_decide_unpack P _); vm_compute; exact I
  end.
Qed.

(** On a board with distinct in-bounds cells as many cells are occupied as
    there are tiles. *)
Lemma occupied_count (key : Tile.t -> Z * Z) (ts : list Tile.t) :
  NoDup (map key ts) -> Forall (fun s => inb (key s)) ts ->
  length (filter (fun p => is_Some (value_at key ts p)) all_cells) = length ts.
Proof.
  intros Hnd Hin. rewrite <- (length_map key ts).
  apply Permutation_length, NoDup_Permutation.
  - apply NoDup_filter, all_cells_NoDup.
  - exact Hnd.
  - intros p. rewrite list_elem_of_filter, value_at_is_Some, <- inb_all_cells.
    split; [tauto|]. intros Hp. split; [exact Hp|].
    apply list_elem_of_fmap in Hp as (s & -> & Hs).
    rewrite Forall_forall in Hin. apply Hin, Hs.
Qed.

Lemma filter_occupied_ext (f g : Z * Z -> option Z) (cells : list (Z * Z)) :
  (forall p, p ∈ cells -> f p = g p) ->
  filter (fun p => is_Some (f p)) cells = filter (fun p => is_Some (g p)) cells.
Proof.
  induction cells as [|c cells IH]; intros Hext; [reflexivity|].
  rewrite !filter_cons, (Hext c) by (apply elem_of_cons; auto).
  rewrite IH by (intros p Hp; apply Hext, elem_of_cons; auto).
  reflexivity.
Qed.

(** C2: on a board with pairwise-distinct in-bounds cells and for a valid
    direction, [move] returns, and it returns [False] exactly when the board
    read off the targets of the tiles left in the list shows, in every cell,
    what the board before the call showed; and when it returns [False]
    every tile's target is the pixel position of its logical cell. *)
Theorem move_false_iff_board_unchanged (tiles : list Tile.t) (d : string) :
  well_formed tiles -> valid_direction d = true ->
  exists m ts',
    move tiles d = (ts', Ret m)
    /\ (m = false <->
        forall p, inb p -> value_at target_cell ts' p = value_at cell tiles p)
    /\ (m = false -> Forall (fun s => target s = pixel (cell s)) ts').
Proof.
  intros Hwf Hd.
  destruct (move_loop_wf d tiles Hwf Hd) as (g0 & h' & l' & Hat & Hout & Hrun & HI).
  pose proof (after_length d tiles g0 h' l' HI) as Hlen.
  pose proof (move_loop_untouched d tiles) as Hunt.
  rewrite Hrun in Hunt. simpl in Hunt.
  exists (moved l'), (purge h'). split; [apply move_of_loop, Hrun|].
  assert (Hstill : moved l' = false ->
            purge h' = h'
            /\ Forall2 (fun s s' => target s' = pixel (cell s')
                                    /\ target_cell s' = cell s
                                    /\ Tile.value s' = Tile.value s) tiles h').
  { intros Hm. destruct (inv_still _ _ _ _ _ _ HI Hm) as [Hg Hv].
    assert (Hal : forall i s', h' !! i = Some s' -> Tile.to_remove s' = false).
    { intros i s' Hi. apply list_lookup_alt in Hi as [Hlt <-]. apply Hv, Hlt. }
    split.
    - apply purge_all, Forall_forall. intros s' Hs'.
      apply list_elem_of_lookup in Hs' as [i Hi]. eapply Hal, Hi.
    - apply Forall2_same_length_lookup_2; [symmetry; exact Hlen|].
      intros i s s' Hs Hs'.
      destruct (after_origin tiles g0 Hwf Hat i s Hs) as [Hin Hg0].
      destruct (after_placed d tiles g0 h' l' Hwf Hat HI i s' Hs' (Hal i s' Hs'))
        as (p & Hp & Hgp & Htp).
      assert (p = cell s) as ->.
      { apply (inv_inj _ _ _ _ _ _ HI p (cell s) i Hp Hin Hgp).
        rewrite Hg by exact Hin. exact Hg0. }
      destruct (Forall2_lookup_lr _ _ _ _ _ _ Hunt Hs Hs') as (Hr & Hc & _).
      assert (Hcell : cell s' = cell s) by (unfold cell; congruence).
      rewrite Hcell. split; [exact Htp|].
      split; [apply target_cell_pixel, Htp|].
      apply list_lookup_alt in Hs' as [Hlt <-].
      destruct (Hv i Hlt) as [-> _]. rewrite reset_lookup by (rewrite <- Hlen; exact Hlt).
      rewrite (list_lookup_total_correct _ _ _ Hs). reflexivity. }
  split; [split|].
  - intros Hm p _. destruct (Hstill Hm) as [-> HF].
    apply value_at_Forall2. eapply Forall2_impl; [exact HF|].
    intros s s' (_ & ? & ?). auto.
  - intros Hsame. destruct (moved l') eqn:Hm; [exfalso|reflexivity].
    destruct (after_well_placed d tiles g0 h' l' Hwf Hat HI) as [Hnd Hin].
    destruct (inv_moved _ _ _ _ _ _ HI Hm)
      as [(i & Hi & Hrm)|(c & Hc & Hc0 & [k Hk] & _)].
    + (* a tile was removed: fewer cells are occupied *)
      pose proof (occupied_count target_cell (purge h') Hnd Hin) as Hafter.
      destruct Hwf as [Hnd0 Hin0].
      pose proof (occupied_count cell tiles Hnd0 Hin0) as Hbefore.
      rewrite (filter_occupied_ext _ (value_at cell tiles)) in Hafter
        by (intros p Hp; apply Hsame, inb_all_cells, Hp).
      rewrite Hbefore in Hafter.
      assert (Hlt : (length (purge h') < length h')%nat).
      { unfold purge. eapply (length_filter_lt _ _ (h' !!! i)).
        - eapply list_elem_of_lookup_2, list_lookup_lookup_total_lt, Hi.
        - congruence. }
      lia.
    + (* a cell that was free is occupied *)
      destruct (inv_ref _ _ _ _ _ _ HI c k Hc Hk) as [Hkl Hkr].
      pose proof (inv_target _ _ _ _ _ _ HI c k Hc Hk (not_elem_of_nil _)) as Htk.
      assert (Hs1 : is_Some (value_at target_cell (purge h') c)).
      { apply value_at_is_Some, list_elem_of_fmap. exists (h' !!! k). split.
        - symmetry. apply target_cell_pixel, Htk.
        - apply list_elem_of_filter. split; [exact Hkr|].
          eapply list_elem_of_lookup_2, list_lookup_lookup_total_lt, Hkl. }
      rewrite (Hsame c Hc) in Hs1. apply value_at_is_Some in Hs1.
      apply list_elem_of_fmap in Hs1 as (s & Hcs & Hs).
      apply list_elem_of_lookup in Hs as [n Hn].
      specialize (Hat n s Hn). congruence.
  - intros Hm. destruct (Hstill Hm) as [-> HF].
    apply (Forall2_Forall_r _ _ _ _ HF). apply Forall_forall.
    intros s _ s' (? & _). assumption.
Qed.

Lemma move_false_iff_board_unchanged_witness :
  exists m ts',
    move (mk_row 0 [2; 4; 2; 0]) "left" = (ts', Ret m)
    /\ (m = false <->
        forall p, inb p ->
          value_at target_cell ts' p = value_at cell (mk_row 0 [2; 4; 2; 0]) p)
    /\ (m = false -> Forall (fun s => target s = pixel (cell s)) ts').
Proof.
  apply (move_false_iff_board_unchanged (mk_row 0 [2; 4; 2; 0]) "left").
  - concrete_board.
  - reflexivity.
Defined.

(** ** Invalid directions *)

(** C1, as stated, fails: with a direction that is none of the four, [move]
    does not return [False] but raises, and it has reset the flags. *)
Lemma move_invalid_direction_counterexample :
  valid_direction "north" = false
  /\ move [Tile.set_merged true (Tile.init 2 0 0)] "north"
     = ([Tile.init 2 0 0], Raise TypeError)
  /\ move [Tile.set_merged true (Tile.init 2 0 0)] "north"
     <> ([Tile.set_merged true (Tile.init 2 0 0)], Ret false).
Proof. repeat split. vm_compute. discriminate. Qed.

Lemma move_invalid_direction_raises_aux (tiles : list Tile.t) (d : string) :
  valid_direction d = false ->
  move tiles d = (reset_merged_flags tiles, Raise IndexError)
  \/ move tiles d = (reset_merged_flags tiles, Raise TypeError).
Proof.
  intros Hd. unfold move. rewrite move_loop_unfold.
  rewrite (invalid_direction_traverse d Hd).
  destruct (build_grid_cases (reset_merged_flags tiles)) as [[g0 ->]| ->];
    auto.
Qed.

(** ** The frame of [move] *)

(** C9, as stated, fails: a merge also restarts the countdown of the tile
    merged into, a field the claim takes to be unchanged. *)
Lemma move_frame_counterexample :
  valid_direction "left" = true
  /\ map Tile.merge_anim_counter (mk_row 0 [2; 2; 0; 0]) = [0; 0]
  /\ map Tile.merge_anim_counter (fst (move_loop "left" (mk_row 0 [2; 2; 0; 0])))
     = [8; 0]
  /\ ~ Forall2 untouched_as_claimed (mk_row 0 [2; 2; 0; 0])
         (fst (move_loop "left" (mk_row 0 [2; 2; 0; 0]))).
Proof.
  repeat split. intros HF. vm_compute in HF.
  inversion HF as [|? ? ? ? (_ & _ & _ & _ & E) _]. discriminate.
Qed.

(** C9, amended: whatever the direction and the outcome, [move] leaves
    [row], [col], [x] and [y] of every tile object as they were; it leaves
    [merge_anim_counter] as it was on every tile it has not flagged
    [merged], and at [MERGE_ANIM_DURATION] on the tiles it has flagged
    [merged], those a tile was merged into; the list after a call that
    returns is the list of these objects without those flagged [to_remove],
    and after a call that raises no object is gone. *)
Theorem move_frame (tiles : list Tile.t) (d : string) :
  Forall2 framed tiles (fst (move_loop d tiles))
  /\ fst (move tiles d)
     = match snd (move_loop d tiles) with
       | Ret _ => purge (fst (move_loop d tiles))
       | _ => fst (move_loop d tiles)
       end.
Proof.
  split; [apply move_loop_framed|].
  unfold move. destruct (move_loop d tiles) as [h [m|e|]]; reflexivity.
Qed.

(** [move] always returns or raises: the fuel of the inner loop suffices. *)
Lemma move_total (tiles : list Tile.t) (d : string) :
  snd (move tiles d) <> OutOfFuel.
Proof.
  destruct (valid_direction d) eqn:Hd.
  - destruct (move_loop_spec d tiles Hd) as [Hr|(g0 & h' & l' & _ & Hrun & _)];
      unfold move; [rewrite Hr|rewrite Hrun]; discriminate.
  - destruct (move_invalid_direction_raises_aux tiles d Hd) as [-> | ->];
      discriminate.
Qed.

(** ** The merge countdown in the control loop *)

Lemma update_position_counter (s : Tile.t) :
  Tile.merge_anim_counter (fst (Tile.update_position s))
  = Tile.merge_anim_counter s.
Proof.
  unfold Tile.update_position.
  repeat match goal with
         | |- context [if ?b then _ else _] => destruct b; simpl
         end; reflexivity.
Qed.

Lemma quit_events_tiles (evs : list event) (g : Game) :
  tiles (quit_events evs g) = tiles g.
Proof.
  induction evs as [|[| |] evs IH]; simpl; auto.
Qed.

(** In a frame in which an animation is on, no tile is sliding, some
    countdown is at 2 or more and the tiles can be drawn, every countdown is
    decremented by the merge loop of [main] and then again by [Tile.draw]. *)
Lemma frame_merge_phase (evs : list event) (choice : nat) (rnd : Q) (g : Game) :
  animating g || merge_animation_running g = true ->
  snd (update_positions (tiles g)) = false ->
  (exists s, s ∈ tiles g /\ 2 <= Tile.merge_anim_counter s) ->
  Forall (fun s => drawable (fst (Tile.update_position s))) (tiles g) ->
  exists g',
    frame evs choice rnd g = Ret g'
    /\ map Tile.merge_anim_counter (tiles g')
       = map (fun s => twice_down (Tile.merge_anim_counter s)) (tiles g).
Proof.
  intros Hphase Hstill (s & Hs & Hc) Hdraw.
  set (ts := map (fun s => fst (Tile.update_position s)) (tiles g)).
  set (s1 := fst (Tile.update_position s)).
  assert (Hs1 : s1 ∈ ts) by (apply list_elem_of_fmap; exists s; auto).
  assert (Hc1 : Tile.merge_anim_counter s1 = Tile.merge_anim_counter s)
    by apply update_position_counter.
  assert (Hmar : (if merge_animation_running g then true
                  else match filter (fun s => Tile.merge_anim_counter s > 0) ts with
                       | [] => false
                       | _ :: _ => true
                       end) = true).
  { destruct (merge_animation_running g); [reflexivity|].
    destruct (filter _ ts) as [|a l] eqn:E; [|reflexivity].
    assert (Hin : s1 ∈ filter (fun s => Tile.merge_anim_counter s > 0) ts)
      by (apply list_elem_of_filter; split; [lia|exact Hs1]).
    rewrite E in Hin. inversion Hin. }
  assert (Hnz : forallb (fun s => Tile.merge_anim_counter s =? 0)
                  (progress_merges ts) = false).
  { destruct (forallb _ _) eqn:E; [|reflexivity].
    rewrite forallb_forall in E.
    specialize (E (if Tile.merge_anim_counter s1 >? 0
                   then Tile.set_merge_anim_counter (Tile.merge_anim_counter s1 - 1) s1
                   else s1)).
    assert (Hgt : (Tile.merge_anim_counter s1 >? 0) = true)
      by (apply Z.gtb_lt; lia).
    rewrite Hgt in E. simpl in E.
    assert (HE : (Tile.merge_anim_counter s1 - 1 =? 0) = true).
    { apply E. apply list_elem_of_In. unfold progress_merges.
      apply list_elem_of_fmap. exists s1. rewrite Hgt. auto. }
    apply Z.eqb_eq in HE. lia. }
  assert (Hrun : animate choice rnd g
                 = Ret (mkGame (progress_merges ts) (running g) (animating g) true)).
  { unfold animate, update_positions. fold ts.
    unfold update_positions in Hstill. simpl in Hstill. rewrite Hstill.
    rewrite Hmar, Hnz. reflexivity. }
  unfold frame.
  assert (Hidle : negb (animating g) && negb (merge_animation_running g) = false).
  { destruct (animating g), (merge_animation_running g); try reflexivity.
    discriminate. }
  assert (Hall : Forall drawable (progress_merges ts)).
  { unfold progress_merges, ts. rewrite !Forall_fmap.
    eapply Forall_impl; [exact Hdraw|]. intros a Ha. simpl.
    apply (drawn_drawable _ Ha). }
  rewrite Hidle, Hrun, quit_events_tiles. cbn [tiles].
  rewrite (draw_all _ Hall). eexists. split; [reflexivity|]. cbn [tiles].
  unfold progress_merges, ts. rewrite !map_map. apply map_ext.
  intros a. fold (drawn (fst (Tile.update_position a))).
  rewrite !drawn_counter, update_position_counter. unfold twice_down.
  destruct (Z.gtb_spec (Tile.merge_anim_counter a) 0) as [H1|H1].
  - destruct (_ >? 0); lia.
  - destruct (Z.gtb_spec (Tile.merge_anim_counter a) 0); [lia|reflexivity].
Qed.

Example merging_game_reached :
  frame [KEYDOWN K_LEFT] 0 (1 # 2)
        (mkGame (mk_row 0 [2; 2; 0; 0]) true false false)
  = Ret (merging_game 7 false).
Proof. vm_compute. reflexivity. Qed.

(** C8 fails on the code: in a frame of the merge phase the countdown of a
    tile is decremented once by the loop of [main] and once more by
    [Tile.draw]; it goes from 7 to 5, from 5 to 3, from 3 to 1.  Already the
    frame of the move takes it from 8 to 7 through [Tile.draw].  The lemma
    [frame_merge_phase] above shows the same for every such frame. *)
Theorem merge_countdown_decremented_twice :
  frame [] 0 (1 # 2) (merging_game 7 false) = Ret (merging_game 5 true)
  /\ frame [] 0 (1 # 2) (merging_game 5 true) = Ret (merging_game 3 true)
  /\ frame [] 0 (1 # 2) (merging_game 3 true) = Ret (merging_game 1 true).
Proof. repeat split; vm_compute; reflexivity. Qed.

(** ** The spawn policy *)

Lemma available_spec (ts : list Tile.t) (p : Z * Z) :
  p ∈ available ts <-> free_cell ts p.
Proof.
  unfold available, free_cell, occupied.
  rewrite list_elem_of_filter, elem_of_list_to_set, <- inb_all_cells. tauto.
Qed.

Lemma available_NoDup (ts : list Tile.t) : NoDup (available ts).
Proof. apply NoDup_filter, all_cells_NoDup. Qed.

Lemma available_nil (ts : list Tile.t) :
  available ts = [] <-> forall p, inb p -> p ∈ map cell ts.
Proof.
  split.
  - intros E p Hp. destruct (decide (p ∈ map cell ts)) as [|Hn]; [assumption|].
    assert (Hin : p ∈ available ts) by (apply available_spec; split; assumption).
    rewrite E in Hin. inversion Hin.
  - intros Hall. destruct (available ts) as [|p av] eqn:E; [reflexivity|].
    assert (Hin : p ∈ available ts) by (rewrite E; left).
    apply available_spec in Hin as [Hp Hn]. destruct Hn. apply Hall, Hp.
Qed.

Lemma new_value_cases (rnd : Q) :
  (new_value rnd = 4 <-> (rnd < FLOAT_0_1)%Q)
  /\ (new_value rnd = 2 <-> (FLOAT_0_1 <= rnd)%Q).
Proof.
  unfold new_value. destruct (Qle_bool FLOAT_0_1 rnd) eqn:E.
  - apply Qle_bool_iff in E. split; split; try discriminate; auto.
    intros Hlt. exfalso. eapply Qlt_not_le; eassumption.
  - assert (Hlt : (rnd < FLOAT_0_1)%Q).
    { apply Qnot_le_lt. intros Hle. apply Qle_bool_iff in Hle. congruence. }
    split; split; try discriminate; auto.
    intros Hle. exfalso. eapply Qlt_not_le; eassumption.
Qed.

(** The samples of [random.random()] below the float [0.1] are the first
    900719925474100 of the [2 ^ 53]. *)
Lemma new_value_sample (k : Z) :
  new_value (random_random k) = 4 <-> k < 900719925474100.
Proof.
  rewrite (proj1 (new_value_cases _)).
  unfold Qlt, random_random, FLOAT_0_1. cbn [Qnum Qden]. lia.
Qed.

Lemma spawn_tile_empty (rnd : Q) :
  spawn_tile 0 rnd [] = ([Tile.init (new_value rnd) 0 0], true).
Proof. reflexivity. Qed.

(** C7, as stated, fails in its probabilities.  [random.random()] returns
    one of the [2 ^ 53] floats [k / 2 ^ 53], each as likely as the others;
    on the empty board the new tile has value 4 for the first
    900719925474100 of them, which is not one in ten: ten times as many are
    8 more than [2 ^ 53]. *)
Lemma spawn_tile_probability_counterexample :
  (forall k, 0 <= k < 2 ^ 53 ->
     (spawn_tile 0 (random_random k) [] = ([Tile.init 4 0 0], true)
      <-> k < 900719925474100))
  /\ 10 * 900719925474100 <> 2 ^ 53.
Proof.
  split.
  - intros k _. rewrite spawn_tile_empty, <- new_value_sample. split.
    + intros E. injection E as E. exact E.
    + intros ->. reflexivity.
  - intros E. vm_compute in E. discriminate.
Qed.

(** Every free cell is at exactly one position of [available]. *)
Lemma available_position (ts : list Tile.t) (p : Z * Z) :
  free_cell ts p ->
  exists i, available ts !! i = Some p
            /\ forall j, available ts !! j = Some p -> j = i.
Proof.
  intros Hp. apply available_spec, list_elem_of_lookup in Hp as [i Hi].
  exists i. split; [exact Hi|]. intros j Hj.
  eapply NoDup_lookup; [apply available_NoDup|exact Hj|exact Hi].
Qed.

(** C7, amended: [spawn_tile] returns [False] with the list unchanged
    exactly when no cell is free.  Otherwise it returns [True] and appends
    one tile to the otherwise unchanged list.  The new tile is in the free
    cell at the drawn position of [available], at rest on the pixels of that
    cell, not flagged, its countdown at zero; every free cell is at exactly
    one position of [available], so a uniform draw of the position is a
    uniform draw of the free cell.  Its value is 4 when the sample of
    [random.random()] is below the float [0.1] and 2 otherwise; of the
    [2 ^ 53] equally likely samples [k / 2 ^ 53] the first 900719925474100
    give a 4, that is 8 in [10 * 2 ^ 53] more than one in ten. *)
Theorem spawn_tile_spec (choice : nat) (rnd : Q) (ts : list Tile.t) :
  (spawn_tile choice rnd ts = (ts, false) <-> forall p, inb p -> p ∈ map cell ts)
  /\ ((exists p, free_cell ts p) ->
      exists p s,
        available ts !! (choice mod length (available ts))%nat = Some p
        /\ free_cell ts p
        /\ spawn_tile choice rnd ts = (ts ++ [s], true)
        /\ cell s = p
        /\ (Tile.x s, Tile.y s) = pixel p /\ target s = pixel p
        /\ Tile.merged s = false /\ Tile.to_remove s = false
        /\ Tile.merge_anim_counter s = 0
        /\ (Tile.value s = 4 <-> (rnd < FLOAT_0_1)%Q)
        /\ (Tile.value s = 2 <-> (FLOAT_0_1 <= rnd)%Q)
        /\ (forall k, (rnd == random_random k)%Q ->
              (Tile.value s = 4 <-> k < 900719925474100)))
  /\ (forall p, p ∈ available ts <-> free_cell ts p)
  /\ (forall p, free_cell ts p ->
        exists i, available ts !! i = Some p
                  /\ forall j, available ts !! j = Some p -> j = i)
  /\ 10 * 900719925474100 = 2 ^ 53 + 8.
Proof.
  split; [|split; [|split; [apply available_spec|split;
    [apply available_position|reflexivity]]]].
  - rewrite <- available_nil. unfold spawn_tile.
    destruct (available ts) as [|p av]; split; try reflexivity;
      try discriminate.
  - intros [p0 Hp0]. apply available_spec in Hp0. unfold spawn_tile.
    destruct (available ts) as [|rc0 av] eqn:E; [inversion Hp0|].
    set (k := (choice mod length (rc0 :: av))%nat).
    assert (Hk : (k < length (rc0 :: av))%nat)
      by (apply Nat.mod_upper_bound; simpl; lia).
    destruct (lookup_lt_is_Some_2 _ _ Hk) as [p Hp].
    exists p, (Tile.init (new_value rnd) (fst p) (snd p)).
    split; [exact Hp|]. split.
    { apply available_spec. rewrite E. eapply list_elem_of_lookup_2, Hp. }
    split.
    { cbv beta iota. change (choice mod length (rc0 :: av))%nat with k.
      rewrite nth_lookup, Hp. reflexivity. }
    destruct p as [r c]. cbn [Tile.init cell pixel target fst snd Tile.row
      Tile.col Tile.x Tile.y Tile.target_x Tile.target_y Tile.merged
      Tile.to_remove Tile.merge_anim_counter Tile.value].
    repeat (split; [reflexivity|]).
    split; [apply new_value_cases|]. split; [apply new_value_cases|].
    intros j Hj. rewrite <- new_value_sample.
    rewrite !(proj1 (new_value_cases _)), Hj. reflexivity.
Qed.

Lemma spawn_tile_spec_witness :
  exists p s,
    available (mk_row 0 [2; 2; 4; 0])
      !! (5 mod length (available (mk_row 0 [2; 2; 4; 0])%Z))%nat = Some p
    /\ free_cell (mk_row 0 [2; 2; 4; 0]) p
    /\ spawn_tile 5 (random_random 7) (mk_row 0 [2; 2; 4; 0])
       = (mk_row 0 [2; 2; 4; 0] ++ [s], true)
    /\ cell s = p
    /\ (Tile.x s, Tile.y s) = pixel p /\ target s = pixel p
    /\ Tile.merged s = false /\ Tile.to_remove s = false
    /\ Tile.merge_anim_counter s = 0
    /\ (Tile.value s = 4 <-> (random_random 7 < FLOAT_0_1)%Q)
    /\ (Tile.value s = 2 <-> (FLOAT_0_1 <= random_random 7)%Q)
    /\ (forall k, (random_random 7 == random_random k)%Q ->
          (Tile.value s = 4 <-> k < 900719925474100)).
Proof.
  apply (proj1 (proj2 (spawn_tile_spec 5 (random_random 7)
                         (mk_row 0 [2; 2; 4; 0])))).
  exists (0, 3). split; [reflexivity|].
  match goal with
  | |- ?P => apply (@bool_decide_unpack P _); vm_compute; exact I
  end.
Defined.

(** ** The game-over test *)

Lemma equal_neighbour_inb (g : list (list Z)) (guard : bool) (r c r' c' : Z) :
  grid_shape g -> inb (r, c) -> (guard = true -> inb (r', c')) ->
  equal_neighbour g guard r c r' c'
  = Ret (guard && (gat g (r, c) =? gat g (r', c'))).
Proof.
  intros Hs Hp Hq. unfold equal_neighbour. destruct guard; [|reflexivity].
  pose proof (grid_get_inb g (r, c) Hs Hp) as E1.
  pose proof (grid_get_inb g (r', c') Hs (Hq eq_refl)) as E2.
  simpl in E1, E2. rewrite E1, E2. reflexivity.
Qed.

Lemma scan_pairs_spec (g : list (list Z)) (cells : list (Z * Z)) :
  grid_shape g -> Forall inb cells ->
  exists b,
    scan_pairs g cells = Ret b
    /\ (b = true <->
        exists p, p ∈ cells
          /\ ((snd p + 1 < COLS /\ gat g p = gat g (fst p, snd p + 1))
              \/ (fst p + 1 < ROWS /\ gat g p = gat g (fst p + 1, snd p)))).
Proof.
  intros Hs. induction cells as [|[r c] cells IH]; intros Hin.
  - exists false. split; [reflexivity|]. split; [discriminate|].
    intros (p & Hp & _). inversion Hp.
  - apply Forall_cons in Hin as [Hp Hin]. destruct (IH Hin) as (b & Hrun & Hb).
    pose proof Hp as Hbounds. apply inb_bounds in Hbounds. simpl in Hbounds.
    simpl.
    rewrite (equal_neighbour_inb g (c + 1 <? COLS) r c r (c + 1) Hs Hp).
    2:{ intros Hg. apply Z.ltb_lt in Hg. apply inb_bounds. simpl. lia. }
    rewrite (equal_neighbour_inb g (r + 1 <? ROWS) r c (r + 1) c Hs Hp).
    2:{ intros Hg. apply Z.ltb_lt in Hg. apply inb_bounds. simpl. lia. }
    destruct ((c + 1 <? COLS) && (gat g (r, c) =? gat g (r, c + 1))) eqn:E1.
    { exists true. split; [reflexivity|]. split; [|reflexivity]. intros _.
      apply andb_true_iff in E1 as [E1 E2].
      apply Z.ltb_lt in E1. apply Z.eqb_eq in E2.
      exists (r, c). split; [left|]. left. auto. }
    destruct ((r + 1 <? ROWS) && (gat g (r, c) =? gat g (r + 1, c))) eqn:E2.
    { exists true. split; [reflexivity|]. split; [|reflexivity]. intros _.
      apply andb_true_iff in E2 as [E2 E3].
      apply Z.ltb_lt in E2. apply Z.eqb_eq in E3.
      exists (r, c). split; [left|]. right. auto. }
    exists b. split; [exact Hrun|]. rewrite Hb. split.
    + intros (p & Hpc & Hcase). exists p. split; [right; exact Hpc|exact Hcase].
    + intros (p & Hpc & Hcase). apply elem_of_cons in Hpc as [->|Hpc].
      * exfalso. simpl in Hcase.
        apply andb_false_iff in E1. apply andb_false_iff in E2.
        rewrite !Z.ltb_ge, !Z.eqb_neq in *. 
        destruct Hcase as [[? ?]|[? ?]]; [destruct E1|destruct E2]; lia || congruence.
      * exists p. auto.
Qed.

Lemma value_at_lookup (key : Tile.t -> Z * Z) (ts : list Tile.t)
    (n : nat) (s : Tile.t) :
  NoDup (map key ts) -> ts !! n = Some s ->
  value_at key ts (key s) = Some (Tile.value s).
Proof.
  revert n. induction ts as [|a ts IH]; intros n Hnd Hn; [discriminate|].
  simpl in Hnd. apply NoDup_cons in Hnd as [Hfresh Hnd]. simpl.
  destruct n as [|n]; simpl in Hn.
  - injection Hn as ->. rewrite decide_True; reflexivity.
  - destruct (decide (key a = key s)) as [E|E]; [|eapply IH; eassumption].
    destruct Hfresh. rewrite E. apply list_elem_of_fmap. exists s.
    split; [reflexivity|]. eapply list_elem_of_lookup_2, Hn.
Qed.

Lemma all_cells_length : length all_cells = 16%nat.
Proof. reflexivity. Qed.

Lemma board_full_length (ts : list Tile.t) :
  well_formed ts ->
  (board_full ts <-> ~ Z.of_nat (length ts) < ROWS * COLS).
Proof.
  intros [Hnd Hin]. unfold board_full. change (ROWS * COLS) with 16. split.
  - intros Hfull.
    assert (Hsub : all_cells ⊆+ map cell ts).
    { apply NoDup_submseteq; [apply all_cells_NoDup|].
      intros p Hp. apply Hfull, inb_all_cells, Hp. }
    apply submseteq_length in Hsub.
    rewrite all_cells_length, length_map in Hsub. lia.
  - intros Hlen.
    assert (Hsub : map cell ts ⊆+ all_cells).
    { apply NoDup_submseteq; [exact Hnd|]. intros p Hp.
      apply list_elem_of_fmap in Hp as (s & -> & Hs).
      apply inb_all_cells. rewrite Forall_forall in Hin. apply Hin, Hs. }
    apply submseteq_length_Permutation in Hsub.
    + intros p Hp. rewrite Hsub. apply inb_all_cells, Hp.
    + rewrite all_cells_length, length_map. lia.
Qed.

Lemma adjacent_cases (p q : Z * Z) :
  adjacent p q <->
  (q = (fst p, snd p + 1) \/ p = (fst q, snd q + 1)
   \/ q = (fst p + 1, snd p) \/ p = (fst q + 1, snd q)).
Proof.
  unfold adjacent. destruct p as [r c], q as [r' c']. simpl. split.
  - intros H.
    assert ((r' = r /\ c' = c + 1) \/ (r = r' /\ c = c' + 1)
            \/ (r' = r + 1 /\ c' = c) \/ (r = r' + 1 /\ c = c')) as Hc by lia.
    destruct Hc as [[-> ->]|[[-> ->]|[[-> ->]|[-> ->]]]]; auto.
  - intros [[= -> ->]|[[= -> ->]|[[= -> ->]|[= -> ->]]]]; lia.
Qed.

(** C6: on a board with pairwise-distinct in-bounds cells [can_move]
    returns, and it returns [False] exactly when no cell is empty and no two
    adjacent cells show the same value. *)
Theorem can_move_false_iff (ts : list Tile.t) :
  well_formed ts ->
  exists b,
    can_move ts = Ret b
    /\ (b = false <-> board_full ts /\ ~ equal_neighbours ts).
Proof.
  intros Hwf. pose proof (board_full_length ts Hwf) as Hfull.
  unfold can_move. destruct (Z.ltb_spec (Z.of_nat (length ts)) (ROWS * COLS)) as [Hlt|Hge].
  { exists true. split; [reflexivity|]. split; [discriminate|].
    intros [Hf _]. apply Hfull in Hf. contradiction. }
  assert (Hf : board_full ts) by (apply Hfull; lia).
  destruct Hwf as [Hnd Hin].
  destruct (fill_with_wf (fun _ s => Tile.value s) ts Hnd Hin 0%nat
              (replicate (Z.to_nat ROWS) (replicate (Z.to_nat COLS) 0)))
    as (g & Hrun & Hs & Hat & _).
  { split; [reflexivity|]. repeat constructor. }
  rewrite (fill_values_fill ts 0), Hrun.
  assert (Hval : forall p, inb p -> value_at cell ts p = Some (gat g p)).
  { intros p Hp. specialize (Hf p Hp).
    apply list_elem_of_fmap in Hf as (s & -> & Hsin).
    apply list_elem_of_lookup in Hsin as [n Hn].
    rewrite (value_at_lookup cell ts n s Hnd Hn), (Hat n s Hn). reflexivity. }
  destruct (scan_pairs_spec g all_cells Hs) as (b & Hscan & Hb).
  { apply Forall_forall. intros p. apply inb_all_cells. }
  exists b. split; [exact Hscan|].
  assert (Heq : b = true <-> equal_neighbours ts).
  { rewrite Hb. split.
    - intros (p & Hp & Hcase). apply inb_all_cells in Hp.
      pose proof Hp as Hbounds. apply inb_bounds in Hbounds.
      destruct Hcase as [[Hlt E]|[Hlt E]].
      + assert (Hq : inb (fst p, snd p + 1)) by (apply inb_bounds; simpl; lia).
        exists p, (fst p, snd p + 1), (gat g p).
        rewrite !Hval, E by assumption. repeat split; try assumption.
        apply adjacent_cases. auto.
      + assert (Hq : inb (fst p + 1, snd p)) by (apply inb_bounds; simpl; lia).
        exists p, (fst p + 1, snd p), (gat g p).
        rewrite !Hval, E by assumption. repeat split; try assumption.
        apply adjacent_cases. auto.
    - intros (p & q & v & Hp & Hq & Hadj & Hvp & Hvq).
      rewrite Hval in Hvp, Hvq by assumption.
      assert (E : gat g p = gat g q) by congruence.
      pose proof Hp as Hbp. apply inb_bounds in Hbp.
      pose proof Hq as Hbq. apply inb_bounds in Hbq.
      apply adjacent_cases in Hadj as [-> | [-> | [-> | ->]]]; simpl in *.
      + exists p. split; [apply inb_all_cells, Hp|]. left. split; [lia|exact E].
      + exists q. split; [apply inb_all_cells, Hq|]. left. split; [lia|].
        symmetry. exact E.
      + exists p. split; [apply inb_all_cells, Hp|]. right. split; [lia|exact E].
      + exists q. split; [apply inb_all_cells, Hq|]. right. split; [lia|].
        symmetry. exact E. }
  split.
  - intros ->. split; [exact Hf|]. intros Hn. apply Heq in Hn. discriminate.
  - intros [_ Hn]. destruct b; [|reflexivity]. destruct Hn. apply Heq. reflexivity.
Qed.

Lemma can_move_false_iff_witness :
  exists b,
    can_move (mk_row 0 [2; 2; 4; 0]) = Ret b
    /\ (b = false <->
        board_full (mk_row 0 [2; 2; 4; 0])
        /\ ~ equal_neighbours (mk_row 0 [2; 2; 4; 0])).
Proof.
  apply (can_move_false_iff (mk_row 0 [2; 2; 4; 0])).
  concrete_board.
Defined.

(** ** The scenarios of the specification *)

Example scenario_merge_left :
  move (mk_row 0 [2; 2; 0; 0]) "left"
  = ([Tile.mk 4 0 0 0 0 0 0 true false 8], Ret true).
Proof. vm_compute. reflexivity. Qed.

Example scenario_slide_and_merge_left :
  map (fun s => (target_cell s, Tile.value s))
      (fst (move (mk_row 0 [2; 0; 2; 0]) "left")) = [((0, 0), 4)]
  /\ snd (move (mk_row 0 [2; 0; 2; 0]) "left") = Ret true.
Proof. vm_compute. split; reflexivity. Qed.

Example scenario_blocked_left :
  move (mk_row 0 [2; 4; 2; 0]) "left" = (mk_row 0 [2; 4; 2; 0], Ret false).
Proof. vm_compute. reflexivity. Qed.

Example scenario_no_chain_merge :
  map (fun s => (target_cell s, Tile.value s))
      (fst (move (mk_row 0 [2; 2; 4; 0]) "left")) = [((0, 0), 4); ((0, 1), 4)].
Proof. vm_compute. reflexivity. Qed.

Example scenario_full_board :
  can_move (mk_row 0 [2; 4; 2; 4] ++ mk_row 1 [4; 2; 4; 2]
            ++ mk_row 2 [2; 4; 2; 4] ++ mk_row 3 [4; 2; 4; 2]) = Ret false
  /\ snd (spawn_tile 0 (1 # 2)
            (mk_row 0 [2; 4; 2; 4] ++ mk_row 1 [4; 2; 4; 2]
             ++ mk_row 2 [2; 4; 2; 4] ++ mk_row 3 [4; 2; 4; 2])) = false.
Proof. vm_compute. split; reflexivity. Qed.

Example scenario_out_of_range_tile :
  move [Tile.init 2 0 4] "left" = ([Tile.init 2 0 4], Raise IndexError)
  /\ map target_cell (fst (move [Tile.init 2 (-1) 2] "left")) = [(3, 0)].
Proof. vm_compute. split; reflexivity. Qed.

(** * Further properties *)

(** ** The animation clock of a tile *)

Lemma update_position_fields (s : Tile.t) :
  target (fst (Tile.update_position s)) = target s
  /\ Tile.value (fst (Tile.update_position s)) = Tile.value s
  /\ Tile.merged (fst (Tile.update_position s)) = Tile.merged s
  /\ Tile.to_remove (fst (Tile.update_position s)) = Tile.to_remove s
  /\ Tile.merge_anim_counter (fst (Tile.update_position s))
     = Tile.merge_anim_counter s.
Proof.
  unfold Tile.update_position, target.
  repeat match goal with
         | |- context [if ?b then _ else _] => destruct b; simpl
         end; repeat split; reflexivity.
Qed.

Lemma update_position_axes (s : Tile.t) :
  Z.abs (Tile.x (fst (Tile.update_position s)) - Tile.target_x s)
  = Z.max 0 (Z.abs (Tile.x s - Tile.target_x s) - ANIMATION_SPEED)
  /\ Z.abs (Tile.y (fst (Tile.update_position s)) - Tile.target_y s)
     = Z.max 0 (Z.abs (Tile.y s - Tile.target_y s) - ANIMATION_SPEED)
  /\ (Tile.x s <= Tile.x (fst (Tile.update_position s)) <= Tile.target_x s
      \/ Tile.target_x s <= Tile.x (fst (Tile.update_position s)) <= Tile.x s)
  /\ (Tile.y s <= Tile.y (fst (Tile.update_position s)) <= Tile.target_y s
      \/ Tile.target_y s <= Tile.y (fst (Tile.update_position s)) <= Tile.y s).
Proof.
  unfold Tile.update_position, ANIMATION_SPEED.
  destruct (Z.gtb_spec (Z.abs (Tile.x s - Tile.target_x s)) 30) as [Hx|Hx];
    destruct (Z.gtb_spec (Tile.target_x s) (Tile.x s)) as [Hx'|Hx']; simpl;
    destruct (Z.gtb_spec (Z.abs (Tile.y s - Tile.target_y s)) 30) as [Hy|Hy];
    destruct (Z.gtb_spec (Tile.target_y s) (Tile.y s)) as [Hy'|Hy']; simpl;
    repeat match goal with
           | |- context [if ?b then _ else _] => destruct b; simpl
           end; lia.
Qed.

(** X1: one call of [update_position] brings each coordinate 30 pixels
    closer to its target, or onto it when it is 30 pixels away or less; the
    coordinate never passes the target; target, value, flags and countdown
    are left alone. *)
Theorem update_position_step (s : Tile.t) :
  (Z.abs (Tile.x (fst (Tile.update_position s)) - Tile.target_x s)
   = Z.max 0 (Z.abs (Tile.x s - Tile.target_x s) - ANIMATION_SPEED)
   /\ Z.abs (Tile.y (fst (Tile.update_position s)) - Tile.target_y s)
      = Z.max 0 (Z.abs (Tile.y s - Tile.target_y s) - ANIMATION_SPEED)
   /\ (Tile.x s <= Tile.x (fst (Tile.update_position s)) <= Tile.target_x s
       \/ Tile.target_x s <= Tile.x (fst (Tile.update_position s)) <= Tile.x s)
   /\ (Tile.y s <= Tile.y (fst (Tile.update_position s)) <= Tile.target_y s
       \/ Tile.target_y s <= Tile.y (fst (Tile.update_position s)) <= Tile.y s))
  /\ (target (fst (Tile.update_position s)) = target s
      /\ Tile.value (fst (Tile.update_position s)) = Tile.value s
      /\ Tile.merged (fst (Tile.update_position s)) = Tile.merged s
      /\ Tile.to_remove (fst (Tile.update_position s)) = Tile.to_remove s
      /\ Tile.merge_anim_counter (fst (Tile.update_position s))
         = Tile.merge_anim_counter s).
Proof. split; [apply update_position_axes|apply update_position_fields]. Qed.

Lemma update_position_arrived (s : Tile.t) :
  snd (Tile.update_position s) = false <->
  Tile.x (fst (Tile.update_position s)) = Tile.target_x s
  /\ Tile.y (fst (Tile.update_position s)) = Tile.target_y s.
Proof.
  unfold Tile.update_position, ANIMATION_SPEED.
  destruct (Z.gtb_spec (Z.abs (Tile.x s - Tile.target_x s)) 30) as [Hx|Hx];
    destruct (Z.gtb_spec (Tile.target_x s) (Tile.x s)) as [Hx'|Hx']; simpl;
    destruct (Z.gtb_spec (Z.abs (Tile.y s - Tile.target_y s)) 30) as [Hy|Hy];
    destruct (Z.gtb_spec (Tile.target_y s) (Tile.y s)) as [Hy'|Hy']; simpl;
    repeat match goal with
           | |- context [if ?b then _ else _] => destruct b; simpl
           end; split; try discriminate; try reflexivity; try lia;
    try (intros _; split; reflexivity).
Qed.

(** X2: [update_position] returns [False] exactly when the call leaves the
    tile on its target, in both coordinates. *)
Theorem update_position_false_iff_on_target (s : Tile.t) :
  snd (Tile.update_position s) = false <->
  (Tile.x (fst (Tile.update_position s)),
   Tile.y (fst (Tile.update_position s)))
  = target (fst (Tile.update_position s)).
Proof.
  rewrite update_position_arrived.
  destruct (update_position_fields s) as (Ht & _). rewrite Ht. unfold target.
  split; [intros [-> ->]; reflexivity|intros [= -> ->]; auto].
Qed.

Lemma update_position_n_S (n : nat) (s : Tile.t) :
  update_position_n (S n) s
  = fst (Tile.update_position (update_position_n n s)).
Proof. reflexivity. Qed.

(** X3: after [n] calls of [update_position] a coordinate is at distance
    [max 0 (distance - 30 * n)] from its target, which has not changed: a
    tile is on its target after as many calls as its distance, divided by
    30 and rounded up, and stays there. *)
Theorem update_position_n_distance (n : nat) (s : Tile.t) :
  Z.abs (Tile.x (update_position_n n s) - Tile.target_x s)
  = Z.max 0 (Z.abs (Tile.x s - Tile.target_x s) - ANIMATION_SPEED * Z.of_nat n)
  /\ Z.abs (Tile.y (update_position_n n s) - Tile.target_y s)
     = Z.max 0 (Z.abs (Tile.y s - Tile.target_y s) - ANIMATION_SPEED * Z.of_nat n)
  /\ target (update_position_n n s) = target s.
Proof.
  induction n as [|n (IHx & IHy & IHt)].
  - simpl. unfold ANIMATION_SPEED. repeat split; lia.
  - rewrite update_position_n_S.
    destruct (update_position_axes (update_position_n n s)) as (Hx & Hy & _).
    destruct (update_position_fields (update_position_n n s)) as (Ht & _).
    unfold target in IHt, Ht. injection IHt as Etx Ety.
    rewrite Etx in Hx. rewrite Ety in Hy. rewrite Etx, Ety in Ht.
    rewrite IHx in Hx. rewrite IHy in Hy.
    unfold ANIMATION_SPEED in *. repeat split; try exact Ht; lia.
Qed.

(** X4: [update_position] rewrites [row] and [col] only in a call that
    returns [False] while the merge countdown is at zero, and then to the
    cell the target denotes; in every other call they stay as they are. *)
Theorem update_position_resync (s : Tile.t) :
  cell (fst (Tile.update_position s))
  = if negb (snd (Tile.update_position s))
       && (Tile.merge_anim_counter s =? 0)
    then target_cell s else cell s.
Proof.
  unfold Tile.update_position, cell, target_cell.
  repeat match goal with
         | |- context [if ?b then _ else _] => destruct b; simpl
         end; reflexivity.
Qed.

(** X5: on a tile that can be drawn, [n] calls of [draw] return; they take
    a positive merge countdown [c] to [max 0 (c - n)] and change nothing
    else, and leave a countdown that is not positive as it is.  On any other
    tile [draw] raises: [OverflowError] when the countdown, [x] or [y] does
    not convert to a float, [ValueError] when the value has no logarithm or
    too many digits. *)
Theorem draw_n_countdown (n : nat) (s : Tile.t) :
  (drawable s ->
   draw_n n s
   = Ret (Tile.set_merge_anim_counter
            (if Tile.merge_anim_counter s >? 0
             then Z.max 0 (Tile.merge_anim_counter s - Z.of_nat n)
             else Tile.merge_anim_counter s) s))
  /\ (~ drawable s ->
      draw_n (S n) s = Raise OverflowError \/ draw_n (S n) s = Raise ValueError).
Proof.
  split.
  - revert s. induction n as [|n IH]; intros s Hs.
    + destruct s as [v r c x y tx ty m tr k]. cbn [draw_n].
      unfold Tile.set_merge_anim_counter. cbn [Tile.merge_anim_counter
        Tile.value Tile.row Tile.col Tile.x Tile.y Tile.target_x
        Tile.target_y Tile.merged Tile.to_remove].
      destruct (Z.gtb_spec k 0); do 2 f_equal; lia.
    + cbn [draw_n]. rewrite (draw_drawable s Hs), (IH _ (drawn_drawable s Hs)).
      rewrite drawn_counter. f_equal.
      destruct s as [v r c x y tx ty m tr k]. unfold drawn.
      unfold Tile.set_merge_anim_counter. cbn [Tile.merge_anim_counter
        Tile.value Tile.row Tile.col Tile.x Tile.y Tile.target_x
        Tile.target_y Tile.merged Tile.to_remove].
      destruct (Z.gtb_spec k 0) as [Hk|Hk]; simpl.
      * destruct (Z.gtb_spec (k - 1) 0); f_equal; lia.
      * destruct (Z.gtb_spec k 0); [lia|reflexivity].
  - intros Hn. cbn [draw_n].
    destruct (draw_not_drawable s Hn) as [-> | ->]; auto.
Qed.

Lemma draw_n_countdown_witness :
  draw_n 3 (Tile.set_merge_anim_counter 8 (Tile.init 4 0 0))
  = Ret (Tile.set_merge_anim_counter 5 (Tile.init 4 0 0)).
Proof.
  apply (proj1 (draw_n_countdown 3
                  (Tile.set_merge_anim_counter 8 (Tile.init 4 0 0)))).
  repeat split; vm_compute; reflexivity.
Defined.

(** ** [move]: errors, stale flags, cells and values *)

Lemma py_index_is_Some (len : nat) (i : Z) :
  is_Some (py_index len i) <-> - Z.of_nat len <= i < Z.of_nat len.
Proof.
  unfold py_index.
  destruct (Z.leb_spec 0 i), (Z.ltb_spec i (Z.of_nat len)),
    (Z.leb_spec (- Z.of_nat len) i), (Z.ltb_spec i 0); simpl;
    split; intros Hx; try lia; eauto; destruct Hx; discriminate.
Qed.

Lemma norm_cell_subscriptable (s : Tile.t) :
  is_Some (norm_cell (cell s)) <-> subscriptable s.
Proof.
  unfold subscriptable, norm_cell, cell. simpl.
  pose proof (py_index_is_Some (Z.to_nat ROWS) (Tile.row s)) as Hr.
  pose proof (py_index_is_Some (Z.to_nat COLS) (Tile.col s)) as Hc.
  change (Z.of_nat (Z.to_nat ROWS)) with ROWS in Hr.
  change (Z.of_nat (Z.to_nat COLS)) with COLS in Hc.
  rewrite <- Hr, <- Hc.
  destruct (py_index _ (Tile.row s)), (py_index _ (Tile.col s)); split;
    intros Hx; try (destruct Hx as [Hx1 Hx2]); try split; eauto;
    first [discriminate | exfalso; eapply is_Some_None; eassumption].
Qed.

Lemma fill_with_returns {A} `{Inhabited A} (f : nat -> Tile.t -> A)
    (ts : list Tile.t) (k : nat) (g : list (list A)) :
  grid_shape g ->
  (exists g', fill_with f ts k g = Ret g') <-> Forall subscriptable ts.
Proof.
  revert k g. induction ts as [|s ts IH]; intros k g Hs; simpl.
  - split; [constructor|eauto].
  - rewrite grid_set_norm by exact Hs. fold (cell s).
    rewrite Forall_cons, <- norm_cell_subscriptable.
    destruct (norm_cell (cell s)) as [q|] eqn:Eq.
    + rewrite (IH (S k) (gupd g q (f k s)));
        [|apply gupd_shape; [exact Hs|eapply norm_cell_inb, Eq]].
      split; [eauto|tauto].
    + split; [intros [g' Hg']; discriminate|intros [[q Hq] _]; discriminate].
Qed.

Lemma reset_subscriptable (ts : list Tile.t) :
  Forall subscriptable (reset_merged_flags ts) <-> Forall subscriptable ts.
Proof.
  unfold reset_merged_flags. rewrite Forall_fmap. reflexivity.
Qed.

(** C1, amended: with a direction that is none of the four, [move] never
    returns.  It raises [IndexError] when filling the grid fails, that is
    when some tile's [row] or [col] is no subscript of a list of 4, and
    otherwise [TypeError], from iterating the [None] of [traverse]; in both
    cases it leaves the list as it was but for the flags [merged] and
    [to_remove], which it has reset.  The no-op is in the control loop: a
    key that is not an arrow key gives no direction and [move] is not
    called, and every direction the loop does pass is one of the four. *)
Theorem move_invalid_direction_raises (tiles : list Tile.t) (d : string) :
  valid_direction d = false ->
  (Forall subscriptable tiles <->
   move tiles d = (reset_merged_flags tiles, Raise TypeError))
  /\ (~ Forall subscriptable tiles <->
      move tiles d = (reset_merged_flags tiles, Raise IndexError))
  /\ (forall k evs g, key_direction k = None ->
        idle_events (KEYDOWN k :: evs) g = idle_events evs g)
  /\ (forall k dir, key_direction k = Some dir -> valid_direction dir = true).
Proof.
  intros Hd.
  pose proof (fill_with_returns (fun i _ => Some i) (reset_merged_flags tiles)
                0 empty_grid empty_grid_shape) as Hret.
  rewrite <- build_grid_fill, reset_subscriptable in Hret.
  assert (Hrun : (Forall subscriptable tiles
                  /\ move tiles d = (reset_merged_flags tiles, Raise TypeError))
                 \/ (~ Forall subscriptable tiles
                     /\ move tiles d
                        = (reset_merged_flags tiles, Raise IndexError))).
  { unfold move. rewrite move_loop_unfold, (invalid_direction_traverse d Hd).
    destruct (build_grid_cases (reset_merged_flags tiles)) as [[g0 Hb]|Hb];
      rewrite Hb; [left|right]; (split; [|reflexivity]).
    - apply Hret. eauto.
    - intros Hall. apply Hret in Hall as [g0 Hg0]. congruence. }
  split; [|split; [|split]].
  - destruct Hrun as [[Hall ->]|[Hnot ->]]; split; try tauto; discriminate.
  - destruct Hrun as [[Hall ->]|[Hnot ->]]; split; try tauto; discriminate.
  - intros k evs g Hk. simpl. rewrite Hk. reflexivity.
  - intros [] dir; simpl; intros [= <-]; reflexivity.
Qed.

Lemma move_invalid_direction_raises_witness :
  (Forall subscriptable (mk_row 0 [2; 2; 0; 0]) <->
   move (mk_row 0 [2; 2; 0; 0]) "north"
   = (reset_merged_flags (mk_row 0 [2; 2; 0; 0]), Raise TypeError))
  /\ (~ Forall subscriptable (mk_row 0 [2; 2; 0; 0]) <->
      move (mk_row 0 [2; 2; 0; 0]) "north"
      = (reset_merged_flags (mk_row 0 [2; 2; 0; 0]), Raise IndexError))
  /\ (forall k evs g, key_direction k = None ->
        idle_events (KEYDOWN k :: evs) g = idle_events evs g)
  /\ (forall k dir, key_direction k = Some dir -> valid_direction dir = true).
Proof.
  apply (move_invalid_direction_raises (mk_row 0 [2; 2; 0; 0]) "north").
  reflexivity.
Defined.

(** [move] for a valid direction, by the outcome of filling the grid. *)
Lemma move_loop_by_build (d : string) (tiles : list Tile.t) :
  valid_direction d = true ->
  (Forall subscriptable tiles /\
   exists g0 h' l',
     build_grid (reset_merged_flags tiles) 0 empty_grid = Ret g0
     /\ move_loop d tiles = (h', Ret (moved l'))
     /\ Inv d (reset_merged_flags tiles) g0 [] h' l')
  \/ (~ Forall subscriptable tiles /\
      move_loop d tiles = (reset_merged_flags tiles, Raise IndexError)).
Proof.
  intros Hd.
  pose proof (fill_with_returns (fun i _ => Some i) (reset_merged_flags tiles)
                0 empty_grid empty_grid_shape) as Hret.
  rewrite <- build_grid_fill, reset_subscriptable in Hret.
  destruct (build_grid_cases (reset_merged_flags tiles)) as [[g0 Hb]|Hb].
  - left. split; [apply Hret; eauto|].
    destruct (traverse_valid d Hd) as (cells & Ht & Hcells & Hsorted).
    destruct (for_cells_inv d (reset_merged_flags tiles) g0 cells Hd)
      with (h := reset_merged_flags tiles) (l := mkLocals g0 (0, 0) false)
      as (h' & l' & Hrun & HI); try assumption.
    + apply Forall_forall. intros p Hp. apply Hcells, Hp.
    + apply inv_init; [exact Hb|]. intros p Hp. apply Hcells, Hp.
    + exists g0, h', l'. rewrite move_loop_unfold, Hb, Ht, Hrun. auto.
  - right. split.
    + intros Hall. apply Hret in Hall as [g0 Hg0]. congruence.
    + rewrite move_loop_unfold, Hb. reflexivity.
Qed.

(** X6: for a valid direction [move] returns exactly when every tile's
    [row] and [col] are subscripts of a list of 4, from -4 to 3; otherwise
    it raises [IndexError], and the list is then as before but for the
    flags, which are reset. *)
Theorem move_raises_iff_not_subscriptable (tiles : list Tile.t) (d : string) :
  valid_direction d = true ->
  (Forall subscriptable tiles <-> exists m ts', move tiles d = (ts', Ret m))
  /\ (~ Forall subscriptable tiles <->
      move tiles d = (reset_merged_flags tiles, Raise IndexError)).
Proof.
  intros Hd.
  destruct (move_loop_by_build d tiles Hd)
    as [(Hall & g0 & h' & l' & _ & Hrun & _)|[Hnot Hrun]];
    unfold move; rewrite Hrun.
  - split; split; try tauto; eauto. discriminate.
  - split; split; try tauto. intros (m & ts' & ?). discriminate.
Qed.

Lemma move_raises_iff_not_subscriptable_witness :
  (Forall subscriptable [Tile.init 2 0 4] <->
   exists m ts', move [Tile.init 2 0 4] "up" = (ts', Ret m))
  /\ (~ Forall subscriptable [Tile.init 2 0 4] <->
      move [Tile.init 2 0 4] "up"
      = (reset_merged_flags [Tile.init 2 0 4], Raise IndexError)).
Proof.
  apply (move_raises_iff_not_subscriptable [Tile.init 2 0 4] "up").
  reflexivity.
Defined.

(** X7: the flags [merged] and [to_remove] of the tiles passed to [move]
    have no influence: two lists that differ in these flags only give the
    same list and the same outcome. *)
Theorem move_ignores_input_flags (tiles tiles' : list Tile.t) (d : string) :
  Forall2 same_but_flags tiles tiles' -> move tiles d = move tiles' d.
Proof.
  intros HF.
  assert (E : reset_merged_flags tiles = reset_merged_flags tiles').
  { unfold reset_merged_flags. induction HF as [|s s' ts ts' Hs _ IH];
      [reflexivity|]. simpl. rewrite IH. f_equal. exact Hs. }
  unfold move. rewrite !move_loop_unfold, E. reflexivity.
Qed.

Lemma move_ignores_input_flags_witness :
  move [Tile.set_to_remove true (Tile.init 2 0 1)] "left"
  = move [Tile.init 2 0 1] "left".
Proof.
  apply (move_ignores_input_flags
           [Tile.set_to_remove true (Tile.init 2 0 1)] [Tile.init 2 0 1] "left").
  repeat constructor.
Defined.

Lemma purge_length (h : list Tile.t) :
  length h = (length (purge h) + count_removed h)%nat.
Proof.
  induction h as [|s h IH]; [reflexivity|].
  rewrite count_removed_cons. unfold purge in *. rewrite filter_cons. simpl.
  destruct (Tile.to_remove s); case_decide; try congruence; simpl; lia.
Qed.

Lemma count_merged_purge (h : list Tile.t) :
  Forall (fun s => Tile.merged s = true -> Tile.to_remove s = false) h ->
  count_merged (purge h) = count_merged h.
Proof.
  induction 1 as [|s h Hs _ IH]; [reflexivity|].
  rewrite count_merged_cons. unfold purge in *. rewrite filter_cons.
  case_decide as Hr.
  - rewrite count_merged_cons, IH. reflexivity.
  - destruct (Tile.merged s); [|exact IH]. destruct Hr. auto.
Qed.

Lemma value_ok_double (v : Z) : value_ok v -> value_ok (v * 2).
Proof.
  intros [k ->]. exists (S k). rewrite (Nat2Z.inj_succ (S k)).
  rewrite Z.pow_succ_r by lia. lia.
Qed.

(** What a move on a board with distinct in-bounds cells gives: cells and
    targets of the tiles left, their number and their values. *)
Lemma move_summary (tiles : list Tile.t) (d : string) :
  well_formed tiles -> valid_direction d = true ->
  exists m ts',
    move tiles d = (ts', Ret m)
    /\ map cell ts' `sublist_of` map cell tiles
    /\ targets_ok ts'
    /\ length tiles = (length ts' + count_merged ts')%nat
    /\ (Forall (fun s => value_ok (Tile.value s)) tiles ->
        Forall (fun s => value_ok (Tile.value s)) ts').
Proof.
  intros Hwf Hd.
  destruct (move_loop_wf d tiles Hwf Hd) as (g0 & h' & l' & Hat & Hout & Hrun & HI).
  pose proof (after_length d tiles g0 h' l' HI) as Hlen.
  pose proof (move_loop_untouched d tiles) as Hunt.
  rewrite Hrun in Hunt. simpl in Hunt.
  exists (moved l'), (purge h'). split; [apply move_of_loop, Hrun|].
  assert (Hcells : map cell h' = map cell tiles).
  { clear -Hunt. induction Hunt as [|s s' ts ts' (Hr & Hc & _) _ IH];
      [reflexivity|]. simpl. rewrite IH. unfold cell. congruence. }
  assert (Hmr : Forall (fun s => Tile.merged s = true -> Tile.to_remove s = false) h').
  { apply Forall_forall. intros s Hs Hm.
    apply list_elem_of_lookup in Hs as [i Hi].
    apply list_lookup_alt in Hi as [Hlt <-].
    destruct (inv_value _ _ _ _ _ _ HI i Hlt) as [[E _]|(_ & _ & E & _)];
      congruence. }
  split; [|split; [|split]].
  - rewrite <- Hcells. apply fmap_sublist, sublist_filter.
  - exact (after_well_placed d tiles g0 h' l' Hwf Hat HI).
  - rewrite (count_merged_purge h' Hmr), <- (inv_count _ _ _ _ _ _ HI), <- Hlen.
    apply purge_length.
  - intros Hv. apply Forall_forall. intros s Hs.
    apply list_elem_of_filter in Hs as [_ Hs].
    apply list_elem_of_lookup in Hs as [i Hi].
    apply list_lookup_alt in Hi as [Hlt <-].
    assert (Hlt0 : (i < length tiles)%nat) by (rewrite <- Hlen; exact Hlt).
    assert (Hv0 : value_ok (Tile.value (reset_merged_flags tiles !!! i))).
    { rewrite reset_lookup by exact Hlt0. simpl.
      rewrite Forall_forall in Hv. apply Hv.
      eapply list_elem_of_lookup_2, list_lookup_lookup_total_lt, Hlt0. }
    destruct (inv_value _ _ _ _ _ _ HI i Hlt) as [[_ ->]|(_ & -> & _)];
      [exact Hv0|apply value_ok_double, Hv0].
Qed.

Lemma sublist_well_formed (ts ts' : list Tile.t) :
  well_formed ts -> map cell ts' `sublist_of` map cell ts -> well_formed ts'.
Proof.
  intros [Hnd Hin] Hsub. split.
  - eapply sublist_NoDup; eassumption.
  - apply Forall_forall. intros s Hs.
    assert (Hc : cell s ∈ map cell ts).
    { eapply elem_of_sublist; [|exact Hsub].
      apply list_elem_of_fmap. eauto. }
    apply list_elem_of_fmap in Hc as (s0 & -> & Hs0).
    rewrite Forall_forall in Hin. apply Hin, Hs0.
Qed.

(** X8: [move] does not touch [row] and [col] and only takes tiles out of
    the list: the cells of the tiles left are, in order, cells of the list
    before, so they are again pairwise distinct and on the board; and the
    list is shorter by exactly the number of its tiles flagged merged. *)
Theorem move_keeps_cells (tiles : list Tile.t) (d : string) :
  well_formed tiles -> valid_direction d = true ->
  exists m ts',
    move tiles d = (ts', Ret m)
    /\ map cell ts' `sublist_of` map cell tiles
    /\ well_formed ts'
    /\ length tiles = (length ts' + count_merged ts')%nat.
Proof.
  intros Hwf Hd.
  destruct (move_summary tiles d Hwf Hd) as (m & ts' & Hrun & Hsub & _ & Hlen & _).
  exists m, ts'. repeat split; try assumption;
    apply (sublist_well_formed tiles ts' Hwf Hsub).
Qed.

Lemma move_keeps_cells_witness :
  exists m ts',
    move (mk_row 0 [2; 2; 4; 0]) "right" = (ts', Ret m)
    /\ map cell ts' `sublist_of` map cell (mk_row 0 [2; 2; 4; 0])
    /\ well_formed ts'
    /\ length (mk_row 0 [2; 2; 4; 0]) = (length ts' + count_merged ts')%nat.
Proof.
  apply (move_keeps_cells (mk_row 0 [2; 2; 4; 0]) "right").
  - concrete_board.
  - reflexivity.
Defined.

(** X9: on a board with pairwise-distinct in-bounds cells whose values are
    powers of two, 2 at least, the values after [move] are such powers of
    two again. *)
Theorem move_keeps_powers_of_two (tiles : list Tile.t) (d : string) :
  well_formed tiles -> valid_direction d = true ->
  Forall (fun s => value_ok (Tile.value s)) tiles ->
  exists m ts',
    move tiles d = (ts', Ret m)
    /\ Forall (fun s => value_ok (Tile.value s)) ts'.
Proof.
  intros Hwf Hd Hv.
  destruct (move_summary tiles d Hwf Hd) as (m & ts' & Hrun & _ & _ & _ & Hvals).
  exists m, ts'. split; [exact Hrun|apply Hvals, Hv].
Qed.

Lemma move_keeps_powers_of_two_witness :
  exists m ts',
    move (mk_row 0 [2; 2; 4; 0]) "right" = (ts', Ret m)
    /\ Forall (fun s => value_ok (Tile.value s)) ts'.
Proof.
  apply (move_keeps_powers_of_two (mk_row 0 [2; 2; 4; 0]) "right").
  - concrete_board.
  - reflexivity.
  - repeat constructor; [exists 0%nat|exists 0%nat|exists 1%nat]; reflexivity.
Defined.

(** ** [move] packs the tiles against the wall *)

Lemma visit_none (d : string) (p : Z * Z) (l : Locals) (h : list Tile.t) :
  grid_shape (grid l) -> inb p -> gat (grid l) p = None ->
  visit d p l h = (h, Ret l).
Proof.
  intros Hs Hp Hn. unfold visit, bind, lift.
  rewrite (grid_get_inb (grid l) p Hs Hp), Hn. reflexivity.
Qed.

Lemma visit_some (d : string) (p : Z * Z) (l : Locals) (h : list Tile.t)
    (i : nat) (h1 : list Tile.t) (l1 : Locals) :
  grid_shape (grid l) -> inb p -> gat (grid l) p = Some i ->
  slide slide_fuel d i (mkLocals (grid l) p (moved l)) h = (h1, Ret l1) ->
  visit d p l h = (alter (aim (current l1)) i h1, Ret l1).
Proof.
  intros Hs Hp Hi Hrun. unfold visit. unfold bind at 1. unfold lift at 1.
  rewrite (grid_get_inb (grid l) p Hs Hp), Hi.
  unfold bind at 1. rewrite Hrun. unfold bind, write, ret. simpl.
  rewrite aim_writes. reflexivity.
Qed.

(** When the [while] loop ends, the cell after the current one is off the
    board or occupied. *)
Lemma slide_blocked (fuel : nat) (d : string) (i : nat) (l : Locals)
    (h h' : list Tile.t) (l' : Locals) :
  valid_direction d = true ->
  grid_shape (grid l) -> inb (current l) ->
  slide fuel d i l h = (h', Ret l') ->
  exists q', next_pos d (fst (current l')) (snd (current l')) = Some q'
             /\ (inb q' -> is_Some (gat (grid l') q')).
Proof.
  intros Hd. revert l. induction fuel as [|fuel IH]; intros l Hs Hin Hrun;
    [discriminate|].
  simpl in Hrun.
  destruct (next_pos_geom d (current l) Hd) as ([nr nc] & Hn & Hline & Hdist).
  rewrite Hn in Hrun.
  destruct (within nr nc) eqn:Hw; simpl in Hrun.
  2:{ injection Hrun as <- <-. exists (nr, nc). split; [exact Hn|].
      unfold inb. simpl. congruence. }
  assert (Hq : inb (nr, nc)) by exact Hw.
  assert (Hne : (nr, nc) <> current l) by (intros E; rewrite E in Hdist; lia).
  pose proof (grid_get_inb (grid l) (nr, nc) Hs Hq) as Hg. simpl in Hg.
  unfold bind at 1 in Hrun. unfold lift at 1 in Hrun. rewrite Hg in Hrun.
  destruct (gat (grid l) (nr, nc)) as [nt|] eqn:Hnt.
  - unfold bind, read, write, lift, ret in Hrun. simpl in Hrun.
    destruct (_ && _); simpl in Hrun.
    + rewrite (grid_set_inb (grid l) (current l) None Hs Hin) in Hrun.
      injection Hrun as <- <-. simpl. exists (nr, nc). split; [exact Hn|].
      intros _. rewrite gat_gupd, decide_False by (assumption || congruence).
      rewrite Hnt. eauto.
    + injection Hrun as <- <-. exists (nr, nc). split; [exact Hn|].
      intros _. rewrite Hnt. eauto.
  - pose proof (grid_set_inb (grid l) (nr, nc) (Some i) Hs Hq) as Hset1.
    simpl in Hset1. unfold bind at 1 in Hrun. unfold lift at 1 in Hrun.
    rewrite Hset1 in Hrun.
    assert (Hs1 : grid_shape (gupd (grid l) (nr, nc) (Some i)))
      by (apply gupd_shape; assumption).
    pose proof (grid_set_inb _ (current l) None Hs1 Hin) as Hset2.
    unfold bind at 1 in Hrun. unfold lift at 1 in Hrun. rewrite Hset2 in Hrun.
    apply IH in Hrun; simpl; [exact Hrun| |exact Hq].
    apply gupd_shape; assumption.
Qed.

Lemma packed_skip (d : string) (p : Z * Z) (rest : list (Z * Z))
    (g : list (list (option nat))) :
  inb p -> gat g p = None ->
  (forall c, c ∈ rest -> rank d p < rank d c) ->
  packed d (p :: rest) g -> packed d rest g.
Proof.
  intros Hp Hn Hsorted [Hpk Hord]. split.
  - intros c c' Hc Hcr Hsome Hnext Hc'.
    apply (Hpk c c'); try assumption.
    rewrite not_elem_of_cons. split; [|exact Hcr].
    intros ->. rewrite Hn in Hsome. eapply is_Some_None, Hsome.
  - intros c x Hc Hcr Hx. destruct (decide (c = p)) as [->|Hne].
    + apply Hsorted, Hx.
    + apply Hord; [exact Hc| |right; exact Hx].
      rewrite not_elem_of_cons. auto.
Qed.

(** One visit keeps the invariant and the packing. *)
Lemma visit_packed (d : string) (h0 : list Tile.t)
    (g0 : list (list (option nat))) (p : Z * Z) (rest : list (Z * Z))
    (h : list Tile.t) (l : Locals) :
  valid_direction d = true -> inb p ->
  (forall c, c ∈ rest -> rank d p < rank d c) ->
  Inv d h0 g0 (p :: rest) h l -> packed d (p :: rest) (grid l) ->
  exists h' l', visit d p l h = (h', Ret l')
                /\ Inv d h0 g0 rest h' l' /\ packed d rest (grid l').
Proof.
  intros Hd Hp Hsorted HI Hpk.
  destruct (visit_inv d h0 g0 p rest h l Hd Hp Hsorted HI) as (h' & l' & Hv & HI').
  exists h', l'. split; [exact Hv|]. split; [exact HI'|].
  pose proof (inv_shape _ _ _ _ _ _ HI) as Hs.
  destruct (gat (grid l) p) as [i|] eqn:Hi.
  2:{ rewrite (visit_none d p l h Hs Hp Hi) in Hv. injection Hv as <- <-.
      eapply packed_skip; eassumption. }
  destruct (slide_spec slide_fuel d i (mkLocals (grid l) p (moved l)) h Hd)
    as (h1 & l1 & Hrun & Hpost); [exact Hs|exact Hp|exact Hi| |].
  { pose proof (dist_bounds d p Hd Hp). simpl.
    unfold slide_fuel, ROWS, COLS. lia. }
  rewrite (visit_some d p l h i h1 l1 Hs Hp Hi Hrun) in Hv.
  injection Hv as <- <-.
  destruct (slide_blocked slide_fuel d i (mkLocals (grid l) p (moved l))
              h h1 l1 Hd Hs Hp Hrun)
    as (qn & Hqn & Hblocked).
  destruct Hpk as [Hpk Hord].
  assert (Hbehind : forall c, inb c -> c ∉ rest ->
            next_pos d (fst c) (snd c) = Some p -> False).
  { intros c Hc Hcr Hnext.
    destruct (next_pos_geom d c Hd) as (c2 & Hn2 & Hl2 & Hd2).
    rewrite Hn2 in Hnext. injection Hnext as ->.
    assert (Hcp : c <> p) by (intros ->; lia).
    assert (Hlt : rank d c < rank d p).
    { apply Hord; [exact Hc| |left]. rewrite not_elem_of_cons. auto. }
    unfold rank in Hlt. lia. }
  assert (Hord' : forall c x, inb c -> c ∉ rest -> x ∈ rest ->
                              rank d c < rank d x).
  { intros c x Hc Hcr Hx. destruct (decide (c = p)) as [->|Hne].
    - apply Hsorted, Hx.
    - apply Hord; [exact Hc| |right; exact Hx].
      rewrite not_elem_of_cons. auto. }
  split; [|exact Hord'].
  destruct Hpost as [-> Hin' Hl' Hd' Hemp Hs' Hgat Hmv
                    |j q' -> Hin' Hl' Hd' Hemp Hnx Hinq' Hj Hv Hm1 Hm2 Hs' Hgat Hmv];
    simpl in *; set (q := current l1) in *.
  - intros c c' Hc Hcr Hsome Hnext Hc'.
    destruct (decide (c = q)) as [->|Hcq].
    { rewrite Hqn in Hnext. injection Hnext as <-. apply Hblocked, Hc'. }
    rewrite Hgat in Hsome by exact Hc. rewrite decide_False in Hsome by exact Hcq.
    destruct (decide (c = p)) as [->|Hcp]; [eapply is_Some_None in Hsome; contradiction|].
    rewrite Hgat by exact Hc'.
    destruct (decide (c' = q)) as [|Hc'q]; [eauto|].
    destruct (decide (c' = p)) as [->|Hc'p]; [destruct (Hbehind c Hc Hcr Hnext)|].
    apply (Hpk c c'); try assumption. rewrite not_elem_of_cons. auto.
  - intros c c' Hc Hcr Hsome Hnext Hc'.
    rewrite Hgat in Hsome by exact Hc.
    destruct (decide (c = q \/ c = p)) as [|Hn];
      [eapply is_Some_None in Hsome; contradiction|].
    assert (Hcp : c <> p) by tauto.
    assert (Hold : is_Some (gat (grid l) c')).
    { apply (Hpk c c'); try assumption. rewrite not_elem_of_cons. auto. }
    rewrite Hgat by exact Hc'.
    destruct (decide (c' = q \/ c' = p)) as [[->| ->]|]; [| |exact Hold].
    + destruct (decide (q = p)) as [E|E].
      * rewrite E in Hnext. destruct (Hbehind c Hc Hcr Hnext).
      * rewrite (Hemp E) in Hold. eapply is_Some_None in Hold. contradiction.
    + destruct (Hbehind c Hc Hcr Hnext).
Qed.

Lemma for_cells_packed (d : string) (h0 : list Tile.t)
    (g0 : list (list (option nat))) (cells : list (Z * Z)) :
  valid_direction d = true ->
  Forall inb cells ->
  StronglySorted (fun a b => rank d a < rank d b) cells ->
  forall h l, Inv d h0 g0 cells h l -> packed d cells (grid l) ->
  exists h' l', for_cells d cells l h = (h', Ret l')
                /\ Inv d h0 g0 [] h' l' /\ packed d [] (grid l').
Proof.
  intros Hd Hin Hsorted.
  induction cells as [|p rest IH]; intros h l HI Hpk; simpl.
  - exists h, l. auto.
  - apply Forall_cons in Hin as [Hp Hin].
    apply StronglySorted_inv in Hsorted as [Hsorted Hlt].
    rewrite Forall_forall in Hlt.
    destruct (visit_packed d h0 g0 p rest h l Hd Hp Hlt HI Hpk)
      as (h1 & l1 & Hv & HI1 & Hpk1).
    destruct (IH Hin Hsorted h1 l1 HI1 Hpk1) as (h' & l' & Hrun & HI' & Hpk').
    exists h', l'. split; [|auto].
    unfold bind. rewrite Hv. exact Hrun.
Qed.

(** X10: after [move] on a board with pairwise-distinct in-bounds cells no
    tile left in the list could slide further: the cell after its target
    cell, in the direction of the move, is off the board or is the target
    cell of another tile of the list. *)
Theorem move_packs_tiles (tiles : list Tile.t) (d : string) :
  well_formed tiles -> valid_direction d = true ->
  exists m ts',
    move tiles d = (ts', Ret m)
    /\ forall s q', s ∈ ts' ->
         next_pos d (fst (target_cell s)) (snd (target_cell s)) = Some q' ->
         inb q' -> exists s', s' ∈ ts' /\ target_cell s' = q'.
Proof.
  intros Hwf Hd.
  destruct (build_grid_wf tiles Hwf) as (g0 & Hb & Hat & Hout).
  destruct (traverse_valid d Hd) as (cells & Ht & Hcells & Hsorted).
  destruct (for_cells_packed d (reset_merged_flags tiles) g0 cells Hd)
    with (h := reset_merged_flags tiles) (l := mkLocals g0 (0, 0) false)
    as (h' & l' & Hrun & HI & [Hpk _]); try assumption.
  - apply Forall_forall. intros p Hp. apply Hcells, Hp.
  - apply inv_init; [exact Hb|]. intros p Hp. apply Hcells, Hp.
  - split; intros c; intros; exfalso; match goal with
      | H : c ∉ cells |- _ => apply H, Hcells; assumption
      end.
  - assert (Hloop : move_loop d tiles = (h', Ret (moved l')))
      by (rewrite move_loop_unfold, Hb, Ht, Hrun; reflexivity).
    exists (moved l'), (purge h'). split; [apply move_of_loop, Hloop|].
    intros s q' Hs Hnext Hq'.
    apply list_elem_of_filter in Hs as [Hal Hs].
    apply list_elem_of_lookup in Hs as [i Hi].
    destruct (after_placed d tiles g0 h' l' Hwf Hat HI i s Hi Hal)
      as (p & Hp & Hgp & Htp).
    rewrite (target_cell_pixel _ _ Htp) in Hnext.
    destruct (Hpk p q' Hp (not_elem_of_nil _)) as [j Hj];
      [rewrite Hgp; eauto|exact Hnext|exact Hq'|].
    destruct (inv_ref _ _ _ _ _ _ HI q' j Hq' Hj) as [Hjl Hjr].
    pose proof (inv_target _ _ _ _ _ _ HI q' j Hq' Hj (not_elem_of_nil _)) as Htj.
    exists (h' !!! j). split.
    + apply list_elem_of_filter. split; [exact Hjr|].
      eapply list_elem_of_lookup_2, list_lookup_lookup_total_lt, Hjl.
    + apply target_cell_pixel, Htj.
Qed.

Lemma move_packs_tiles_witness :
  exists m ts',
    move (mk_row 0 [2; 0; 4; 2]) "left" = (ts', Ret m)
    /\ forall s q', s ∈ ts' ->
         next_pos "left" (fst (target_cell s)) (snd (target_cell s)) = Some q' ->
         inb q' -> exists s', s' ∈ ts' /\ target_cell s' = q'.
Proof.
  apply (move_packs_tiles (mk_row 0 [2; 0; 4; 2]) "left").
  - concrete_board.
  - reflexivity.
Defined.

(** ** When the game is over nothing can move *)

(** What [can_move] returns on a board with distinct in-bounds cells. *)
Lemma can_move_outcome (ts : list Tile.t) :
  well_formed ts ->
  exists b,
    can_move ts = Ret b
    /\ (b = false <-> board_full ts /\ ~ equal_neighbours ts).
Proof.
  intros Hwf. pose proof (board_full_length ts Hwf) as Hfull.
  unfold can_move. destruct (Z.ltb_spec (Z.of_nat (length ts)) (ROWS * COLS)) as [Hlt|Hge].
  { exists true. split; [reflexivity|]. split; [discriminate|].
    intros [Hf _]. apply Hfull in Hf. contradiction. }
  assert (Hf : board_full ts) by (apply Hfull; lia).
  destruct Hwf as [Hnd Hin].
  destruct (fill_with_wf (fun _ s => Tile.value s) ts Hnd Hin 0%nat
              (replicate (Z.to_nat ROWS) (replicate (Z.to_nat COLS) 0)))
    as (g & Hrun & Hs & Hat & _).
  { split; [reflexivity|]. repeat constructor. }
  rewrite (fill_values_fill ts 0), Hrun.
  assert (Hval : forall p, inb p -> value_at cell ts p = Some (gat g p)).
  { intros p Hp. specialize (Hf p Hp).
    apply list_elem_of_fmap in Hf as (s & -> & Hsin).
    apply list_elem_of_lookup in Hsin as [n Hn].
    rewrite (value_at_lookup cell ts n s Hnd Hn), (Hat n s Hn). reflexivity. }
  destruct (scan_pairs_spec g all_cells Hs) as (b & Hscan & Hb).
  { apply Forall_forall. intros p. apply inb_all_cells. }
  exists b. split; [exact Hscan|].
  assert (Heq : b = true <-> equal_neighbours ts).
  { rewrite Hb. split.
    - intros (p & Hp & Hcase). apply inb_all_cells in Hp.
      pose proof Hp as Hbounds. apply inb_bounds in Hbounds.
      destruct Hcase as [[Hlt E]|[Hlt E]].
      + assert (Hq : inb (fst p, snd p + 1)) by (apply inb_bounds; simpl; lia).
        exists p, (fst p, snd p + 1), (gat g p).
        rewrite !Hval, E by assumption. repeat split; try assumption.
        apply adjacent_cases. auto.
      + assert (Hq : inb (fst p + 1, snd p)) by (apply inb_bounds; simpl; lia).
        exists p, (fst p + 1, snd p), (gat g p).
        rewrite !Hval, E by assumption. repeat split; try assumption.
        apply adjacent_cases. auto.
    - intros (p & q & v & Hp & Hq & Hadj & Hvp & Hvq).
      rewrite Hval in Hvp, Hvq by assumption.
      assert (E : gat g p = gat g q) by congruence.
      pose proof Hp as Hbp. apply inb_bounds in Hbp.
      pose proof Hq as Hbq. apply inb_bounds in Hbq.
      apply adjacent_cases in Hadj as [-> | [-> | [-> | ->]]]; simpl in *.
      + exists p. split; [apply inb_all_cells, Hp|]. left. split; [lia|exact E].
      + exists q. split; [apply inb_all_cells, Hq|]. left. split; [lia|].
        symmetry. exact E.
      + exists p. split; [apply inb_all_cells, Hp|]. right. split; [lia|exact E].
      + exists q. split; [apply inb_all_cells, Hq|]. right. split; [lia|].
        symmetry. exact E. }
  split.
  - intros ->. split; [exact Hf|]. intros Hn. apply Heq in Hn. discriminate.
  - intros [_ Hn]. destruct b; [|reflexivity]. destruct Hn. apply Heq. reflexivity.
Qed.

Lemma next_pos_adjacent (d : string) (c c' : Z * Z) :
  valid_direction d = true ->
  next_pos d (fst c) (snd c) = Some c' -> adjacent c c'.
Proof.
  intros Hd. destruct c as [r k]. unfold adjacent.
  four_directions Hd; simpl; intros [= <-]; simpl; lia.
Qed.

Section Stuck.
Variables (d : string) (tiles : list Tile.t) (g0 : list (list (option nat))).
Hypothesis Hd : valid_direction d = true.
Hypothesis Hwf : well_formed tiles.
Hypothesis Hat : forall i s, tiles !! i = Some s -> gat g0 (cell s) = Some i.
Hypothesis Hfull : board_full tiles.
Hypothesis Hdiff : ~ equal_neighbours tiles.

Lemma stuck_occupied (c : Z * Z) : inb c -> is_Some (gat g0 c).
Proof.
  intros Hc. specialize (Hfull c Hc).
  apply list_elem_of_fmap in Hfull as (s & -> & Hs).
  apply list_elem_of_lookup in Hs as [n Hn]. rewrite (Hat n s Hn). eauto.
Qed.

(** While [moved] is false, the tile of a cell shows there the value it has
    in the heap. *)
Lemma stuck_value (rest : list (Z * Z)) (h : list Tile.t) (l : Locals)
    (c : Z * Z) (i : nat) :
  Inv d (reset_merged_flags tiles) g0 rest h l -> moved l = false ->
  inb c -> gat (grid l) c = Some i ->
  value_at cell tiles c = Some (Tile.value (h !!! i)).
Proof.
  intros HI Hm Hc Hi.
  destruct (inv_still _ _ _ _ _ _ HI Hm) as [Hg Hv].
  destruct (inv_ref _ _ _ _ _ _ HI c i Hc Hi) as [Hlt _].
  destruct (Hv i Hlt) as [-> _].
  assert (Hlt0 : (i < length tiles)%nat).
  { rewrite <- reset_length, <- (inv_len _ _ _ _ _ _ HI). exact Hlt. }
  pose proof (list_lookup_lookup_total_lt tiles i Hlt0) as Hs.
  destruct (after_origin tiles g0 Hwf Hat i _ Hs) as [Hin Hg0].
  assert (E : cell (tiles !!! i) = c).
  { apply (inv_inj _ _ _ _ _ _ HI _ c i Hin Hc); [|exact Hi].
    rewrite Hg by exact Hin. exact Hg0. }
  destruct Hwf as [Hnd _].
  rewrite <- E, (value_at_lookup cell tiles i _ Hnd Hs).
  rewrite reset_lookup by exact Hlt0. reflexivity.
Qed.

Lemma visit_stuck (p : Z * Z) (rest : list (Z * Z)) (h : list Tile.t)
    (l : Locals) :
  inb p -> (forall c, c ∈ rest -> rank d p < rank d c) ->
  Inv d (reset_merged_flags tiles) g0 (p :: rest) h l -> moved l = false ->
  exists h' l', visit d p l h = (h', Ret l')
                /\ Inv d (reset_merged_flags tiles) g0 rest h' l'
                /\ moved l' = false.
Proof.
  intros Hp Hsorted HI Hm.
  destruct (visit_inv d _ g0 p rest h l Hd Hp Hsorted HI) as (h' & l' & Hv & HI').
  exists h', l'. split; [exact Hv|]. split; [exact HI'|].
  pose proof (inv_shape _ _ _ _ _ _ HI) as Hs.
  destruct (inv_still _ _ _ _ _ _ HI Hm) as [Hg _].
  destruct (gat (grid l) p) as [i|] eqn:Hi.
  2:{ rewrite (visit_none d p l h Hs Hp Hi) in Hv. injection Hv as <- <-.
      exact Hm. }
  destruct (slide_spec slide_fuel d i (mkLocals (grid l) p (moved l)) h Hd)
    as (h1 & l1 & Hrun & Hpost); [exact Hs|exact Hp|exact Hi| |].
  { pose proof (dist_bounds d p Hd Hp). simpl.
    unfold slide_fuel, ROWS, COLS. lia. }
  rewrite (visit_some d p l h i h1 l1 Hs Hp Hi Hrun) in Hv.
  injection Hv as <- <-.
  assert (Hstay : current l1 = p).
  { destruct (decide (current l1 = p)) as [E|E]; [exact E|exfalso].
    assert (Hin' : inb (current l1)) by (destruct Hpost; assumption).
    assert (Hemp : gat (grid l) (current l1) = None)
      by (destruct Hpost as [? ? ? ? Hemp|? ? ? ? ? ? Hemp]; apply Hemp, E).
    rewrite Hg in Hemp by exact Hin'.
    pose proof (stuck_occupied (current l1) Hin') as Hsome.
    rewrite Hemp in Hsome. eapply is_Some_None, Hsome. }
  destruct Hpost as [-> Hin' Hl' Hd' Hemp Hs' Hgat Hmv
                    |j q' -> Hin' Hl' Hd' Hemp Hnx Hinq' Hj Hval Hm1 Hm2 Hs' Hgat Hmv];
    simpl in *.
  - rewrite Hmv, decide_True by exact Hstay. exact Hm.
  - exfalso. apply Hdiff. rewrite Hstay in Hnx.
    exists p, q', (Tile.value (h !!! i)).
    split; [exact Hp|]. split; [exact Hinq'|].
    split; [eapply next_pos_adjacent; eassumption|].
    split; [eapply stuck_value; eassumption|].
    rewrite <- Hval. eapply stuck_value; eassumption.
Qed.

Lemma for_cells_stuck (cells : list (Z * Z)) :
  Forall inb cells ->
  StronglySorted (fun a b => rank d a < rank d b) cells ->
  forall h l,
    Inv d (reset_merged_flags tiles) g0 cells h l -> moved l = false ->
    exists h' l', for_cells d cells l h = (h', Ret l') /\ moved l' = false.
Proof.
  intros Hin Hsorted.
  induction cells as [|p rest IH]; intros h l HI Hm; simpl.
  - exists h, l. auto.
  - apply Forall_cons in Hin as [Hp Hin].
    apply StronglySorted_inv in Hsorted as [Hsorted Hlt].
    rewrite Forall_forall in Hlt.
    destruct (visit_stuck p rest h l Hp Hlt HI Hm) as (h1 & l1 & Hv & HI1 & Hm1).
    destruct (IH Hin Hsorted h1 l1 HI1 Hm1) as (h' & l' & Hrun & Hm').
    exists h', l'. split; [|exact Hm'].
    unfold bind. rewrite Hv. exact Hrun.
Qed.

End Stuck.

(** X11: the game-over test is sound.  On a board with pairwise-distinct
    in-bounds cells on which [can_move] returns [False], [move] returns
    [False] in each of the four directions. *)
Theorem game_over_no_move (tiles : list Tile.t) (d : string) :
  well_formed tiles -> can_move tiles = Ret false ->
  valid_direction d = true ->
  exists ts', move tiles d = (ts', Ret false).
Proof.
  intros Hwf Hcm Hd.
  destruct (can_move_outcome tiles Hwf) as (b & Hb & Hiff).
  rewrite Hcm in Hb. injection Hb as <-.
  destruct (proj1 Hiff eq_refl) as [Hfull Hdiff].
  destruct (build_grid_wf tiles Hwf) as (g0 & Hb & Hat & Hout).
  destruct (traverse_valid d Hd) as (cells & Ht & Hcells & Hsorted).
  destruct (for_cells_stuck d tiles g0 Hd Hwf Hat Hfull Hdiff cells)
    with (h := reset_merged_flags tiles) (l := mkLocals g0 (0, 0) false)
    as (h' & l' & Hrun & Hm); try assumption; try reflexivity.
  - apply Forall_forall. intros p Hp. apply Hcells, Hp.
  - apply inv_init; [exact Hb|]. intros p Hp. apply Hcells, Hp.
  - exists (purge h'). unfold move.
    rewrite move_loop_unfold, Hb, Ht, Hrun, Hm. reflexivity.
Qed.

Lemma game_over_no_move_witness :
  exists ts',
    move (mk_row 0 [2; 4; 2; 4] ++ mk_row 1 [4; 2; 4; 2]
          ++ mk_row 2 [2; 4; 2; 4] ++ mk_row 3 [4; 2; 4; 2]) "down"
    = (ts', Ret false).
Proof.
  apply (game_over_no_move
           (mk_row 0 [2; 4; 2; 4] ++ mk_row 1 [4; 2; 4; 2]
            ++ mk_row 2 [2; 4; 2; 4] ++ mk_row 3 [4; 2; 4; 2]) "down").
  - concrete_board.
  - vm_compute. reflexivity.
  - reflexivity.
Defined.

(** ** The control loop keeps the board sound and never crashes *)

Lemma spawn_tile_cases (choice : nat) (rnd : Q) (ts : list Tile.t) :
  spawn_tile choice rnd ts = (ts, false)
  \/ exists p, free_cell ts p
       /\ spawn_tile choice rnd ts
          = (ts ++ [Tile.init (new_value rnd) (fst p) (snd p)], true).
Proof.
  unfold spawn_tile. destruct (available ts) as [|rc0 av] eqn:E; [left; reflexivity|].
  right. set (k := (choice mod length (rc0 :: av))%nat).
  assert (Hk : (k < length (rc0 :: av))%nat)
    by (apply Nat.mod_upper_bound; simpl; lia).
  destruct (lookup_lt_is_Some_2 _ _ Hk) as [p Hp].
  exists p. split.
  - apply available_spec. rewrite E. eapply list_elem_of_lookup_2, Hp.
  - rewrite nth_lookup, Hp. reflexivity.
Qed.

Lemma new_value_ok (rnd : Q) : value_ok (new_value rnd).
Proof.
  unfold new_value. destruct (Qle_bool _ _); [exists 0%nat|exists 1%nat];
    reflexivity.
Qed.

Lemma spawn_tile_keeps (choice : nat) (rnd : Q) (ts : list Tile.t) :
  well_formed ts -> Forall (fun s => value_ok (Tile.value s)) ts ->
  well_formed (fst (spawn_tile choice rnd ts))
  /\ Forall (fun s => value_ok (Tile.value s)) (fst (spawn_tile choice rnd ts)).
Proof.
  intros [Hnd Hin] Hv.
  destruct (spawn_tile_cases choice rnd ts) as [-> |(p & [Hp Hfree] & ->)];
    simpl; [repeat split; assumption|].
  split; [split|].
  - rewrite map_app. simpl. apply NoDup_app. split; [exact Hnd|].
    split; [|apply NoDup_singleton].
    intros c Hc Hc'. apply list_elem_of_singleton in Hc'. subst c.
    apply Hfree. destruct p; exact Hc.
  - apply Forall_app. split; [exact Hin|]. constructor; [|constructor].
    destruct p; exact Hp.
  - apply Forall_app. split; [exact Hv|]. constructor; [|constructor].
    apply new_value_ok.
Qed.

(** X12: [spawn_tile] keeps a board sound: on a list with pairwise-distinct
    in-bounds cells and values that are powers of two the list it leaves is
    such a list again, and it is longer by one exactly when the call
    returns [True]. *)
Theorem spawn_tile_keeps_board (choice : nat) (rnd : Q) (ts : list Tile.t) :
  well_formed ts -> Forall (fun s => value_ok (Tile.value s)) ts ->
  well_formed (fst (spawn_tile choice rnd ts))
  /\ Forall (fun s => value_ok (Tile.value s)) (fst (spawn_tile choice rnd ts))
  /\ length (fst (spawn_tile choice rnd ts))
     = (length ts + if snd (spawn_tile choice rnd ts) then 1 else 0)%nat.
Proof.
  intros Hwf Hv. destruct (spawn_tile_keeps choice rnd ts Hwf Hv) as [H1 H2].
  split; [exact H1|]. split; [exact H2|].
  destruct (spawn_tile_cases choice rnd ts) as [-> |(p & _ & ->)]; simpl.
  - lia.
  - rewrite length_app. reflexivity.
Qed.

Lemma spawn_tile_keeps_board_witness :
  well_formed (fst (spawn_tile 7 (1 # 20) (mk_row 0 [2; 2; 4; 0])))
  /\ Forall (fun s => value_ok (Tile.value s))
            (fst (spawn_tile 7 (1 # 20) (mk_row 0 [2; 2; 4; 0])))
  /\ length (fst (spawn_tile 7 (1 # 20) (mk_row 0 [2; 2; 4; 0])))
     = (length (mk_row 0 [2; 2; 4; 0])%Z
        + if snd (spawn_tile 7 (1 # 20) (mk_row 0 [2; 2; 4; 0])%Z) then 1 else 0)%nat.
Proof.
  apply (spawn_tile_keeps_board 7 (1 # 20) (mk_row 0 [2; 2; 4; 0])).
  - concrete_board.
  - repeat constructor; [exists 0%nat|exists 0%nat|exists 1%nat]; reflexivity.
Defined.

Lemma quit_events_spec (evs : list event) (g : Game) :
  (QUIT ∈ evs ->
   quit_events evs g
   = mkGame (tiles g) false (animating g) (merge_animation_running g))
  /\ (QUIT ∉ evs -> quit_events evs g = g).
Proof.
  induction evs as [|e evs [IH1 IH2]]; simpl.
  - split; [intros H; inversion H|reflexivity].
  - destruct e; split; try reflexivity.
    + intros Hn. destruct Hn. left.
    + intros Hin. apply elem_of_cons in Hin as [|Hin]; [discriminate|auto].
    + intros Hn. apply IH2. intros Hin. apply Hn. right. exact Hin.
    + intros Hin. apply elem_of_cons in Hin as [|Hin]; [discriminate|auto].
    + intros Hn. apply IH2. intros Hin. apply Hn. right. exact Hin.
Qed.

(** X13: while an animation is on, a frame looks at its events only to
    see whether [QUIT] is among them: key presses are ignored. *)
Theorem frame_ignores_keys_while_animating (evs evs' : list event)
    (choice : nat) (rnd : Q) (g : Game) :
  idle g = false -> (QUIT ∈ evs <-> QUIT ∈ evs') ->
  frame evs choice rnd g = frame evs' choice rnd g.
Proof.
  intros Hidle Hq. unfold frame. unfold idle in Hidle. rewrite Hidle.
  destruct (animate choice rnd g) as [g'|e|]; try reflexivity.
  destruct (quit_events_spec evs g') as [H1 H2].
  destruct (quit_events_spec evs' g') as [H1' H2'].
  destruct (decide (QUIT ∈ evs)) as [Hin|Hn].
  - rewrite (H1 Hin), (H1' (proj1 Hq Hin)). reflexivity.
  - rewrite (H2 Hn), H2'; [reflexivity|]. intros Hin. apply Hn, Hq, Hin.
Qed.

Lemma frame_ignores_keys_while_animating_witness :
  frame [KEYDOWN K_LEFT; OTHER_EVENT] 0 (1 # 2) (merging_game 7 false)
  = frame [] 0 (1 # 2) (merging_game 7 false).
Proof.
  apply (frame_ignores_keys_while_animating
           [KEYDOWN K_LEFT; OTHER_EVENT] [] 0 (1 # 2) (merging_game 7 false)).
  - reflexivity.
  - split; intros H; [|inversion H].
    repeat (apply elem_of_cons in H as [H|H]; [discriminate|]). inversion H.
Defined.

Lemma same_target_cell (s s' : Tile.t) :
  target s' = target s -> target_cell s' = target_cell s.
Proof. unfold target, target_cell. intros [= -> ->]. reflexivity. Qed.

(** A pass over the tiles that leaves the targets alone keeps the target
    cells distinct and on the board. *)
Lemma map_keeps_targets (f : Tile.t -> Tile.t) (ts : list Tile.t) :
  (forall s, target (f s) = target s) ->
  targets_ok ts -> targets_ok (map f ts).
Proof.
  intros Hf [Hnd Hin].
  assert (E : map target_cell (map f ts) = map target_cell ts).
  { rewrite map_map. apply map_ext. intros s. apply same_target_cell, Hf. }
  split.
  - rewrite E. exact Hnd.
  - apply Forall_fmap. eapply Forall_impl; [exact Hin|].
    intros s Hs. simpl. rewrite (same_target_cell s (f s)); [exact Hs|apply Hf].
Qed.

(** The same for the logical cells. *)
Lemma map_keeps_cells (f : Tile.t -> Tile.t) (ts : list Tile.t) :
  (forall s, cell (f s) = cell s) ->
  well_formed ts -> well_formed (map f ts).
Proof.
  intros Hf [Hnd Hin].
  assert (E : map cell (map f ts) = map cell ts).
  { rewrite map_map. apply map_ext. intros s. apply Hf. }
  split.
  - rewrite E. exact Hnd.
  - apply Forall_fmap. eapply Forall_impl; [exact Hin|].
    intros s Hs. simpl. rewrite Hf. exact Hs.
Qed.

(** *** Values that fit the board *)

Lemma runtime_limits :
  WIDTH <= FLOAT_LIMIT /\ HEIGHT <= FLOAT_LIMIT /\ 2 <= FLOAT_LIMIT
  /\ 2 ^ 18 <= 10 ^ INT_MAX_STR_DIGITS.
Proof.
  split; [|split; [|split]]; apply Z.leb_le; vm_compute; reflexivity.
Qed.

Lemma fits_board_bound (vs : list Z) (v : Z) :
  fits_board vs -> v ∈ vs -> v < 2 ^ 18.
Proof.
  intros [_ H] Hv. destruct (Z.lt_ge_cases v (2 ^ 18)) as [|Hge];
    [assumption|exfalso].
  assert (H18 : (3 <= 18 <= 18)%nat) by lia. specialize (H 18%nat H18).
  assert (Hin : v ∈ filter (fun v => 2 ^ Z.of_nat 18 <= v) vs)
    by (apply list_elem_of_filter; split; [exact Hge|exact Hv]).
  destruct (filter _ vs); [inversion Hin|]. cbn [length] in H. lia.
Qed.

Lemma fits_board_perm (l l' : list Z) :
  l ≡ₚ l' -> fits_board l -> fits_board l'.
Proof.
  intros Hp [Hl Hk]. split; [rewrite <- Hp; exact Hl|].
  intros k Hk'. rewrite <- Hp. apply Hk, Hk'.
Qed.

Lemma filter_length_mono {A} (P Q : A -> Prop) `{forall a, Decision (P a)}
    `{forall a, Decision (Q a)} (l : list A) :
  (forall a, P a -> Q a) ->
  (length (filter P l) <= length (filter Q l))%nat.
Proof.
  intros HPQ. induction l as [|a l IH]; [reflexivity|].
  rewrite !filter_cons.
  destruct (decide (P a)), (decide (Q a)); cbn [length]; try lia.
  exfalso; auto.
Qed.

(** Two equal values make room for their sum. *)
Lemma fits_board_pair (v : Z) (rest : list Z) :
  fits_board (v :: v :: rest) -> fits_board (v * 2 :: rest).
Proof.
  intros [Hl Hk]. cbn [length] in Hl. split; [cbn [length]; lia|].
  intros k Hk3.
  pose proof (Hk k Hk3) as H1. rewrite !filter_cons in H1. rewrite filter_cons.
  pose proof (length_filter (fun x => 2 ^ Z.of_nat k <= x) rest) as Hle.
  destruct (decide (2 ^ Z.of_nat k <= v)) as [Hv|Hv]; cbn [length] in H1.
  - destruct (decide (2 ^ Z.of_nat k <= v * 2)); cbn [length]; lia.
  - destruct (decide (2 ^ Z.of_nat k <= v * 2)) as [Hv2|Hv2]; cbn [length];
      [|lia].
    destruct (decide (k = 3%nat)) as [->|Hk4]; [lia|].
    assert (Hpow : 2 ^ Z.of_nat k = 2 * 2 ^ Z.of_nat (k - 1)).
    { rewrite <- Z.pow_succ_r by lia. f_equal. lia. }
    assert (Hk' : (3 <= k - 1 <= 18)%nat) by lia.
    pose proof (Hk (k - 1)%nat Hk') as H2. rewrite !filter_cons in H2.
    destruct (decide (2 ^ Z.of_nat (k - 1) <= v)) as [Hv'|Hv']; [|lia].
    cbn [length] in H2.
    pose proof (filter_length_mono (fun x => 2 ^ Z.of_nat k <= x)
                  (fun x => 2 ^ Z.of_nat (k - 1) <= x) rest) as Hm.
    assert (Hpos : 0 < 2 ^ Z.of_nat (k - 1)) by (apply Z.pow_pos_nonneg; lia).
    assert (Himp : forall a, 2 ^ Z.of_nat k <= a -> 2 ^ Z.of_nat (k - 1) <= a)
      by (intros a Ha; rewrite Hpow in Ha; lia).
    specialize (Hm Himp). lia.
Qed.

Lemma fits_board_merged (l l' : list Z) :
  merged_from l l' -> fits_board l -> fits_board l'.
Proof.
  induction 1 as [l l' Hp|l v rest l' Hp _ IH]; intros Hf.
  - eapply fits_board_perm; eassumption.
  - apply IH, fits_board_pair. eapply fits_board_perm; eassumption.
Qed.

Lemma fits_board_snoc (vs : list Z) (v : Z) :
  fits_board vs -> (length (vs ++ [v]) <= 16)%nat -> v < 8 ->
  fits_board (vs ++ [v]).
Proof.
  intros [Hl Hk] Hlen Hv. split; [exact Hlen|].
  intros k Hk3. rewrite filter_app, length_app, filter_cons.
  assert (H8 : 2 ^ 3 <= 2 ^ Z.of_nat k) by (apply Z.pow_le_mono_r; lia).
  destruct (decide _) as [Hc|Hc]; [cbn beta in Hc; lia|].
  specialize (Hk k Hk3). cbn [length filter]. rewrite filter_nil. cbn [length]. lia.
Qed.

Lemma filter_none {A} (P : A -> Prop) `{forall a, Decision (P a)} (l : list A) :
  Forall (fun a => ~ P a) l -> filter P l = [].
Proof.
  induction 1 as [|a l Ha _ IH]; [reflexivity|].
  rewrite filter_cons_False by exact Ha. exact IH.
Qed.

Lemma fits_board_small (vs : list Z) :
  (length vs <= 16)%nat -> Forall (fun v => v < 8) vs -> fits_board vs.
Proof.
  intros Hlen Hall. split; [exact Hlen|]. intros k Hk3.
  assert (H8 : 2 ^ 3 <= 2 ^ Z.of_nat k) by (apply Z.pow_le_mono_r; lia).
  rewrite filter_none; [cbn [length]; lia|].
  eapply Forall_impl; [exact Hall|]. intros v Hv. cbn beta in *.
  change (2 ^ 3) with 8 in H8. lia.
Qed.

Lemma cells_length (l : list (Z * Z)) :
  NoDup l -> Forall inb l -> (length l <= 16)%nat.
Proof.
  intros Hnd Hin. rewrite <- all_cells_length.
  apply submseteq_length, NoDup_submseteq; [exact Hnd|].
  intros p Hp. apply inb_all_cells. rewrite Forall_forall in Hin. apply Hin, Hp.
Qed.

Lemma well_formed_length (ts : list Tile.t) :
  well_formed ts -> (length ts <= 16)%nat.
Proof.
  intros [Hnd Hin]. rewrite <- (length_map cell).
  apply cells_length; [exact Hnd|]. apply Forall_fmap. exact Hin.
Qed.

(** *** Sound tiles can be drawn, and stay sound *)

Lemma sound_drawable (ts : list Tile.t) : sound ts -> Forall drawable ts.
Proof.
  intros (Hv & Ho & Hf). apply Forall_forall. intros s Hs.
  rewrite Forall_forall in Hv, Ho. specialize (Hv s Hs). specialize (Ho s Hs).
  assert (Hb : Tile.value s < 2 ^ 18).
  { apply (fits_board_bound _ _ Hf), list_elem_of_fmap. eauto. }
  destruct runtime_limits as (HW & HH & HF & HL).
  destruct Ho as (Hx & Hy & _ & _ & Hc). destruct Hv as [k Hk].
  assert (Hpos : 0 < Tile.value s) by (rewrite Hk; apply Z.pow_pos_nonneg; lia).
  unfold drawable. set (L := 10 ^ INT_MAX_STR_DIGITS) in *.
  unfold MERGE_ANIM_DURATION in *. lia.
Qed.

Lemma sound_map (f : Tile.t -> Tile.t) (ts : list Tile.t) :
  (forall s, Tile.value (f s) = Tile.value s) ->
  (forall s, on_screen s -> on_screen (f s)) ->
  sound ts -> sound (map f ts).
Proof.
  intros Hv Ho (H1 & H2 & H3). split; [|split].
  - apply Forall_fmap. eapply Forall_impl; [exact H1|].
    intros s Hs. cbn. rewrite Hv. exact Hs.
  - apply Forall_fmap. eapply Forall_impl; [exact H2|].
    intros s Hs. apply Ho, Hs.
  - rewrite map_map. erewrite map_ext; [exact H3|]. intros s. apply Hv.
Qed.

Lemma update_position_on_screen (s : Tile.t) :
  on_screen s -> on_screen (fst (Tile.update_position s)).
Proof.
  intros (Hx & Hy & Htx & Hty & Hc).
  destruct (update_position_axes s) as (_ & _ & Hbx & Hby).
  destruct (update_position_fields s) as (Ht & _ & _ & _ & Hcnt).
  unfold target in Ht. injection Ht as Etx Ety.
  unfold on_screen. rewrite Etx, Ety, Hcnt. lia.
Qed.

Lemma drawn_on_screen (s : Tile.t) : on_screen s -> on_screen (drawn s).
Proof.
  unfold on_screen. destruct (drawn_fields s) as (Ht & _ & _ & -> & ->).
  unfold target in Ht. injection Ht as -> ->. rewrite drawn_counter.
  destruct (Z.gtb_spec (Tile.merge_anim_counter s) 0); lia.
Qed.

Lemma progress_merges_drawn (ts : list Tile.t) :
  progress_merges ts = map drawn ts.
Proof. reflexivity. Qed.

Lemma resync_sound (ts : list Tile.t) : sound ts -> sound (resync ts).
Proof.
  unfold resync. apply sound_map; [reflexivity|].
  intros s Hs. exact Hs.
Qed.

Lemma sound_nil : sound [].
Proof.
  split; [constructor|]. split; [constructor|].
  apply fits_board_small; [simpl; lia|constructor].
Qed.

Lemma spawn_tile_sound (choice : nat) (rnd : Q) (ts : list Tile.t) :
  well_formed ts -> sound ts -> sound (fst (spawn_tile choice rnd ts)).
Proof.
  intros Hwf (Hv & Ho & Hf).
  destruct (spawn_tile_keeps choice rnd ts Hwf Hv) as [Hwf' Hv'].
  pose proof (well_formed_length _ Hwf') as Hlen.
  split; [exact Hv'|]. revert Hlen.
  destruct (spawn_tile_cases choice rnd ts) as [-> |(p & [Hp Hfree] & ->)];
    cbn [fst]; intros Hlen; [split; assumption|].
  split.
  - apply Forall_app. split; [exact Ho|]. constructor; [|constructor].
    apply inb_bounds in Hp. destruct p as [r c]. cbn [fst snd] in *.
    unfold on_screen, Tile.init. cbn [Tile.x Tile.y Tile.target_x
      Tile.target_y Tile.merge_anim_counter].
    change RECT_WIDTH with 200. change RECT_HEIGHT with 200.
    unfold ROWS, COLS in Hp. unfold WIDTH, HEIGHT, MERGE_ANIM_DURATION. lia.
  - rewrite map_app. cbn [map]. apply fits_board_snoc; [exact Hf| |].
    + rewrite length_app, length_map in *. exact Hlen.
    + cbn [Tile.init Tile.value]. unfold new_value.
      destruct (Qle_bool _ _); lia.
Qed.

Lemma div_window (a : Z) : 0 <= a / 200 < 4 -> 0 <= a < 800.
Proof.
  intros Ha. pose proof (Z.div_mod a 200 ltac:(lia)) as E.
  pose proof (Z.mod_pos_bound a 200 ltac:(lia)) as Hm. lia.
Qed.

(** What a move makes of a sound board. *)
Lemma move_sound (tiles : list Tile.t) (d : string) :
  well_formed tiles -> valid_direction d = true -> sound tiles ->
  exists m ts',
    move tiles d = (ts', Ret m)
    /\ map cell ts' `sublist_of` map cell tiles
    /\ targets_ok ts' /\ sound ts'.
Proof.
  intros Hwf Hd (Hv & Ho & Hf).
  destruct (move_loop_wf d tiles Hwf Hd) as (g0 & h' & l' & Hat & Hout & Hrun & HI).
  destruct (move_summary tiles d Hwf Hd) as (m & ts' & Hmv & Hsub & Ht & _ & Hv').
  exists m, ts'. split; [exact Hmv|]. split; [exact Hsub|]. split; [exact Ht|].
  assert (Ets : ts' = purge h').
  { rewrite (move_of_loop d tiles h' (moved l') Hrun) in Hmv. congruence. }
  split; [exact (Hv' Hv)|]. split.
  - pose proof (move_loop_untouched d tiles) as Hunt.
    rewrite Hrun in Hunt. cbn [fst] in Hunt.
    destruct Ht as [_ Htin]. rewrite Forall_forall in Htin, Ho.
    apply Forall_forall. intros s' Hs'. specialize (Htin s' Hs').
    rewrite Ets in Hs'. apply list_elem_of_filter in Hs' as [_ Hs'].
    apply list_elem_of_lookup in Hs' as [i Hi].
    destruct (Forall2_lookup_r _ _ _ _ _ Hunt Hi)
      as (s & Hsi & (Hr & Hc & Hx & Hy & Hcnt)).
    pose proof (Ho s (list_elem_of_lookup_2 _ _ _ Hsi)) as (? & ? & _ & _ & ?).
    apply inb_bounds in Htin. unfold target_cell in Htin. cbn [fst snd] in Htin.
    unfold on_screen. rewrite Hx, Hy.
    change RECT_HEIGHT with 200 in Htin. change RECT_WIDTH with 200 in Htin.
    unfold ROWS, COLS in Htin. unfold WIDTH, HEIGHT, MERGE_ANIM_DURATION in *.
    destruct Htin as [Hty Htx]. apply div_window in Hty, Htx. lia.
  - rewrite Ets. eapply fits_board_merged; [|exact Hf].
    pose proof (inv_mass _ _ _ _ _ _ HI) as Hm.
    destruct (reset_summary tiles) as (_ & E & _). rewrite E in Hm. exact Hm.
Qed.

(** *** The frame *)

Lemma settle_keeps (choice : nat) (rnd : Q) (ts : list Tile.t) (run : bool) :
  targets_ok ts -> sound ts ->
  exists ts' run',
    settle choice rnd ts run = Ret (ts', run')
    /\ well_formed ts' /\ sound ts'.
Proof.
  intros [Hnd Hin] Hs.
  assert (Hwf : well_formed (resync ts)).
  { split; [rewrite resync_cells; exact Hnd|].
    unfold resync. apply Forall_fmap. exact Hin. }
  pose proof (resync_sound ts Hs) as Hs'.
  destruct Hs' as (Hv' & Ho' & Hf').
  destruct (spawn_tile_keeps choice rnd (resync ts) Hwf Hv') as [Hwf2 _].
  pose proof (spawn_tile_sound choice rnd (resync ts) Hwf
                (conj Hv' (conj Ho' Hf'))) as Hs2.
  destruct (can_move_outcome _ Hwf2) as (b & Hb & _).
  unfold settle. rewrite Hb. eexists _, _. split; [reflexivity|]. auto.
Qed.

Lemma animate_keeps (choice : nat) (rnd : Q) (g : Game) :
  idle g = false -> game_ok g ->
  exists g', animate choice rnd g = Ret g' /\ game_ok g'.
Proof.
  intros Hidle [Hs Hok]. rewrite Hidle in Hok.
  assert (Ht1 : targets_ok (map (fun s => fst (Tile.update_position s)) (tiles g))).
  { apply map_keeps_targets; [|exact Hok].
    intros s. apply update_position_fields. }
  assert (Hs1 : sound (map (fun s => fst (Tile.update_position s)) (tiles g))).
  { apply sound_map; [| |exact Hs].
    - intros s. apply update_position_fields.
    - apply update_position_on_screen. }
  unfold animate, update_positions.
  set (ts := map (fun s => fst (Tile.update_position s)) (tiles g)) in *.
  destruct (existsb _ (tiles g)).
  { eexists. split; [reflexivity|]. split; [exact Hs1|].
    unfold idle in *. cbn [animating merge_animation_running tiles].
    rewrite Hidle. exact Ht1. }
  assert (Ht2 : targets_ok (progress_merges ts)).
  { rewrite progress_merges_drawn. apply map_keeps_targets; [|exact Ht1].
    intros s. apply drawn_fields. }
  assert (Hs2 : sound (progress_merges ts)).
  { rewrite progress_merges_drawn. apply sound_map; [| |exact Hs1].
    - intros s. apply drawn_fields.
    - apply drawn_on_screen. }
  match goal with
  | |- context [if ?m then _ else _] => destruct m eqn:Hmar
  end.
  - destruct (forallb _ (progress_merges ts)).
    + destruct (settle_keeps choice rnd (progress_merges ts) (running g) Ht2 Hs2)
        as (ts' & run' & -> & Hwf & Hs').
      eexists. split; [reflexivity|]. split; [exact Hs'|exact Hwf].
    + eexists. split; [reflexivity|]. split; [exact Hs2|].
      unfold idle. cbn [animating merge_animation_running tiles].
      rewrite andb_false_r. exact Ht2.
  - destruct (settle_keeps choice rnd ts (running g) Ht1 Hs1)
      as (ts' & run' & -> & Hwf & Hs').
    eexists. split; [reflexivity|]. split; [exact Hs'|exact Hwf].
Qed.

Lemma key_direction_valid (k : key) (dir : string) :
  key_direction k = Some dir -> valid_direction dir = true.
Proof. destruct k; simpl; intros [= <-]; reflexivity. Qed.

Lemma idle_events_keeps (evs : list event) (g : Game) :
  well_formed (tiles g) -> sound (tiles g) ->
  (idle g = false -> targets_ok (tiles g)) ->
  exists g', idle_events evs g = Ret g' /\ game_ok g'.
Proof.
  revert g. induction evs as [|e evs IH]; intros g Hwf Hs Ht; simpl.
  - exists g. split; [reflexivity|]. split; [exact Hs|].
    destruct (idle g); auto.
  - destruct e as [|k|].
    + eexists. split; [reflexivity|]. split; [exact Hs|].
      change (idle (mkGame (tiles g) false (animating g)
                           (merge_animation_running g))) with (idle g).
      simpl. destruct (idle g); auto.
    + destruct (key_direction k) as [dir|] eqn:Hk; [|apply IH; assumption].
      destruct (move_sound (tiles g) dir Hwf (key_direction_valid k dir Hk) Hs)
        as (m & ts' & -> & Hsub & Ht' & Hs').
      apply IH; simpl; auto.
      apply (sublist_well_formed (tiles g) ts' Hwf Hsub).
    + apply IH; assumption.
Qed.

Lemma frame_keeps_game_ok_aux (evs : list event) (choice : nat) (rnd : Q)
    (g : Game) :
  game_ok g -> exists g', frame evs choice rnd g = Ret g' /\ game_ok g'.
Proof.
  intros Hok.
  assert (Hstep : exists g1,
            (if idle g then idle_events evs g
             else match animate choice rnd g with
                  | Ret g' => Ret (quit_events evs g')
                  | Raise e => Raise e
                  | OutOfFuel => OutOfFuel
                  end) = Ret g1 /\ game_ok g1).
  { destruct (idle g) eqn:Hidle.
    - destruct Hok as [Hs Hwf]. rewrite Hidle in Hwf.
      apply idle_events_keeps; try assumption. congruence.
    - destruct (animate_keeps choice rnd g Hidle Hok) as (g' & -> & [Hs' Hok']).
      eexists. split; [reflexivity|].
      destruct (decide (QUIT ∈ evs)) as [Hq|Hq].
      + rewrite (proj1 (quit_events_spec evs g') Hq). split; [exact Hs'|exact Hok'].
      + rewrite (proj2 (quit_events_spec evs g') Hq). split; assumption. }
  destruct Hstep as (g1 & Hrun & [Hs1 Hok1]).
  unfold frame. fold (idle g). rewrite Hrun.
  rewrite (draw_all _ (sound_drawable _ Hs1)).
  eexists. split; [reflexivity|]. unfold game_ok.
  change (idle (mkGame (map drawn (tiles g1)) (running g1) (animating g1)
                       (merge_animation_running g1))) with (idle g1).
  cbn [tiles]. split.
  - apply sound_map; [| |exact Hs1].
    + intros s. apply drawn_fields.
    + apply drawn_on_screen.
  - destruct (idle g1).
    + apply map_keeps_cells; [|exact Hok1]. intros s. apply drawn_fields.
    + apply map_keeps_targets; [|exact Hok1]. intros s. apply drawn_fields.
Qed.

(** X14: the control loop keeps the game sound and does not crash.  In a
    sound game the values are powers of two that fit the board (at most
    [18 - k] of them reach [2 ^ k]), the tiles and their targets are on the
    window, the countdowns between 0 and [MERGE_ANIM_DURATION], and the
    cells (when it is idle) or target cells (while an animation is on) are
    pairwise distinct and on the board.  From a sound game a frame returns,
    whatever the events and the draws, without raising, and leaves a sound
    game. *)
Theorem frame_keeps_game_ok (evs : list event) (choice : nat) (rnd : Q)
    (g : Game) :
  game_ok g -> exists g', frame evs choice rnd g = Ret g' /\ game_ok g'.
Proof. apply frame_keeps_game_ok_aux. Qed.

Lemma frame_keeps_game_ok_witness :
  exists g', frame [KEYDOWN K_LEFT] 3 (1 # 2)
               (mkGame (mk_row 0 [2; 2; 4; 0]) true false false) = Ret g'
             /\ game_ok g'.
Proof.
  apply (frame_keeps_game_ok [KEYDOWN K_LEFT] 3 (1 # 2)
           (mkGame (mk_row 0 [2; 2; 4; 0]) true false false)).
  split; [split; [|split]|].
  - repeat constructor; [exists 0%nat|exists 0%nat|exists 1%nat]; reflexivity.
  - repeat constructor; vm_compute; (reflexivity || discriminate).
  - apply fits_board_small; [vm_compute; lia|].
    repeat constructor; vm_compute; reflexivity.
  - simpl. concrete_board.
Defined.

Lemma initial_game_ok (choice1 : nat) (rnd1 : Q) (choice2 : nat) (rnd2 : Q) :
  game_ok (initial_game choice1 rnd1 choice2 rnd2).
Proof.
  assert (Hwf0 : well_formed []) by (split; constructor).
  pose proof sound_nil as Hs0. pose proof Hs0 as (Hv0 & _).
  destruct (spawn_tile_keeps choice1 rnd1 [] Hwf0 Hv0) as [Hwf1 Hv1].
  pose proof (spawn_tile_sound choice1 rnd1 [] Hwf0 Hs0) as Hs1.
  destruct (spawn_tile_keeps choice2 rnd2 _ Hwf1 Hv1) as [Hwf2 Hv2].
  pose proof (spawn_tile_sound choice2 rnd2 _ Hwf1 Hs1) as Hs2.
  split; [exact Hs2|exact Hwf2].
Qed.

(** X15: [main] does not crash.  From its start, two spawns on the empty
    list, any number of iterations of its loop, with any events and draws,
    runs without an exception and ends in a sound game. *)
Theorem main_loop_never_raises (inputs : list (list event * nat * Q))
    (choice1 : nat) (rnd1 : Q) (choice2 : nat) (rnd2 : Q) :
  exists g,
    main_loop inputs (initial_game choice1 rnd1 choice2 rnd2) = Ret g
    /\ game_ok g.
Proof.
  generalize (initial_game_ok choice1 rnd1 choice2 rnd2).
  generalize (initial_game choice1 rnd1 choice2 rnd2).
  induction inputs as [|[[evs choice] rnd] inputs IH]; intros g Hok; simpl.
  - eauto.
  - destruct (running g); [|eauto].
    destruct (frame_keeps_game_ok_aux evs choice rnd g Hok) as (g' & -> & Hok').
    apply IH, Hok'.
Qed.

(** ** When nothing moves the game is over *)

(** A run of the [while] loop that leaves [moved] false has done nothing:
    the next cell is off the board or holds a tile it cannot merge with. *)
Lemma slide_unmoved (fuel : nat) (d : string) (i : nat) (l : Locals)
    (h h' : list Tile.t) (l' : Locals) :
  valid_direction d = true ->
  grid_shape (grid l) -> inb (current l) ->
  gat (grid l) (current l) = Some i ->
  (Z.to_nat (dist d (current l)) < fuel)%nat ->
  slide fuel d i l h = (h', Ret l') -> moved l' = false ->
  h' = h /\ l' = l
  /\ exists q', next_pos d (fst (current l)) (snd (current l)) = Some q'
       /\ (inb q' -> exists j, gat (grid l) q' = Some j
                               /\ mergeable h i j = false).
Proof.
  intros Hd Hs Hin Hi Hfuel Hrun Hm.
  destruct fuel as [|fuel]; [lia|]. simpl in Hrun.
  destruct (next_pos_geom d (current l) Hd) as ([nr nc] & Hn & Hline & Hdist).
  rewrite Hn in Hrun.
  destruct (within nr nc) eqn:Hw; simpl in Hrun.
  2:{ injection Hrun as <- <-. repeat split. exists (nr, nc).
      split; [exact Hn|]. unfold inb. simpl. congruence. }
  assert (Hq : inb (nr, nc)) by exact Hw.
  pose proof (dist_bounds d _ Hd Hq) as Hdq.
  assert (Hne : (nr, nc) <> current l) by (intros E; rewrite E in Hdist; lia).
  pose proof (grid_get_inb (grid l) (nr, nc) Hs Hq) as Hg. simpl in Hg.
  unfold bind at 1 in Hrun. unfold lift at 1 in Hrun. rewrite Hg in Hrun.
  destruct (gat (grid l) (nr, nc)) as [nt|] eqn:Hnt.
  - unfold bind, read, write, lift, ret in Hrun. simpl in Hrun.
    destruct (_ && _) eqn:Hcond; simpl in Hrun.
    + rewrite (grid_set_inb (grid l) (current l) None Hs Hin) in Hrun.
      injection Hrun as <- <-. discriminate.
    + injection Hrun as <- <-. repeat split. exists (nr, nc).
      split; [exact Hn|]. intros _. exists nt. split; [exact Hnt|exact Hcond].
  - exfalso.
    pose proof (grid_set_inb (grid l) (nr, nc) (Some i) Hs Hq) as Hset1.
    simpl in Hset1. unfold bind at 1 in Hrun. unfold lift at 1 in Hrun.
    rewrite Hset1 in Hrun.
    assert (Hs1 : grid_shape (gupd (grid l) (nr, nc) (Some i)))
      by (apply gupd_shape; assumption).
    pose proof (grid_set_inb _ (current l) None Hs1 Hin) as Hset2.
    unfold bind at 1 in Hrun. unfold lift at 1 in Hrun. rewrite Hset2 in Hrun.
    set (g2 := gupd (gupd (grid l) (nr, nc) (Some i)) (current l) None) in *.
    destruct (slide_spec fuel d i (mkLocals g2 (nr, nc) true) h Hd)
      as (h2 & l2 & Hrun2 & Hpost); simpl.
    { apply gupd_shape; assumption. }
    { exact Hq. }
    { unfold g2. rewrite !gat_gupd by assumption.
      rewrite decide_False by congruence. rewrite decide_True; reflexivity. }
    { lia. }
    rewrite Hrun2 in Hrun. injection Hrun as -> ->.
    destruct Hpost as [? ? ? ? ? ? ? Hmv|? ? ? ? ? ? ? ? ? ? ? ? ? ? ? Hmv];
      simpl in Hmv; rewrite Hmv in Hm.
    + destruct (decide _); discriminate.
    + discriminate.
Qed.

Lemma mergeable_aim (q : Z * Z) (k : nat) (h : list Tile.t) (i j : nat) :
  mergeable (alter (aim q) k h) i j = mergeable h i j.
Proof.
  assert (Hv : forall n, Tile.value (alter (aim q) k h !!! n) = Tile.value (h !!! n)
                      /\ Tile.merged (alter (aim q) k h !!! n) = Tile.merged (h !!! n)).
  { intros n. rewrite list_lookup_total_alter.
    destruct (decide _) as [[-> _]|_]; [destruct (h !!! n)|]; split; reflexivity. }
  unfold mergeable. destruct (Hv i) as [-> ->], (Hv j) as [-> ->]. reflexivity.
Qed.

(** A traversal that leaves [moved] false started with [moved] false and
    met no tile next to a tile it could merge with or to a free cell. *)
Lemma for_cells_unmoved (d : string) (h0 : list Tile.t)
    (g0 : list (list (option nat))) (cells : list (Z * Z)) :
  valid_direction d = true ->
  Forall inb cells ->
  StronglySorted (fun a b => rank d a < rank d b) cells ->
  forall h l h' l',
    Inv d h0 g0 cells h l ->
    for_cells d cells l h = (h', Ret l') -> moved l' = false ->
    moved l = false
    /\ forall c i c', c ∈ cells -> gat (grid l) c = Some i ->
         next_pos d (fst c) (snd c) = Some c' -> inb c' ->
         exists j, gat (grid l) c' = Some j /\ mergeable h i j = false.
Proof.
  intros Hd Hin Hsorted.
  induction cells as [|p rest IH]; intros h l h' l' HI Hrun Hm; simpl in Hrun.
  - injection Hrun as <- <-. split; [exact Hm|]. intros c i c' Hc. inversion Hc.
  - apply Forall_cons in Hin as [Hp Hin].
    apply StronglySorted_inv in Hsorted as [Hsorted Hlt].
    rewrite Forall_forall in Hlt.
    destruct (visit_inv d h0 g0 p rest h l Hd Hp Hlt HI) as (h1 & l1 & Hv & HI1).
    unfold bind in Hrun. rewrite Hv in Hrun.
    destruct (IH Hin Hsorted h1 l1 h' l' HI1 Hrun Hm) as [Hm1 Hprop].
    pose proof (inv_shape _ _ _ _ _ _ HI) as Hs.
    destruct (gat (grid l) p) as [i|] eqn:Hi.
    2:{ rewrite (visit_none d p l h Hs Hp Hi) in Hv. injection Hv as <- <-.
        split; [exact Hm1|]. intros c i c' Hc Hci.
        apply elem_of_cons in Hc as [->|Hc]; [congruence|].
        apply Hprop; assumption. }
    destruct (slide_spec slide_fuel d i (mkLocals (grid l) p (moved l)) h Hd)
      as (h2 & l2 & Hrun2 & _); [exact Hs|exact Hp|exact Hi| |].
    { pose proof (dist_bounds d p Hd Hp). simpl.
      unfold slide_fuel, ROWS, COLS. lia. }
    rewrite (visit_some d p l h i h2 l2 Hs Hp Hi Hrun2) in Hv.
    injection Hv as <- <-.
    destruct (slide_unmoved slide_fuel d i (mkLocals (grid l) p (moved l))
                h h2 l2 Hd Hs Hp Hi) as (-> & -> & q' & Hq' & Hnext);
      try assumption.
    { pose proof (dist_bounds d p Hd Hp). simpl.
      unfold slide_fuel, ROWS, COLS. lia. }
    simpl in *. split; [exact Hm1|].
    intros c k c' Hc Hck Hcn Hc'.
    apply elem_of_cons in Hc as [->|Hc].
    + rewrite Hq' in Hcn. injection Hcn as <-.
      rewrite Hi in Hck. injection Hck as <-. apply Hnext, Hc'.
    + destruct (Hprop c k c' Hc Hck Hcn Hc') as (j & Hj & Hmg).
      exists j. split; [exact Hj|]. rewrite mergeable_aim in Hmg. exact Hmg.
Qed.

Lemma line_transition (P : Z -> Prop) `{forall k, Decision (P k)} (n : nat) :
  forall a, P a -> ~ P (a + Z.of_nat n) ->
  exists k, a <= k < a + Z.of_nat n /\ P k /\ ~ P (k + 1).
Proof.
  induction n as [|n IH]; intros a Ha Hb.
  - rewrite Z.add_0_r in Hb. contradiction.
  - destruct (decide (P (a + 1))) as [Hn|Hn].
    + destruct (IH (a + 1) Hn) as (k & Hk & HPk & HPk').
      { replace (a + 1 + Z.of_nat n) with (a + Z.of_nat (S n)) by lia.
        exact Hb. }
      exists k. split; [lia|auto].
    + exists a. split; [lia|auto].
Qed.

(** On a board with an occupied and a free cell some occupied cell has a
    free cell next to it. *)
Lemma free_neighbour (occ : Z * Z -> Prop) `{forall c, Decision (occ c)}
    (c0 f : Z * Z) :
  inb c0 -> inb f -> occ c0 -> ~ occ f ->
  exists d c c',
    valid_direction d = true /\ inb c /\ inb c'
    /\ next_pos d (fst c) (snd c) = Some c' /\ occ c /\ ~ occ c'.
Proof.
  intros Hc0 Hf Ho Hfree. destruct c0 as [r0 k0], f as [rf kf].
  pose proof Hc0 as Hb0. apply inb_bounds in Hb0. simpl in Hb0.
  pose proof Hf as Hbf. apply inb_bounds in Hbf. simpl in Hbf.
  destruct (decide (occ (r0, kf))) as [Hm|Hm].
  - (* along the column of the free cell *)
    destruct (Z_le_gt_dec r0 rf) as [Hle|Hgt].
    + destruct (line_transition (fun r => occ (r, kf)) (Z.to_nat (rf - r0)) r0 Hm)
        as (r & Hr & HP & HP').
      { rewrite Z2Nat.id by lia. replace (r0 + (rf - r0)) with rf by lia.
        exact Hfree. }
      rewrite Z2Nat.id in Hr by lia.
      exists "down"%string, (r, kf), (r + 1, kf).
      repeat split; try assumption; try reflexivity;
        apply inb_bounds; simpl; lia.
    + destruct (line_transition (fun r => occ (- r, kf)) (Z.to_nat (r0 - rf)) (- r0))
        as (r & Hr & HP & HP').
      { rewrite Z.opp_involutive. exact Hm. }
      { rewrite Z2Nat.id by lia.
        replace (- (- r0 + (r0 - rf))) with rf by lia. exact Hfree. }
      rewrite Z2Nat.id in Hr by lia.
      exists "up"%string, (- r, kf), (- r - 1, kf).
      replace (- (r + 1)) with (- r - 1) in HP' by lia.
      repeat split; try assumption; try reflexivity;
        apply inb_bounds; simpl; lia.
  - (* along the row of the occupied cell *)
    destruct (Z_le_gt_dec k0 kf) as [Hle|Hgt].
    + destruct (line_transition (fun k => occ (r0, k)) (Z.to_nat (kf - k0)) k0 Ho)
        as (k & Hk & HP & HP').
      { rewrite Z2Nat.id by lia. replace (k0 + (kf - k0)) with kf by lia.
        exact Hm. }
      rewrite Z2Nat.id in Hk by lia.
      exists "right"%string, (r0, k), (r0, k + 1).
      repeat split; try assumption; try reflexivity;
        apply inb_bounds; simpl; lia.
    + destruct (line_transition (fun k => occ (r0, - k)) (Z.to_nat (k0 - kf)) (- k0))
        as (k & Hk & HP & HP').
      { rewrite Z.opp_involutive. exact Ho. }
      { rewrite Z2Nat.id by lia.
        replace (- (- k0 + (k0 - kf))) with kf by lia. exact Hm. }
      rewrite Z2Nat.id in Hk by lia.
      exists "left"%string, (r0, - k), (r0, - k - 1).
      replace (- (k + 1)) with (- k - 1) in HP' by lia.
      repeat split; try assumption; try reflexivity;
        apply inb_bounds; simpl; lia.
Qed.

(** Two cells next to each other are one step apart in some direction. *)
Lemma adjacent_next_pos (p q : Z * Z) :
  adjacent p q ->
  exists d, valid_direction d = true
            /\ next_pos d (fst p) (snd p) = Some q.
Proof.
  intros Hadj. apply adjacent_cases in Hadj.
  destruct p as [r k], q as [r' k']. simpl in *.
  destruct Hadj as [E|[E|[E|E]]]; injection E as -> ->.
  - exists "right"%string. split; reflexivity.
  - exists "left"%string. split; [reflexivity|].
    change (Some (r', k' + 1 - 1) = Some (r', k')). do 2 f_equal. lia.
  - exists "down"%string. split; reflexivity.
  - exists "up"%string. split; [reflexivity|].
    change (Some (r' + 1 - 1, k') = Some (r', k')). do 2 f_equal. lia.
Qed.

Section NoMove.
Variables (d : string) (tiles : list Tile.t).
Hypothesis Hd : valid_direction d = true.
Hypothesis Hwf : well_formed tiles.
Hypothesis Hstay : exists ts', move tiles d = (ts', Ret false).

(** What a move that returns [False] tells about the board: seen in its
    direction, no tile has a free cell or a tile of its value after it. *)
Lemma no_move_blocked (c c' : Z * Z) (s : Tile.t) :
  s ∈ tiles -> cell s = c ->
  next_pos d (fst c) (snd c) = Some c' -> inb c' ->
  exists s', s' ∈ tiles /\ cell s' = c' /\ Tile.value s' <> Tile.value s.
Proof.
  intros Hs Hcs Hnext Hc'.
  destruct (build_grid_wf tiles Hwf) as (g0 & Hb & Hat & Hout).
  destruct (traverse_valid d Hd) as (cells & Ht & Hcells & Hsorted).
  assert (Hin : Forall inb cells)
    by (apply Forall_forall; intros p Hp; apply Hcells, Hp).
  assert (HI0 : Inv d (reset_merged_flags tiles) g0 cells
                    (reset_merged_flags tiles) (mkLocals g0 (0, 0) false))
    by (apply inv_init; [exact Hb|]; intros p Hp; apply Hcells, Hp).
  destruct (for_cells_inv d _ g0 cells Hd Hin Hsorted _ _ HI0)
    as (h' & l' & Hrun & _).
  assert (Hm : moved l' = false).
  { destruct Hstay as [ts' Hmv]. unfold move in Hmv.
    rewrite move_loop_unfold, Hb, Ht, Hrun in Hmv. congruence. }
  destruct (for_cells_unmoved d _ g0 cells Hd Hin Hsorted _ _ _ _ HI0 Hrun Hm)
    as [_ Hprop].
  apply list_elem_of_lookup in Hs as [i Hi].
  assert (Hc : inb c).
  { subst c. destruct Hwf as [_ Hall]. rewrite Forall_forall in Hall.
    eapply Hall, list_elem_of_lookup_2, Hi. }
  destruct (Hprop c i c') as (j & Hj & Hmg); simpl; try assumption.
  { apply Hcells, Hc. }
  { rewrite <- Hcs. apply Hat, Hi. }
  destruct (inv_ref _ _ _ _ _ _ HI0 c' j Hc' Hj) as [Hjl _].
  simpl in Hj. rewrite reset_length in Hjl.
  pose proof (list_lookup_lookup_total_lt tiles j Hjl) as Hjs.
  exists (tiles !!! j). split; [eapply list_elem_of_lookup_2, Hjs|].
  assert (Hcj : cell (tiles !!! j) = c').
  { destruct (decide (c' ∈ map cell tiles)) as [Hcin|Hcn];
      [|rewrite (Hout c' Hc' Hcn) in Hj; discriminate].
    apply list_elem_of_fmap in Hcin as (s2 & -> & Hs2).
    apply list_elem_of_lookup in Hs2 as [n Hn].
    rewrite (Hat n s2 Hn) in Hj. injection Hj as ->.
    rewrite (list_lookup_total_correct _ _ _ Hn). reflexivity. }
  split; [exact Hcj|].
  unfold mergeable in Hmg.
  rewrite !reset_lookup in Hmg
    by (assumption || eapply lookup_lt_Some; eassumption).
  simpl in Hmg. rewrite !andb_true_r in Hmg. apply Z.eqb_neq in Hmg.
  rewrite (list_lookup_total_correct _ _ _ Hi) in Hmg. exact Hmg.
Qed.

End NoMove.

Lemma can_move_false_of_no_move (tiles : list Tile.t) :
  well_formed tiles -> tiles <> [] ->
  (forall d, valid_direction d = true ->
             exists ts', move tiles d = (ts', Ret false)) ->
  can_move tiles = Ret false.
Proof.
  intros Hwf Hne Hstay.
  destruct (can_move_outcome tiles Hwf) as (b & Hb & Hiff).
  rewrite Hb. f_equal. apply Hiff. split.
  - (* a free cell would let some tile move *)
    apply (board_full_length tiles Hwf). intros Hlt.
    assert (Hnot : ~ board_full tiles)
      by (intros Hf; apply (board_full_length tiles Hwf) in Hf; contradiction).
    assert (Hex : exists f, inb f /\ f ∉ map cell tiles).
    { destruct (decide (Forall (fun p => p ∈ map cell tiles) all_cells))
        as [Hall|Hall].
      - destruct Hnot. intros p Hp. rewrite Forall_forall in Hall.
        apply Hall, inb_all_cells, Hp.
      - apply not_Forall_Exists in Hall; [|intros p; apply _].
        apply Exists_exists in Hall as (f & Hf & Hfn).
        exists f. split; [apply inb_all_cells, Hf|exact Hfn]. }
    destruct Hex as (f & Hf & Hfree).
    destruct tiles as [|s0 rest]; [contradiction|].
    assert (Hc0 : inb (cell s0)).
    { destruct Hwf as [_ Hall]. apply Forall_cons in Hall as [H0 _]. exact H0. }
    destruct (free_neighbour (fun c => c ∈ map cell (s0 :: rest))
                (cell s0) f Hc0 Hf) as (d & c & c' & Hd & Hc & Hc' & Hnext & Ho & Hno).
    { left. }
    { exact Hfree. }
    apply list_elem_of_fmap in Ho as (s & Hcs & Hs).
    destruct (no_move_blocked d (s0 :: rest) Hd Hwf (Hstay d Hd) c c' s Hs
                (eq_sym Hcs) Hnext Hc') as (s' & Hs' & Hcs' & _).
    apply Hno. apply list_elem_of_fmap. exists s'. auto.
  - (* equal neighbours would merge *)
    intros (p & q & v & Hp & Hq & Hadj & Hvp & Hvq).
    destruct (adjacent_next_pos p q Hadj) as (d & Hd & Hnext).
    assert (Hps : is_Some (value_at cell tiles p)) by eauto.
    apply value_at_is_Some, list_elem_of_fmap in Hps as (s & Hcs & Hs).
    destruct (no_move_blocked d tiles Hd Hwf (Hstay d Hd) p q s Hs
                (eq_sym Hcs) Hnext Hq) as (s' & Hs' & Hcs' & Hdiff).
    destruct Hwf as [Hnd _].
    apply list_elem_of_lookup in Hs as [i Hi].
    apply list_elem_of_lookup in Hs' as [j Hj].
    pose proof (value_at_lookup cell tiles i s Hnd Hi) as E1.
    pose proof (value_at_lookup cell tiles j s' Hnd Hj) as E2.
    rewrite <- Hcs in E1. rewrite Hcs' in E2. congruence.
Qed.

(** X16: the game-over test is complete.  On a non-empty board with
    pairwise-distinct in-bounds cells on which [can_move] returns [True],
    [move] returns [True] in one of the four directions at least. *)
Theorem can_move_some_move (tiles : list Tile.t) :
  well_formed tiles -> tiles <> [] -> can_move tiles = Ret true ->
  exists d ts', valid_direction d = true /\ move tiles d = (ts', Ret true).
Proof.
  intros Hwf Hne Hcm.
  assert (Hres : forall d, valid_direction d = true ->
            exists m ts', move tiles d = (ts', Ret m)).
  { intros d Hd. destruct (move_summary tiles d Hwf Hd) as (m & ts' & Hrun & _).
    exists m, ts'. exact Hrun. }
  destruct (Hres "left"%string eq_refl) as ([|] & tl & Hl);
    [exists "left"%string, tl; split; [reflexivity|exact Hl]|].
  destruct (Hres "right"%string eq_refl) as ([|] & tr & Hr);
    [exists "right"%string, tr; split; [reflexivity|exact Hr]|].
  destruct (Hres "up"%string eq_refl) as ([|] & tu & Hu);
    [exists "up"%string, tu; split; [reflexivity|exact Hu]|].
  destruct (Hres "down"%string eq_refl) as ([|] & td & Hdn);
    [exists "down"%string, td; split; [reflexivity|exact Hdn]|].
  exfalso.
  assert (Hfalse : can_move tiles = Ret false).
  { apply can_move_false_of_no_move; try assumption.
    intros d Hd. four_directions Hd; [exists tl|exists tr|exists tu|exists td]; assumption. }
  congruence.
Qed.

Lemma can_move_some_move_witness :
  exists d ts',
    valid_direction d = true
    /\ move (mk_row 0 [2; 2; 4; 0]) d = (ts', Ret true).
Proof.
  apply (can_move_some_move (mk_row 0 [2; 2; 4; 0])).
  - concrete_board.
  - discriminate.
  - vm_compute. reflexivity.
Defined.
